(** * EnhancedPDFProcessor: extraction reconciliation pipeline

    A shallow embedding of the per-page extraction pipeline of
    [EnhancedPDFProcessor] (the React component that rasterises a PDF page,
    runs the vision model, the PDF.js text layer and Tesseract, and groups
    the recognised words into lines and blocks), together with the
    properties its specification states about it.

    Conventions of the embedding.
    - A JavaScript [number] is a rational ([Q]); the rounding of IEEE
      doubles is not modelled.  [Math.min], [Math.max] and [Math.abs]
      are [Qmin], [Qmax] and [Qabs].
    - A JavaScript string is a [string] of 8-bit characters; [trim],
      [split(/\s+/)], [toLowerCase] and [includes] are written out for
      the ASCII range.
    - An [await]ed collaborator (vision model, OCR engine, text layer)
      is a field of the environment record that either returns a value
      or throws; a [try]/[catch] is a [match] on that outcome.
    - [nanoid()] draws the next identifier of a supply: the identifier
      of a chunk is the seed of the page plus the number of chunks
      already pushed. *)

From Stdlib Require Import QArith Qminmax Qabs Qround Lqa.
From Stdlib Require Import ZArith List String Ascii Bool Arith Lia.
From Stdlib Require Import Permutation Sorted.
Import ListNotations.

Open Scope Q_scope.

(** ** Numbers *)

Definition Qltb (a b : Q) : bool := negb (Qle_bool b a).

(** [a || b] on numbers: [0] is falsy. *)
Definition orElseQ (a b : Q) : Q := if Qeq_bool a 0 then b else a.

(** ** Strings *)

Open Scope string_scope.

(** White space as [\s] and [trim] see it, in the ASCII range:
    tab, line feed, vertical tab, form feed, carriage return, space. *)
Definition isSpace (c : ascii) : bool :=
  let n := nat_of_ascii c in
  (Nat.eqb n 32 || (Nat.leb 9 n && Nat.leb n 13))%bool.

Fixpoint trimStart (s : string) : string :=
  match s with
  | EmptyString => EmptyString
  | String c r => if isSpace c then trimStart r else s
  end.

Fixpoint rev_string (s acc : string) : string :=
  match s with
  | EmptyString => acc
  | String c r => rev_string r (String c acc)
  end.

Definition trimEnd (s : string) : string :=
  rev_string (trimStart (rev_string s EmptyString)) EmptyString.

Definition trim (s : string) : string := trimEnd (trimStart s).

(** Truthiness of a string: the empty string is falsy. *)
Definition truthy (s : string) : bool :=
  match s with EmptyString => false | String _ _ => true end.

(** [s || d] on strings. *)
Definition orElseS (s d : string) : string := if truthy s then s else d.

(** [s.split(/\s+/)]: the pieces between maximal runs of white space;
    a leading or trailing run leaves an empty piece, and the empty
    string splits into one empty piece. *)
Fixpoint splitWs (s cur : string) (inWs : bool) : list string :=
  match s with
  | EmptyString => [cur]
  | String c r =>
      if isSpace c
      then (if inWs then splitWs r cur true else cur :: splitWs r EmptyString true)
      else splitWs r (cur ++ String c EmptyString) false
  end.

Definition split (s : string) : list string := splitWs s EmptyString false.

(** [s.split(/\s+/).filter(w => w.trim())] *)
Definition splitWords (s : string) : list string :=
  filter (fun w => truthy (trim w)) (split s).

Definition lowerChar (c : ascii) : ascii :=
  let n := nat_of_ascii c in
  if (Nat.leb 65 n && Nat.leb n 90)%bool then ascii_of_nat (n + 32) else c.

Fixpoint toLowerCase (s : string) : string :=
  match s with
  | EmptyString => EmptyString
  | String c r => String (lowerChar c) (toLowerCase r)
  end.

(** [hay.includes(needle)] *)
Fixpoint includes (hay needle : string) : bool :=
  (prefix needle hay ||
   match hay with
   | EmptyString => false
   | String _ r => includes r needle
   end)%bool.

(** [parts.join(sep)] *)
Fixpoint join (sep : string) (parts : list string) : string :=
  match parts with
  | [] => EmptyString
  | [p] => p
  | p :: rest => p ++ sep ++ join sep rest
  end.

Definition lengthQ (s : string) : Q := inject_Z (Z.of_nat (String.length s)).

Close Scope string_scope.

(** ** Data model *)

Record BoundingBox := mkBBox {
  x : Q;
  y : Q;
  width : Q;
  height : Q
}.

Record Word := mkWord {
  text : string;
  bbox : BoundingBox;
  confidence : Q;
  fontFamily : string;
  fontSize : Q
}.

Inductive Alignment := left_aligned.

Inductive LineId :=
| line_ (lineIndex : nat)            (* `line-${lineIndex}` *)
| fallback_line_ (index : nat).      (* `fallback-line-${index}` *)

Record Line := mkLine {
  line_id : LineId;
  words : list Word;
  line_bbox : BoundingBox;
  line_readingOrder : nat;
  alignment : Alignment
}.

Inductive BlockType := paragraph | heading | list_block | table | footer | image.

Inductive BlockId :=
| block_ (blockIndex : nat)          (* `block-${blockIndex}` *)
| fallback_block_ (index : nat).     (* `fallback-block-${index}` *)

Record Block := mkBlock {
  block_id : BlockId;
  block_type : BlockType;
  block_bbox : BoundingBox;
  lines : list Line;
  block_confidence : Q;
  semanticRole : option string;
  block_readingOrder : nat
}.

Record Geometry := mkGeometry { gx : Q; gy : Q; gw : Q; gh : Q }.

Inductive ChunkId := nanoid (n : nat).

Record LegacyTextChunk := mkChunk {
  chunk_id : ChunkId;
  chunk_text : string;
  chunk_pageNumber : nat;
  geometry : Geometry
}.

(** ** Array.prototype.sort

    [sort] is stable, and for a comparator that is a consistent order on
    the elements every stable sort returns the same array; it is embedded
    as the stable insertion sort: an element goes before the first later
    element it does not compare greater than. *)

Section Sort.
Context {A : Type} (compareFn : A -> A -> Q).

Fixpoint insert (a : A) (l : list A) : list A :=
  match l with
  | [] => [a]
  | b :: r => if Qle_bool (compareFn a b) 0 then a :: b :: r else b :: insert a r
  end.

Fixpoint sort (l : list A) : list A :=
  match l with
  | [] => []
  | a :: r => insert a (sort r)
  end.
End Sort.

(** ** Grouping engine *)

(** The comparator of [groupWordsIntoLines]. *)
Definition compareWords (a b : Word) : Q :=
  let yDiff := y (bbox a) - y (bbox b) in
  if Qltb (Qabs yDiff) 0.01 then x (bbox a) - x (bbox b) else yDiff.

(** The test of the scan: does [currentWord] belong to the line that
    ends with [lastWordInLine]? *)
Definition sameLine (currentWord lastWordInLine : Word) : bool :=
  Qltb (Qabs (y (bbox currentWord) - y (bbox lastWordInLine))) 0.02.

(** The [for] loop of [groupWordsIntoLines] over [sortedWords[1..]]:
    the state is the array [lines] and the array [currentLine]. *)
Fixpoint scanWords (lines : list (list Word)) (currentLine : list Word)
    (rest : list Word) : list (list Word) * list Word :=
  match rest with
  | [] => (lines, currentLine)
  | currentWord :: rest' =>
      let lastWordInLine := last currentLine currentWord in
      if sameLine currentWord lastWordInLine
      then scanWords lines (currentLine ++ [currentWord]) rest'
      else scanWords (lines ++ [currentLine]) [currentWord] rest'
  end.

Definition groupWordsIntoLines (words : list Word) : list (list Word) :=
  match words with
  | [] => []
  | _ :: _ =>
      match sort compareWords words with
      | [] => []
      | first :: rest =>
          let '(lines, currentLine) := scanWords [] [first] rest in
          match currentLine with
          | [] => lines
          | _ :: _ => lines ++ [currentLine]
          end
      end
  end.

Definition startsNewBlock (currentLine lastLineInBlock : Line) : bool :=
  let verticalGap :=
    y (line_bbox currentLine)
    - (y (line_bbox lastLineInBlock) + height (line_bbox lastLineInBlock)) in
  Qltb 0.03 verticalGap.

Fixpoint scanLines (blocks : list (list Line)) (currentBlock : list Line)
    (rest : list Line) : list (list Line) * list Line :=
  match rest with
  | [] => (blocks, currentBlock)
  | currentLine :: rest' =>
      let lastLineInBlock := last currentBlock currentLine in
      if startsNewBlock currentLine lastLineInBlock
      then scanLines (blocks ++ [currentBlock]) [currentLine] rest'
      else scanLines blocks (currentBlock ++ [currentLine]) rest'
  end.

Definition groupLinesIntoBlocks (lines : list Line) : list (list Line) :=
  match lines with
  | [] => []
  | first :: rest =>
      let '(blocks, currentBlock) := scanLines [] [first] rest in
      match currentBlock with
      | [] => blocks
      | _ :: _ => blocks ++ [currentBlock]
      end
  end.

(** [Math.min(...(h :: t))] and [Math.max(...(h :: t))]. *)
Definition Math_min (h : Q) (t : list Q) : Q := fold_left Qmin t h.
Definition Math_max (h : Q) (t : list Q) : Q := fold_left Qmax t h.

Definition calculateBoundingBox (bboxes : list BoundingBox) : BoundingBox :=
  match bboxes with
  | [] => mkBBox 0 0 0 0
  | b :: bs =>
      let minX := Math_min (x b) (map x bs) in
      let minY := Math_min (y b) (map y bs) in
      let maxX := Math_max (x b + width b) (map (fun b => x b + width b) bs) in
      let maxY := Math_max (y b + height b) (map (fun b => y b + height b) bs) in
      mkBBox minX minY (maxX - minX) (maxY - minY)
  end.

(** The loop that turns the groups of [groupWordsIntoLines] into [Line]s
    ([groupedLines.forEach] of the primary path): empty groups are
    skipped, the reading order is the index of the group. *)
Fixpoint buildLinesFrom (lineIndex : nat) (groupedLines : list (list Word))
    : list Line :=
  match groupedLines with
  | [] => []
  | lineWords :: rest =>
      match lineWords with
      | [] => buildLinesFrom (S lineIndex) rest
      | _ :: _ =>
          mkLine (line_ lineIndex) lineWords
                 (calculateBoundingBox (map bbox lineWords))
                 lineIndex left_aligned
          :: buildLinesFrom (S lineIndex) rest
      end
  end.

Definition buildLines (groupedLines : list (list Word)) : list Line :=
  buildLinesFrom 0 groupedLines.

(** ** Collaborators and their outcomes *)

(** The values a [throw] can carry on a page. *)
Inductive JsError :=
| GeminiError (status : option nat)   (* thrown by a vision-model call *)
| OcrError                            (* thrown by the OCR worker *)
| ReferenceError (identifier : string).

Inductive Outcome (E A : Type) :=
| Returns (a : A)
| Throws (e : E).
Arguments Returns {E A} a.
Arguments Throws {E A} e.

Definition bind {E A B : Type} (m : Outcome E A) (k : A -> Outcome E B)
    : Outcome E B :=
  match m with
  | Returns a => k a
  | Throws e => Throws e
  end.

Record Canvas := mkCanvas { canvas_width : Q; canvas_height : Q }.

(** A text item of the PDF.js text layer; [transform] is the array
    [[m0, m1, m2, m3, m4, m5]]. *)
Record TextItem := mkTextItem {
  str : string;
  m0 : Q; m1 : Q; m2 : Q; m3 : Q; m4 : Q; m5 : Q;
  item_width : Q;
  item_height : Q;
  fontName : string
}.

(** [pdfPage.getTextContent()]: throws, or returns an object whose
    [items] may be missing. *)
Record PdfPage := mkPdfPage {
  getTextContent : Outcome unit (option (list TextItem))
}.

Record OcrBBox := mkOcrBBox { x0 : Q; y0 : Q; x1 : Q; y1 : Q }.

Record OcrWord := mkOcrWord {
  ow_text : string;
  ow_bbox : option OcrBBox;
  ow_confidence : Q
}.

Record OcrLine := mkOcrLine {
  ol_text : string;
  ol_bbox : option OcrBBox;
  ol_confidence : Q
}.

(** The [data] of a recognition; [None] is a field that is missing or
    not an array. *)
Record OcrData := mkOcrData {
  ocr_text : string;
  ocr_words : option (list OcrWord);
  ocr_lines : option (list OcrLine)
}.

Inductive PSM := SINGLE_BLOCK | AUTO_OSD.

(** What [worker.setParameters] is given besides the character
    whitelist and [preserve_interword_spaces], which never change. *)
Record OcrParams := mkOcrParams {
  tessedit_pageseg_mode : option PSM;
  user_defined_dpi : option nat
}.

Record GeminiResult := mkGeminiResult {
  gemini_text : string;
  gemini_confidence : Q
}.

Record StructureElement := mkElement {
  element_type : string;
  content : string;
  element_confidence : Q
}.

Record StructureResult := mkStructure {
  elements : list StructureElement;
  completeText : string
}.

(** The collaborators of one page.  [recognize n p] is the [n]-th call
    of [worker.recognize] on the page, made under the parameters [p]. *)
Record Env := mkEnv {
  extractTextWithGemini : Outcome (option nat) GeminiResult;
  analyzeDocumentStructure : string -> Outcome (option nat) StructureResult;
  recognize : nat -> OcrParams -> Outcome unit OcrData
}.

Record Coverage := mkCoverage {
  pdfNativeWords : nat;
  ocrWords : nat;
  reconciledWords : nat;
  coveragePercent : Q
}.

Record IRPage := mkIRPage {
  pageNumber : nat;
  page_width : Q;
  page_height : Q;
  page_words : list Word;
  page_lines : list Line;
  page_blocks : list Block;
  coverage : Coverage
}.

Record PageResult := mkPageResult {
  legacyChunks : list LegacyTextChunk;
  irPage : IRPage
}.

(** ** The word and chunk arrays under construction *)

Record Acc := mkAcc {
  acc_words : list Word;
  acc_chunks : list LegacyTextChunk
}.

Definition emptyAcc : Acc := mkAcc [] [].

Definition pushWord (acc : Acc) (w : Word) : Acc :=
  mkAcc (acc_words acc ++ [w]) (acc_chunks acc).

(** [legacyChunks.push({id: nanoid(), text, pageNumber, geometry})] *)
Definition pushChunk (seed pageNumber : nat) (acc : Acc) (t : string)
    (g : Geometry) : Acc :=
  mkAcc (acc_words acc)
        (acc_chunks acc
         ++ [mkChunk (nanoid (seed + List.length (acc_chunks acc))) t pageNumber g]).

(** [arr.forEach((a, i) => ...)] over a state. *)
Fixpoint forEachFrom {A St : Type} (i : nat) (f : St -> A -> nat -> St)
    (l : list A) (s : St) : St :=
  match l with
  | [] => s
  | a :: r => forEachFrom (S i) f r (f s a i)
  end.

Definition forEach {A St : Type} (f : St -> A -> nat -> St) (l : list A)
    (s : St) : St :=
  forEachFrom 0 f l s.

(** [forEach] with a callback that can throw: the first exception
    leaves the loop. *)
Fixpoint forEachThrowing {A St : Type} (f : St -> A -> Outcome JsError St)
    (l : list A) (s : St) : Outcome JsError St :=
  match l with
  | [] => Returns s
  | a :: r => bind (f s a) (forEachThrowing f r)
  end.

Definition clamp (lo v hi : Q) : Q := Qmax lo (Qmin v hi).

(** ** STEP 1 and 2 of the primary path: text layer and OCR *)

Definition readTextLayer (pdfPage : option PdfPage) : list TextItem :=
  match pdfPage with
  | None => []
  | Some p =>
      match getTextContent p with
      | Returns (Some items) => items
      | Returns None => []
      | Throws _ => []
      end
  end.

Definition ocrConfigs : list OcrParams :=
  [ mkOcrParams (Some SINGLE_BLOCK) (Some 300%nat);
    mkOcrParams (Some AUTO_OSD) (Some 300%nat);
    mkOcrParams (Some SINGLE_BLOCK) (Some 300%nat) ].

(** The loop over [ocrConfigs]: the first configuration whose data has
    a non-empty [words] array wins; an exception of a configuration is
    swallowed.  The second component lists the recognitions made. *)
Fixpoint tryOcrConfigs (env : Env) (callIndex : nat) (configs : list OcrParams)
    : option OcrData * list OcrParams :=
  match configs with
  | [] => (None, [])
  | config :: rest =>
      let continue :=
        let '(d, calls) := tryOcrConfigs env (S callIndex) rest in
        (d, config :: calls) in
      match recognize env callIndex config with
      | Returns data =>
          match ocr_words data with
          | Some (_ :: _) => (Some data, [config])
          | _ => continue
          end
      | Throws _ => continue
      end
  end.

(** ** STEP 3, priority 1: the text layer *)

(** Evaluation of an identifier: an unbound one throws. *)
Fixpoint resolve (scope : list (string * Q)) (identifier : string)
    : Outcome JsError Q :=
  match scope with
  | [] => Throws (ReferenceError identifier)
  | (name, v) :: rest =>
      if String.eqb name identifier then Returns v else resolve rest identifier
  end.

(** The callback of [pdfTextItems.forEach].  [scope] lists the numeric
    identifiers the callback has bound when it builds the legacy chunk;
    no enclosing scope (the callback's parameters,
    [performGeminiExtraction], the component, the module's imports)
    declares a [w] or an [h]. *)
Definition nativeItem (canvas : Canvas) (seed pageNumber : nat)
    (acc : Acc) (item : TextItem) : Outcome JsError Acc :=
  if (truthy (str item) && truthy (trim (str item)))%bool then
    let x := m4 item in
    let y := m5 item in
    let fontSize := Qabs (m0 item) in
    let textWidth :=
      orElseQ (item_width item) (lengthQ (str item) * fontSize * 0.6) in
    let textHeight := orElseQ (item_height item) fontSize in
    let normalizedBBox :=
      mkBBox (x / canvas_width canvas)
             ((canvas_height canvas - y - textHeight) / canvas_height canvas)
             (textWidth / canvas_width canvas)
             (textHeight / canvas_height canvas) in
    let word :=
      mkWord (str item) normalizedBBox 0.98
             (orElseS (fontName item) "Arial") fontSize in
    let acc := pushWord acc word in
    let scope :=
      [ ("x"%string, x); ("y"%string, y); ("fontSize"%string, fontSize);
        ("textWidth"%string, textWidth); ("textHeight"%string, textHeight) ] in
    bind (resolve scope "x") (fun vx =>
    bind (resolve scope "y") (fun vy =>
    bind (resolve scope "w") (fun vw =>
    bind (resolve scope "h") (fun vh =>
      Returns (pushChunk seed pageNumber acc (str item)
                 (mkGeometry (clamp 0 vx 100) (clamp 0 vy 100)
                             (clamp 0.1 vw 100) (clamp 0.1 vh 100)))))))
  else Returns acc.

(** ** STEP 3, priority 2: OCR words *)

Definition ocrWordItem (canvas : Canvas) (seed pageNumber : nat)
    (acc : Acc) (ocrWord : OcrWord) (wordIndex : nat) : Acc :=
  match ow_bbox ocrWord with
  | Some b =>
      if truthy (trim (ow_text ocrWord)) then
        let cw := canvas_width canvas in
        let ch := canvas_height canvas in
        let normalizedBBox :=
          mkBBox (Qmax 0 (Qmin (x0 b / cw) 1))
                 (Qmax 0 (Qmin (y0 b / ch) 1))
                 (Qmax 0.001 (Qmin ((x1 b - x0 b) / cw) (1 - x0 b / cw)))
                 (Qmax 0.001 (Qmin ((y1 b - y0 b) / ch) (1 - y0 b / ch))) in
        let word := mkWord (ow_text ocrWord) normalizedBBox
                           (ow_confidence ocrWord / 100) "Arial" 12 in
        pushChunk seed pageNumber (pushWord acc word) (ow_text ocrWord)
          (mkGeometry (x normalizedBBox * 100) (y normalizedBBox * 100)
                      (width normalizedBBox * 100) (height normalizedBBox * 100))
      else acc
  | None => acc
  end.

(** ** STEP 4, strategy 1: words synthesised from OCR lines *)

Definition usableLine (line : OcrLine) : bool :=
  (truthy (ol_text line) && truthy (trim (ol_text line))
   && match ol_bbox line with Some _ => true | None => false end)%bool.

Definition ocrLineItem (canvas : Canvas) (seed pageNumber : nat)
    (acc : Acc) (line : OcrLine) (lineIndex : nat) : Acc :=
  match ol_bbox line with
  | Some b =>
      if (truthy (ol_text line) && truthy (trim (ol_text line)))%bool then
        let lineWords := splitWords (ol_text line) in
        let lineWidth := x1 b - x0 b in
        let lineHeight := y1 b - y0 b in
        let cw := canvas_width canvas in
        let ch := canvas_height canvas in
        snd (forEach
          (fun (st : Q * Acc) (wordText : string) (wordIndex : nat) =>
             let '(currentX, acc) := st in
             let avgCharWidth := lineWidth / lengthQ (ol_text line) in
             let wordWidth :=
               Qmax (lengthQ wordText * avgCharWidth) (lineWidth * 0.03) in
             let spacing := lineWidth * 0.01 in
             let normalizedBBox :=
               mkBBox (currentX / cw) (y0 b / ch) (wordWidth / cw) (lineHeight / ch) in
             let word :=
               mkWord wordText normalizedBBox
                      (orElseQ (ol_confidence line) 80 / 100) "Arial"
                      (Qmax 8 (lineHeight * 0.8)) in
             let acc := pushWord acc word in
             let acc :=
               pushChunk seed pageNumber acc wordText
                 (mkGeometry (clamp 0 ((currentX / cw) * 100) 100)
                             (clamp 0 ((y0 b / ch) * 100) 100)
                             (clamp 0.5 ((wordWidth / cw) * 100) 100)
                             (clamp 1.0 ((lineHeight / ch) * 100) 100)) in
             (currentX + wordWidth + spacing, acc))
          lineWords (x0 b, acc))
      else acc
  | None => acc
  end.

(** ** STEP 4, strategy 2: a document flow laid out from the vision text *)

Definition flowWord (geminiConfidence : Q) (seed pageNumber : nat)
    (st : Q * Q * Acc) (wordText : string) (wordIndex : nat) : Q * Q * Acc :=
  let '(currentX, currentY, acc) := st in
  let top := 0.08 in
  let bottom := 0.08 in
  let left := 0.06 in
  let right := 0.06 in
  let contentWidth := 1 - left - right in
  let avgWordsPerLine := 12%nat in
  let lineHeight := 0.025 in
  let wordSpacing := 0.008 in
  let avgCharWidth := contentWidth / (12 * 7) in
  let wordWidth := Qmax (lengthQ wordText * avgCharWidth) (contentWidth * 0.02) in
  let wrap :=
    (Qltb (1 - right) (currentX + wordWidth)
     || (Nat.ltb 0 wordIndex && Nat.eqb (wordIndex mod avgWordsPerLine) 0))%bool in
  let currentX := if wrap then left else currentX in
  let currentY := if wrap then currentY + lineHeight * 1.2 else currentY in
  let overflow := Qltb (1 - bottom) (currentY + lineHeight) in
  let currentY' := if overflow then top else currentY in
  let currentX' := if overflow then currentX + contentWidth * 0.5 else currentX in
  let normalizedBBox := mkBBox currentX' currentY' wordWidth lineHeight in
  let word := mkWord wordText normalizedBBox geminiConfidence "Arial" 12 in
  let acc := pushWord acc word in
  let acc :=
    pushChunk seed pageNumber acc wordText
      (mkGeometry (clamp 0 (currentX' * 100) 100)
                  (clamp 0 (currentY' * 100) 100)
                  (clamp 0.5 (wordWidth * 100) 100)
                  (clamp 1.0 (lineHeight * 100) 100)) in
  (currentX' + wordWidth + wordSpacing, currentY', acc).

(** STEP 4 as a whole: entered when no word was created so far. *)
Definition fallbackCoordinates (canvas : Canvas) (seed pageNumber : nat)
    (ocrData : option OcrData) (geminiResult : GeminiResult) (acc : Acc) : Acc :=
  match acc_words acc with
  | _ :: _ => acc
  | [] =>
      let ocrLines :=
        match ocrData with
        | Some d => match ocr_lines d with Some ls => ls | None => [] end
        | None => []
        end in
      let acc := forEach (ocrLineItem canvas seed pageNumber) ocrLines acc in
      let fallbackCoordinatesCreated := existsb usableLine ocrLines in
      if (negb fallbackCoordinatesCreated && truthy (gemini_text geminiResult))%bool
      then
        let textWords := splitWords (gemini_text geminiResult) in
        snd (forEach (flowWord (gemini_confidence geminiResult) seed pageNumber)
                     textWords (0.06, 0.08, acc))
      else acc
  end.

(** ** STEP 5: the placeholder *)

Definition placeholder (seed pageNumber : nat) (acc : Acc) : Acc :=
  match acc_words acc with
  | [] => pushChunk seed pageNumber acc "No text detected" (mkGeometry 10 10 20 5)
  | _ :: _ => acc
  end.

(** ** Semantic labelling of the geometric blocks *)

Record SemanticInfo := mkSemanticInfo {
  sem_type : string;
  sem_confidence : Q;
  sem_role : option string
}.

(** [Map.prototype.set]: a key that is present keeps its place. *)
Fixpoint mapSet (k : string) (v : SemanticInfo)
    (m : list (string * SemanticInfo)) : list (string * SemanticInfo) :=
  match m with
  | [] => [(k, v)]
  | (k', v') :: r =>
      if String.eqb k' k then (k, v) :: r else (k', v') :: mapSet k v r
  end.

Definition buildSemanticMap (elements : list StructureElement)
    : list (string * SemanticInfo) :=
  fold_left
    (fun semanticMap element =>
       if truthy (trim (content element)) then
         let normalizedContent := trim (toLowerCase (content element)) in
         mapSet normalizedContent
           (mkSemanticInfo (element_type element) (element_confidence element)
                           (Some (element_type element)))
           semanticMap
       else semanticMap)
    elements [].

Definition newline : string := String (ascii_of_nat 10) EmptyString.

Definition blockTextOf (blockLines : list Line) : string :=
  trim (toLowerCase
    (join newline (map (fun line => join " " (map text (words line))) blockLines))).

(** The [for ... of semanticMap.entries()] loop with its [break]. *)
Fixpoint findSemantic (blockText : string) (entries : list (string * SemanticInfo))
    : SemanticInfo :=
  match entries with
  | [] => mkSemanticInfo "paragraph" 0.8 None
  | (elementText, info) :: rest =>
      if (includes blockText elementText || includes elementText blockText)%bool
      then mkSemanticInfo (sem_type info) (Qmax (sem_confidence info) 0.7)
                          (sem_role info)
      else findSemantic blockText rest
  end.

Definition mapElementTypeToBlockType (elementType : string) : BlockType :=
  let t := toLowerCase elementType in
  if (String.eqb t "title" || String.eqb t "header")%bool then heading
  else if String.eqb t "table" then table
  else if String.eqb t "list" then list_block
  else if String.eqb t "footer" then footer
  else if String.eqb t "image" then image
  else paragraph.

Fixpoint buildBlocksFrom (blockIndex : nat)
    (semanticMap : list (string * SemanticInfo))
    (groupedBlocks : list (list Line)) : list Block :=
  match groupedBlocks with
  | [] => []
  | blockLines :: rest =>
      match blockLines with
      | [] => buildBlocksFrom (S blockIndex) semanticMap rest
      | _ :: _ =>
          let semanticInfo := findSemantic (blockTextOf blockLines) semanticMap in
          mkBlock (block_ blockIndex)
                  (mapElementTypeToBlockType (sem_type semanticInfo))
                  (calculateBoundingBox (map line_bbox blockLines))
                  blockLines (sem_confidence semanticInfo)
                  (sem_role semanticInfo) blockIndex
          :: buildBlocksFrom (S blockIndex) semanticMap rest
      end
  end.

(** ** STEP 5 of the primary path: coverage-gap repair *)

Record PageState := mkPageState {
  st_acc : Acc;
  st_lines : list Line;
  st_blocks : list Block
}.

Definition ofNat (n : nat) : Q := inject_Z (Z.of_nat n).

Definition extractedTextOf (ws : list Word) : string := join " " (map text ws).

(** [completeText.length > extractedText.length * 1.2] *)
Definition gapDetected (completeText extractedText : string) : bool :=
  Qltb (lengthQ extractedText * 1.2) (lengthQ completeText).

(** The filter that selects [missingTextElements]. *)
Definition isMissing (extractedText : string) (element : StructureElement) : bool :=
  let elementText := trim (toLowerCase (content element)) in
  (Nat.ltb 0 (String.length elementText)
   && negb (includes (toLowerCase extractedText) elementText))%bool.

Definition fallbackBBoxOf (index : nat) : BoundingBox :=
  mkBBox 0.1 (0.8 + ofNat index * 0.05) 0.8 0.04.

Definition fallbackWordsOf (element : StructureElement) (index : nat) : list Word :=
  let fallbackBBox := fallbackBBoxOf index in
  forEach
    (fun (acc : list Word) (wordText : string) (wordIndex : nat) =>
       acc ++ [mkWord wordText
                 (mkBBox (x fallbackBBox + ofNat wordIndex * 0.05)
                         (y fallbackBBox)
                         (Qmin 0.05 (lengthQ wordText * 0.01))
                         (height fallbackBBox))
                 (element_confidence element) "Arial" 12])
    (split (content element)) [].

Definition fallbackLineOf (element : StructureElement) (index linesLength : nat)
    : Line :=
  mkLine (fallback_line_ index) (fallbackWordsOf element index)
         (fallbackBBoxOf index) (linesLength + index) left_aligned.

Definition fallbackBlockOf (element : StructureElement)
    (index linesLength blocksLength : nat) : Block :=
  mkBlock (fallback_block_ index)
          (mapElementTypeToBlockType (element_type element))
          (fallbackBBoxOf index)
          [fallbackLineOf element index linesLength]
          (element_confidence element)
          (Some (element_type element))
          (blocksLength + index).

(** The body of [missingTextElements.forEach]. *)
Definition addMissingElement (seed pageNumber : nat) (st : PageState)
    (element : StructureElement) (index : nat) : PageState :=
  let fallbackWords := fallbackWordsOf element index in
  let acc := mkAcc (acc_words (st_acc st) ++ fallbackWords) (acc_chunks (st_acc st)) in
  let fallbackLine := fallbackLineOf element index (List.length (st_lines st)) in
  let fallbackBlock :=
    fallbackBlockOf element index (List.length (st_lines st))
                    (List.length (st_blocks st)) in
  let acc :=
    fold_left
      (fun acc word =>
         pushChunk seed pageNumber acc (text word)
           (mkGeometry (clamp 0 (x (bbox word) * 100) 100)
                       (clamp 0 (y (bbox word) * 100) 100)
                       (clamp 0.5 (width (bbox word) * 100) 100)
                       (clamp 1.0 (height (bbox word) * 100) 100)))
      fallbackWords acc in
  mkPageState acc (st_lines st ++ [fallbackLine]) (st_blocks st ++ [fallbackBlock]).

Definition coverageGapRepair (seed pageNumber : nat)
    (geminiResult : GeminiResult) (structureResult : StructureResult)
    (st : PageState) : PageState :=
  let extractedText := extractedTextOf (acc_words (st_acc st)) in
  let completeText :=
    orElseS (completeText structureResult) (gemini_text geminiResult) in
  if gapDetected completeText extractedText then
    let missingTextElements :=
      filter (isMissing extractedText) (elements structureResult) in
    forEach (addMissingElement seed pageNumber) missingTextElements st
  else st.

(** ** The primary path of [performGeminiExtraction] *)

(** STEP 3: words from the best source.  The text layer is used when it
    has items; otherwise the OCR words are. *)
Definition createWords (canvas : Canvas) (seed pageNumber : nat)
    (pdfTextItems : list TextItem) (ocrData : option OcrData)
    : Outcome JsError Acc :=
  match pdfTextItems with
  | _ :: _ =>
      forEachThrowing (nativeItem canvas seed pageNumber) pdfTextItems emptyAcc
  | [] =>
      match ocrData with
      | Some d =>
          match ocr_words d with
          | Some ws => Returns (forEach (ocrWordItem canvas seed pageNumber) ws emptyAcc)
          | None => Returns emptyAcc
          end
      | None => Returns emptyAcc
      end
  end.

Definition ocrWordCount (ocrData : option OcrData) : nat :=
  match ocrData with
  | Some d => match ocr_words d with Some ws => List.length ws | None => 0 end
  | None => 0
  end.

(** Everything after STEP 3: fallback coordinates, placeholder,
    grouping, labelling, gap repair, intermediate representation. *)
Definition reconcile (canvas : Canvas) (seed pageNumber : nat)
    (geminiResult : GeminiResult) (structureResult : StructureResult)
    (ocrData : option OcrData) (acc : Acc) : PageResult :=
  let acc := fallbackCoordinates canvas seed pageNumber ocrData geminiResult acc in
  let acc := placeholder seed pageNumber acc in
  let lines := buildLines (groupWordsIntoLines (acc_words acc)) in
  let groupedBlocks := groupLinesIntoBlocks lines in
  let semanticMap := buildSemanticMap (elements structureResult) in
  let blocks := buildBlocksFrom 0 semanticMap groupedBlocks in
  let st :=
    coverageGapRepair seed pageNumber geminiResult structureResult
      (mkPageState acc lines blocks) in
  mkPageResult
    (acc_chunks (st_acc st))
    (mkIRPage pageNumber (canvas_width canvas) (canvas_height canvas)
       (acc_words (st_acc st)) (st_lines st) (st_blocks st)
       (mkCoverage 0 (ocrWordCount ocrData) (List.length (acc_words (st_acc st)))
                   (Qmin 95 (gemini_confidence geminiResult * 100)))).

(** The two vision-model calls that open the [try] block. *)
Definition visionCalls (env : Env)
    : Outcome (option nat) (GeminiResult * StructureResult) :=
  bind (extractTextWithGemini env) (fun geminiResult =>
  bind (analyzeDocumentStructure env (gemini_text geminiResult))
       (fun structureResult => Returns (geminiResult, structureResult))).

(** The [try] block: the recognitions made, and what it returns or
    throws. *)
Definition primaryPath (env : Env) (canvas : Canvas) (seed pageNumber : nat)
    (pdfPage : option PdfPage) : list OcrParams * Outcome JsError PageResult :=
  match visionCalls env with
  | Throws status => ([], Throws (GeminiError status))
  | Returns (geminiResult, structureResult) =>
      let pdfTextItems := readTextLayer pdfPage in
      let '(ocrData, calls) := tryOcrConfigs env 0 ocrConfigs in
      (calls,
       bind (createWords canvas seed pageNumber pdfTextItems ocrData)
            (fun acc =>
               Returns (reconcile canvas seed pageNumber geminiResult
                                  structureResult ocrData acc)))
  end.

(** ** The [catch] block of [performGeminiExtraction]: OCR alone *)

Definition catchParams : OcrParams := mkOcrParams (Some SINGLE_BLOCK) None.

(** Words of the OCR-only paths: the box is normalised without
    clamping, the chunk keeps the raster coordinates of the engine. *)
Definition rawOcrWordItem (canvas : Canvas) (seed pageNumber : nat)
    (acc : Acc) (ocrWord : OcrWord) (wordIndex : nat) : Acc :=
  match ow_bbox ocrWord with
  | Some b =>
      if truthy (trim (ow_text ocrWord)) then
        let cw := canvas_width canvas in
        let ch := canvas_height canvas in
        let normalizedBBox :=
          mkBBox (x0 b / cw) (y0 b / ch) ((x1 b - x0 b) / cw) ((y1 b - y0 b) / ch) in
        let word := mkWord (ow_text ocrWord) normalizedBBox
                           (ow_confidence ocrWord / 100) "Arial" 12 in
        pushChunk seed pageNumber (pushWord acc word) (ow_text ocrWord)
          (mkGeometry (x0 b) (y0 b) (x1 b - x0 b) (y1 b - y0 b))
      else acc
  | None => acc
  end.

Definition rawOcrWords (canvas : Canvas) (seed pageNumber : nat)
    (data : OcrData) : Acc :=
  match ocr_words data with
  | Some ws => forEach (rawOcrWordItem canvas seed pageNumber) ws emptyAcc
  | None => emptyAcc
  end.

(** Strategy 1 of the [catch] block: the box of a line cut into equal
    parts. *)
Definition catchLineItem (canvas : Canvas) (seed pageNumber : nat)
    (acc : Acc) (line : OcrLine) (lineIndex : nat) : Acc :=
  match ol_bbox line with
  | Some b =>
      if (truthy (ol_text line) && truthy (trim (ol_text line)))%bool then
        let lineWords := splitWords (ol_text line) in
        let wordWidth := (x1 b - x0 b) / ofNat (List.length lineWords) in
        forEach
          (fun (acc : Acc) (wordText : string) (wordIndex : nat) =>
             let wordX := x0 b + ofNat wordIndex * wordWidth in
             let word :=
               mkWord wordText
                 (mkBBox (wordX / canvas_width canvas)
                         (y0 b / canvas_height canvas)
                         (wordWidth / canvas_width canvas)
                         ((y1 b - y0 b) / canvas_height canvas))
                 (orElseQ (ol_confidence line) 70 / 100) "Arial" 12 in
             pushChunk seed pageNumber (pushWord acc word) wordText
               (mkGeometry wordX (y0 b) wordWidth (y1 b - y0 b)))
          lineWords acc
      else acc
  | None => acc
  end.

(** Strategy 2 of the [catch] block: a grid laid out from the OCR text. *)
Definition catchGrid (canvas : Canvas) (seed pageNumber : nat)
    (data : OcrData) (acc : Acc) : Acc :=
  let textWords := splitWords (ocr_text data) in
  let gridCols := Nat.min 12 (Nat.sqrt_up (List.length textWords)) in
  let gridRows := ((List.length textWords + gridCols - 1) / gridCols)%nat in
  forEach
    (fun (acc : Acc) (wordText : string) (wordIndex : nat) =>
       let row := (wordIndex / gridCols)%nat in
       let col := (wordIndex mod gridCols)%nat in
       let x := 0.05 + ofNat col * 0.08 in
       let y := 0.1 + ofNat row * 0.7 / ofNat gridRows in
       let width := 0.07 in
       let height := 0.03 in
       let word := mkWord wordText (mkBBox x y width height) 0.6 "Arial" 12 in
       pushChunk seed pageNumber (pushWord acc word) wordText
         (mkGeometry (x * canvas_width canvas) (y * canvas_height canvas)
                     (width * canvas_width canvas) (height * canvas_height canvas)))
    textWords acc.

Definition catchFallback (canvas : Canvas) (seed pageNumber : nat)
    (data : OcrData) (acc : Acc) : Acc :=
  match acc_words acc with
  | _ :: _ => acc
  | [] =>
      let acc :=
        match ocr_lines data with
        | Some ls => forEach (catchLineItem canvas seed pageNumber) ls acc
        | None => acc
        end in
      match acc_words acc with
      | [] => if truthy (ocr_text data)
              then catchGrid canvas seed pageNumber data acc
              else acc
      | _ :: _ => acc
      end
  end.

(** [groupedLines.map((lineWords, lineIndex) => ...)] *)
Definition mapLines (groupedLines : list (list Word)) : list Line :=
  forEach
    (fun (acc : list Line) (lineWords : list Word) (lineIndex : nat) =>
       acc ++ [mkLine (line_ lineIndex) lineWords
                      (calculateBoundingBox (map bbox lineWords))
                      lineIndex left_aligned])
    groupedLines [].

Definition catchPage (canvas : Canvas) (seed pageNumber : nat) (data : OcrData)
    : PageResult :=
  let acc := rawOcrWords canvas seed pageNumber data in
  let acc := catchFallback canvas seed pageNumber data acc in
  let lines := mapLines (groupWordsIntoLines (acc_words acc)) in
  let blocks :=
    [ mkBlock (block_ 0) paragraph
              (calculateBoundingBox (map bbox (acc_words acc)))
              lines 0.8 None 0 ] in
  mkPageResult
    (acc_chunks acc)
    (mkIRPage pageNumber (canvas_width canvas) (canvas_height canvas)
       (acc_words acc) lines blocks
       (mkCoverage 0 (List.length (acc_words acc)) (List.length (acc_words acc)) 80)).

Definition catchPath (env : Env) (canvas : Canvas) (seed pageNumber : nat)
    (callIndex : nat) : list OcrParams * Outcome JsError PageResult :=
  ([catchParams],
   match recognize env callIndex catchParams with
   | Returns data => Returns (catchPage canvas seed pageNumber data)
   | Throws _ => Throws OcrError
   end).

(** [performGeminiExtraction]: the [try] block, and the [catch] block
    on whatever it throws.  The first component lists the recognitions
    of the page in the order they were made. *)
Definition performGeminiExtraction (env : Env) (canvas : Canvas)
    (seed pageNumber : nat) (pdfPage : option PdfPage)
    : list OcrParams * Outcome JsError PageResult :=
  match primaryPath env canvas seed pageNumber pdfPage with
  | (calls, Returns r) => (calls, Returns r)
  | (calls, Throws _) =>
      let '(calls', r) := catchPath env canvas seed pageNumber (List.length calls) in
      (calls ++ calls', r)
  end.

(** ** [performEnhancedOCR] *)

Definition basicParams : OcrParams := mkOcrParams None None.

Definition meanWordConfidence (l : Line) : Q :=
  fold_left (fun wSum w => wSum + confidence w) (words l) 0
  / ofNat (List.length (words l)).

(** The mean over the lines of the mean word confidence of a line. *)
Definition meanLineConfidence (blockLines : list Line) : Q :=
  fold_left (fun sum l => sum + meanWordConfidence l) blockLines 0
  / ofNat (List.length blockLines).

Fixpoint basicBlocksFrom (blockIndex : nat) (groupedBlocks : list (list Line))
    : list Block :=
  match groupedBlocks with
  | [] => []
  | blockLines :: rest =>
      match blockLines with
      | [] => basicBlocksFrom (S blockIndex) rest
      | _ :: _ =>
          mkBlock (block_ blockIndex) paragraph
                  (calculateBoundingBox (map line_bbox blockLines))
                  blockLines (meanLineConfidence blockLines) None blockIndex
          :: basicBlocksFrom (S blockIndex) rest
      end
  end.

(** The path without the vision model.  The [semanticRegions] of its
    page are a view derived from the blocks and are left out. *)
Definition basicPage (canvas : Canvas) (seed pageNumber : nat) (data : OcrData)
    : PageResult :=
  let acc := rawOcrWords canvas seed pageNumber data in
  let lines := buildLines (groupWordsIntoLines (acc_words acc)) in
  let blocks := basicBlocksFrom 0 (groupLinesIntoBlocks lines) in
  mkPageResult
    (acc_chunks acc)
    (mkIRPage pageNumber (canvas_width canvas) (canvas_height canvas)
       (acc_words acc) lines blocks
       (mkCoverage 0 (List.length (acc_words acc)) (List.length (acc_words acc)) 95)).

Definition performEnhancedOCR (enableAdvancedProcessing : bool) (env : Env)
    (canvas : Canvas) (seed pageNumber : nat)
    : list OcrParams * Outcome JsError PageResult :=
  if enableAdvancedProcessing
  then performGeminiExtraction env canvas seed pageNumber None
  else
    ([basicParams],
     match recognize env 0 basicParams with
     | Returns data => Returns (basicPage canvas seed pageNumber data)
     | Throws _ => Throws OcrError
     end).

(** ** The document: pages one at a time, progress and completion *)

Record LegacyPageData := mkPageData {
  pd_pageNumber : nat;
  imageUrl : string;
  textChunks : list LegacyTextChunk
}.

(** What the component tells its owner. *)
Inductive Event :=
| ProgressUpdate (progress : Q)
| ProcessingComplete (pages : list LegacyPageData) (irPages : list IRPage)
| Error (failedPage : nat).

(** The state of the component. *)
Record Processor := mkProcessor {
  numPages : nat;
  currentProcessingPage : nat;
  allPages : list LegacyPageData;
  irPages : list IRPage
}.

(** What a loaded page brings: whether the canvas gives a 2D context,
    whether rendering succeeds, the raster, and the collaborators. *)
Record PageLoad := mkPageLoad {
  hasContext : bool;
  renders : bool;
  canvas : Canvas;
  dataUrl : string;
  env : Env
}.

Definition onDocumentLoadSuccess (n : nat) : Processor * list Event :=
  (mkProcessor n 1 [] [], [ProgressUpdate 10]).

Definition byPageNumber {A : Type} (num : A -> nat) (a b : A) : Q :=
  ofNat (num a) - ofNat (num b).

Definition onPageLoadSuccess (enableAdvancedProcessing : bool)
    (p : Processor) (page : PageLoad) : Processor * list Event :=
  let pageNum := currentProcessingPage p in
  let progressBase := ((ofNat pageNum - 1) / ofNat (numPages p)) * 80 + 10 in
  let pageProgressStep := 80 / ofNat (numPages p) / 6 in
  let e1 := [ProgressUpdate (progressBase + pageProgressStep)] in
  if negb (hasContext page) then (p, e1 ++ [Error pageNum]) else
  let e2 := e1 ++ [ProgressUpdate (progressBase + pageProgressStep * 2)] in
  if negb (renders page) then (p, e2 ++ [Error pageNum]) else
  let e4 := e2 ++ [ProgressUpdate (progressBase + pageProgressStep * 3);
                   ProgressUpdate (progressBase + pageProgressStep * 4)] in
  let seed := List.length (flat_map textChunks (allPages p)) in
  match snd (performEnhancedOCR enableAdvancedProcessing (env page) (canvas page)
                                seed pageNum) with
  | Throws _ => (p, e4 ++ [Error pageNum])
  | Returns r =>
      let pageData := mkPageData pageNum (dataUrl page) (legacyChunks r) in
      let finalPages := sort (byPageNumber pd_pageNumber) (allPages p ++ [pageData]) in
      let finalIRPages := sort (byPageNumber pageNumber) (irPages p ++ [irPage r]) in
      let e6 := e4 ++ [ProgressUpdate (progressBase + pageProgressStep * 5);
                       ProgressUpdate (progressBase + pageProgressStep * 6)] in
      if Nat.eqb pageNum (numPages p)
      then (mkProcessor (numPages p) pageNum finalPages finalIRPages,
            e6 ++ [ProcessingComplete finalPages finalIRPages; ProgressUpdate 100])
      else (mkProcessor (numPages p) (pageNum + 1) finalPages finalIRPages, e6)
  end.

(** The component renders the page [currentProcessingPage] while it is
    between 1 and [numPages]; a new page is loaded each time the
    counter moves. *)
Fixpoint processPages (enableAdvancedProcessing : bool) (fuel : nat)
    (load : nat -> PageLoad) (p : Processor) : list Event :=
  match fuel with
  | O => []
  | S fuel' =>
      if (Nat.ltb 0 (currentProcessingPage p)
          && Nat.leb (currentProcessingPage p) (numPages p))%bool
      then
        let '(p', events) :=
          onPageLoadSuccess enableAdvancedProcessing p
                            (load (currentProcessingPage p)) in
        events ++
        (if Nat.eqb (currentProcessingPage p') (currentProcessingPage p)
         then []
         else processPages enableAdvancedProcessing fuel' load p')
      else []
  end.

Definition processDocument (enableAdvancedProcessing : bool) (n : nat)
    (load : nat -> PageLoad) : list Event :=
  let '(p, events) := onDocumentLoadSuccess n in
  events ++ processPages enableAdvancedProcessing n load p.

(** ** Vocabulary of the properties *)

(** [outer] covers [inner]: the four edges of [inner] lie within
    those of [outer]. *)
Definition covers (outer inner : BoundingBox) : Prop :=
  x outer <= x inner /\ y outer <= y inner /\
  x inner + width inner <= x outer + width outer /\
  y inner + height inner <= y outer + height outer.

Definition isMinimumOf (m : Q) (l : list Q) : Prop := In m l /\ Forall (Qle m) l.
Definition isMaximumOf (m : Q) (l : list Q) : Prop :=
  In m l /\ Forall (fun v => v <= m) l.

Definition nonEmpty {A : Type} (l : list A) : Prop := l <> [].

(** The vertical centre of a word. *)
Definition verticalCenter (w : Word) : Q := y (bbox w) + height (bbox w) / 2.

(** Two words are on rows that the scan keeps apart. *)
Definition rowsApart (a b : Word) : Prop :=
  0.02 <= Qabs (y (bbox a) - y (bbox b)).

(** Two words the comparator orders the same way from either side:
    their rows coincide or are at least 0.01 apart, and they do not
    start at the same point. *)
Definition wellSeparated (a b : Word) : Prop :=
  (y (bbox a) == y (bbox b) \/ 0.01 <= Qabs (y (bbox a) - y (bbox b))) /\
  ~ (y (bbox a) == y (bbox b) /\ x (bbox a) == x (bbox b)).

(** The order the comparator implements on well separated words: by
    row, then from left to right. *)
Definition readsBefore (a b : Word) : Prop :=
  y (bbox a) < y (bbox b) \/ (y (bbox a) == y (bbox b) /\ x (bbox a) < x (bbox b)).

(** Lines and blocks of a word array, as the primary path builds them. *)
Definition linesOf (ws : list Word) : list Line := buildLines (groupWordsIntoLines ws).
Definition blocksOf (ws : list Word) : list (list Line) :=
  groupLinesIntoBlocks (linesOf ws).

(** ** Sample inputs *)

Definition wordAt (t : string) (px py pw ph : Q) : Word :=
  mkWord t (mkBBox px py pw ph) 0.9 "Arial" 12.

(** A tall word and a small one whose tops are 0.015 apart. *)
Definition tallWord : Word := wordAt "Total" 0.1 0.10 0.2 0.10.
Definition smallWord : Word := wordAt "due" 0.4 0.115 0.1 0.01.

(** Three words in one column, the first two less than 0.01 apart. *)
Definition wordA : Word := wordAt "a" 0.1 0 0.05 0.01.
Definition wordB : Word := wordAt "b" 0.1 0.005 0.05 0.01.
Definition wordC : Word := wordAt "c" 0.1 0.022 0.05 0.01.

(** Two words on rows 0.1 apart. *)
Definition wordTop : Word := wordAt "top" 0.1 0.1 0.1 0.02.
Definition wordBottom : Word := wordAt "bottom" 0.1 0.2 0.1 0.02.

(** The test of the OCR-word loops: [ocrWord.text.trim() && ocrWord.bbox]. *)
Definition usableWord (w : OcrWord) : bool :=
  (truthy (trim (ow_text w))
   && match ow_bbox w with Some _ => true | None => false end)%bool.

Definition wordsOfData (d : OcrData) : list OcrWord :=
  match ocr_words d with Some ws => ws | None => [] end.

Definition linesOfData (d : OcrData) : list OcrLine :=
  match ocr_lines d with Some ls => ls | None => [] end.

(** A recognition that gives no word and no line to work with. *)
Definition ocrYieldsNothing (d : OcrData) : Prop :=
  Forall (fun w => usableWord w = false) (wordsOfData d) /\
  Forall (fun l => usableLine l = false) (linesOfData d).

(** [content.toLowerCase().trim()] *)
Definition normalizedContent (element : StructureElement) : string :=
  trim (toLowerCase (content element)).

(** The vision model gives no text: its plain text has no word, and its
    structural answer has an empty complete text or no element with
    content. *)
Definition visionYieldsNothing (g : GeminiResult) (s : StructureResult) : Prop :=
  splitWords (gemini_text g) = [] /\
  (orElseS (completeText s) (gemini_text g) = EmptyString \/
   Forall (fun e => normalizedContent e = EmptyString) (elements s)).

(** The blocks the gap repair appends for the elements [missing],
    numbered from [index], on a page that has [linesLength] lines and
    [blocksLength] blocks so far. *)
Fixpoint fallbackBlocksFrom (index linesLength blocksLength : nat)
    (missing : list StructureElement) : list Block :=
  match missing with
  | [] => []
  | element :: rest =>
      fallbackBlockOf element index linesLength blocksLength
      :: fallbackBlocksFrom (S index) (S linesLength) (S blocksLength) rest
  end.

(** A geometry in percentage units. *)
Definition inPercent (g : Geometry) : Prop :=
  0 <= gx g <= 100 /\ 0 <= gy g <= 100 /\ 0 <= gw g <= 100 /\ 0 <= gh g <= 100.

(** *** Sample pages *)

Definition raster : Canvas := mkCanvas 1000 1000.

Definition silentOcr : OcrData := mkOcrData "" (Some []) (Some []).

(** A page whose text layer holds the single item "Hi". *)
Definition itemHi : TextItem := mkTextItem "Hi" 12 0 0 12 10 20 20 12 "Helvetica".
Definition pageHi : PdfPage := mkPdfPage (Returns (Some [itemHi])).

(** The vision model answers, the OCR engine finds nothing. *)
Definition envSilentOcr : Env :=
  mkEnv (Returns (mkGeminiResult "Hi" 0.95))
        (fun _ => Returns (mkStructure [mkElement "paragraph" "Hi" 0.9] "Hi"))
        (fun _ _ => Returns silentOcr).

(** One OCR word at pixels (500,40)-(620,60), recognised at 50%. *)
Definition ocrWordTotal : OcrWord :=
  mkOcrWord "Total" (Some (mkOcrBBox 500 40 620 60)) 50.
Definition ocrOneWord : OcrData := mkOcrData "Total" (Some [ocrWordTotal]) (Some []).

(** The vision model is down (503), the OCR engine finds one word. *)
Definition envVisionDown : Env :=
  mkEnv (Throws (Some 503%nat))
        (fun _ => Throws (Some 503%nat))
        (fun _ _ => Returns ocrOneWord).

(** The vision model answers, the OCR engine finds the same word. *)
Definition envOneWord : Env :=
  mkEnv (Returns (mkGeminiResult "Total" 0.95))
        (fun _ => Returns (mkStructure [mkElement "paragraph" "Total" 0.9] "Total"))
        (fun _ _ => Returns ocrOneWord).

(** The vision model sees more text than the OCR engine, and its one
    structural element repeats the recognised word with a trailing
    space. *)
Definition elementTotal : StructureElement := mkElement "paragraph" "Total " 0.9.
Definition envTrailingSpace : Env :=
  mkEnv (Returns (mkGeminiResult "Total amount due" 0.95))
        (fun _ => Returns (mkStructure [elementTotal] "Total amount due"))
        (fun _ _ => Returns ocrOneWord).

(** Nothing anywhere: no text layer, no OCR word or line, no vision text. *)
Definition envNothing : Env :=
  mkEnv (Returns (mkGeminiResult "" 0.85))
        (fun _ => Returns (mkStructure [mkElement "paragraph" "" 0.7] ""))
        (fun _ _ => Returns silentOcr).

(** A page of ten recognised characters, and a vision answer of
    thirteen whose element "xy" was not recognised. *)
Definition stateTen : PageState :=
  mkPageState (mkAcc [wordAt "abcdefghij" 0.1 0.1 0.3 0.02] []) [] [].
Definition geminiThirteen : GeminiResult := mkGeminiResult "abcdefghij xy" 0.9.
Definition structureThirteen : StructureResult :=
  mkStructure [mkElement "footer" "xy" 0.9] "abcdefghij xy".

(** *** Vocabulary of the progress signal *)

Definition progressValues (events : list Event) : list Q :=
  flat_map (fun e => match e with ProgressUpdate v => [v] | _ => [] end) events.

(** [progressBase] and [pageProgressStep] of page [k] of [n]. *)
Definition progressBaseOf (n k : nat) : Q := ((ofNat k - 1) / ofNat n) * 80 + 10.
Definition pageProgressStepOf (n : nat) : Q := 80 / ofNat n / 6.

(** Every page of the document loads, renders and is extracted. *)
Definition successfulRun (enableAdvancedProcessing : bool) (n : nat)
    (load : nat -> PageLoad) : Prop :=
  forall k, (1 <= k <= n)%nat ->
    hasContext (load k) = true /\ renders (load k) = true /\
    forall seed, exists r,
      snd (performEnhancedOCR enableAdvancedProcessing (env (load k))
                              (canvas (load k)) seed k) = Returns r.

(** Whenever 100 is reported, the completion callback has fired before. *)
Definition completesBefore100 (events : list Event) : Prop :=
  forall pre v post,
    events = pre ++ ProgressUpdate v :: post -> v == 100 ->
    exists pages irs, In (ProcessingComplete pages irs) pre.

(** A one-page document whose page is [envOneWord] on [raster]. *)
Definition loadOneWord (k : nat) : PageLoad :=
  mkPageLoad true true raster "data:image/jpeg" envOneWord.

(** ** Vocabulary of the page invariants *)

(** The texts of the chunks of [acc] are [pre] followed by the texts of
    its words, in order. *)
Definition alignedWith (pre : list string) (acc : Acc) : Prop :=
  map chunk_text (acc_chunks acc) = pre ++ map text (acc_words acc).

Definition chunkTexts (r : PageResult) : list string :=
  map chunk_text (legacyChunks r).

Definition wordTexts (r : PageResult) : list string :=
  map text (page_words (irPage r)).

Definition chunksInPercent (acc : Acc) : Prop :=
  Forall (fun c => inPercent (geometry c)) (acc_chunks acc).

(** The box of every OCR word starts inside the raster. *)
Definition ocrBoxesStartInside (env : Env) : Prop :=
  forall n p d w b,
    recognize env n p = Returns d -> In w (wordsOfData d) ->
    ow_bbox w = Some b -> 0 <= x0 b /\ 0 <= y0 b.

(** Every word of the page is in one line, every line in one block. *)
Definition wellFormedPage (p : IRPage) : Prop :=
  Permutation (flat_map words (page_lines p)) (page_words p) /\
  flat_map lines (page_blocks p) = page_lines p.

(** The word [b] is close enough to [a] to stay on its line. *)
Definition closeRows (a b : Word) : Prop :=
  Qabs (y (bbox b) - y (bbox a)) < 0.02.

(** The line [b] starts no more than 0.03 below the bottom of [a]. *)
Definition smallGap (a b : Line) : Prop :=
  y (line_bbox b) - (y (line_bbox a) + height (line_bbox a)) <= 0.03.

(** The group [g2] follows the group [g1], and the first element of
    [g2] is not related to the last element of [g1]. *)
Definition breaksAfter {A : Type} (R : A -> A -> Prop) (g1 g2 : list A) : Prop :=
  exists l a b r, g1 = l ++ [a] /\ g2 = b :: r /\ ~ R a b.

Definition lineHoldsWords (l : Line) : Prop :=
  Forall (fun w => covers (line_bbox l) (bbox w)) (words l).

(** The box of a line holds the boxes of its words, and so does the
    box of the block. *)
Definition boxesNest (b : Block) : Prop :=
  Forall (fun l =>
            covers (block_bbox b) (line_bbox l) /\
            Forall (fun w => covers (line_bbox l) (bbox w) /\
                             covers (block_bbox b) (bbox w)) (words l))
         (lines b).

(** A box clamped into the page: it starts inside the unit square and
    has a positive extent. *)
Definition clampedBox (b : BoundingBox) : Prop :=
  0 <= x b <= 1 /\ 0 <= y b <= 1 /\ 0.001 <= width b /\ 0.001 <= height b.

(** How a block of the primary path got its confidence and role. *)
Definition labelled (s : StructureResult) (b : Block) : Prop :=
  match block_id b with
  | block_ _ => 0.7 <= block_confidence b
  | fallback_block_ _ =>
      exists e, In e (elements s) /\
                block_confidence b = element_confidence e /\
                semanticRole b = Some (element_type e) /\
                block_type b = mapElementTypeToBlockType (element_type e)
  end.

Definition infoOf (e : StructureElement) : SemanticInfo :=
  mkSemanticInfo (element_type e) (element_confidence e) (Some (element_type e)).

(** Two elements with the same content under different labels. *)
Definition elementAsTitle : StructureElement := mkElement "title" "Summary" 0.9.
Definition elementAsHeader : StructureElement := mkElement "header" " summary" 0.6.

(** A word inside the margins of the synthetic document flow. *)
Definition insideFlowMargins (w : Word) : Prop :=
  0.06 <= x (bbox w) /\ 0.08 <= y (bbox w) /\
  y (bbox w) + height (bbox w) <= 0.92.

(** A box that lies on the page. *)
Definition onPage (b : BoundingBox) : Prop := covers (mkBBox 0 0 1 1) b.

(** *** Vocabulary of the document run *)

Definition pageSucceeds (enableAdvancedProcessing : bool) (load : nat -> PageLoad)
    (k : nat) : Prop :=
  hasContext (load k) = true /\ renders (load k) = true /\
  forall seed, exists r,
    snd (performEnhancedOCR enableAdvancedProcessing (env (load k))
                            (canvas (load k)) seed k) = Returns r.

(** The page has no 2D context, or does not render, or its extraction
    throws. *)
Definition pageFails (enableAdvancedProcessing : bool) (load : nat -> PageLoad)
    (k : nat) : Prop :=
  hasContext (load k) = false \/ renders (load k) = false \/
  forall seed, exists e,
    snd (performEnhancedOCR enableAdvancedProcessing (env (load k))
                            (canvas (load k)) seed k) = Throws e.

(** A progress report below 100. *)
Definition progressBelow100 (e : Event) : Prop :=
  exists v, e = ProgressUpdate v /\ v < 100.

(** The engine fails on every recognition and the vision model is down. *)
Definition envAllDown : Env :=
  mkEnv (Throws None) (fun _ => Throws None) (fun _ _ => Throws tt).

(** A two-page document whose second page cannot be extracted. *)
Definition loadSecondFails (k : nat) : PageLoad :=
  if Nat.eqb k 2
  then mkPageLoad true true raster "data:image/jpeg" envAllDown
  else mkPageLoad true true raster "data:image/jpeg" envOneWord.

(** * The viewer

    [DocumentViewer] shows the page image with one box per legacy
    chunk.  Its state is the zoom factor; the current page is a property
    that the owner changes when [onPageChange] is called. *)

(** [Math.round]: the nearest integer, halves upwards. *)
Definition Math_round (v : Q) : Z := Qfloor (v + (1 # 2)).

(** [naturalWidth] and [naturalHeight] of the page image. *)
Record ImageDimensions := mkDims { img_width : nat; img_height : nat }.

(** The four lengths that [getBoundingBoxStyle] computes before it
    rounds them. *)
Record PixelBox := mkPixelBox { px : Q; py : Q; pwidth : Q; pheight : Q }.

Definition pixelBox (d : ImageDimensions) (g : Geometry) : PixelBox :=
  let W := ofNat (img_width d) in
  let H := ofNat (img_height d) in
  let x := Qmax 0 (Qmin ((gx g / 100) * W) W) in
  let y := Qmax 0 (Qmin ((gy g / 100) * H) H) in
  let width := Qmax 1 (Qmin ((gw g / 100) * W) (W - x)) in
  let height := Qmax 1 (Qmin ((gh g / 100) * H) (H - y)) in
  mkPixelBox x y width height.

(** The part of the style that depends on the chunk: the position in
    pixels and whether the chunk is the highlighted one. *)
Record BoxStyle := mkBoxStyle {
  left_px : Z;
  top_px : Z;
  width_px : Z;
  height_px : Z;
  isHighlighted : bool
}.

Definition chunkIdEqb (a b : ChunkId) : bool :=
  match a, b with nanoid m, nanoid n => Nat.eqb m n end.

(** [None] is the style [{ display: 'none' }]. *)
Definition getBoundingBoxStyle (imageLoaded : bool) (d : ImageDimensions)
    (highlightedChunk : option ChunkId) (chunk : LegacyTextChunk)
    : option BoxStyle :=
  if (negb imageLoaded || Nat.eqb (img_width d) 0 || Nat.eqb (img_height d) 0)%bool
  then None
  else
    let b := pixelBox d (geometry chunk) in
    Some (mkBoxStyle (Math_round (px b)) (Math_round (py b))
                     (Math_round (pwidth b)) (Math_round (pheight b))
                     match highlightedChunk with
                     | Some id => chunkIdEqb id (chunk_id chunk)
                     | None => false
                     end).

(** The zoom buttons, and the effect that resets the zoom when the page
    changes. *)
Inductive ZoomAction := ZoomIn | ZoomOut | ResetZoom | PageChanged.

Definition applyZoom (zoom : Q) (a : ZoomAction) : Q :=
  match a with
  | ZoomIn => Qmin (zoom + 0.25) 3
  | ZoomOut => Qmax (zoom - 0.25) 0.5
  | ResetZoom => 1
  | PageChanged => 1
  end.

(** What the viewer asks of its owner. *)
Inductive ViewerCall :=
| onPageChange (pageNumber : nat)
| onChunkClick (chunkId : ChunkId).

Definition handlePrevPage (currentPage : nat) : list ViewerCall :=
  if Nat.ltb 1 currentPage then [onPageChange (currentPage - 1)] else [].

Definition handleNextPage (currentPage totalPages : nat) : list ViewerCall :=
  if Nat.ltb currentPage totalPages then [onPageChange (currentPage + 1)] else [].

Definition containsChunk (chunkId : ChunkId) (page : LegacyPageData) : bool :=
  existsb (fun chunk => chunkIdEqb (chunk_id chunk) chunkId) (textChunks page).

(** [navigateToChunk], without the delayed scroll. *)
Definition navigateToChunk (pages : list LegacyPageData) (currentPage : nat)
    (chunkId : ChunkId) : list ViewerCall :=
  match find (containsChunk chunkId) pages with
  | Some targetPage =>
      if negb (Nat.eqb (pd_pageNumber targetPage) currentPage)
      then [onPageChange (pd_pageNumber targetPage); onChunkClick chunkId]
      else [onChunkClick chunkId]
  | None => [onChunkClick chunkId]
  end.

(** [pages.find(p => p.pageNumber === currentPage)] *)
Definition currentPageData (pages : list LegacyPageData) (currentPage : nat)
    : option LegacyPageData :=
  find (fun p => Nat.eqb (pd_pageNumber p) currentPage) pages.

(** The owner follows the calls: the page shown after them. *)
Definition pageAfter (currentPage : nat) (calls : list ViewerCall) : nat :=
  fold_left (fun page call =>
               match call with
               | onPageChange n => n
               | onChunkClick _ => page
               end)
            calls currentPage.

Inductive PageButton := PrevPage | NextPage.

Definition pressPageButton (totalPages currentPage : nat) (b : PageButton) : nat :=
  pageAfter currentPage
    match b with
    | PrevPage => handlePrevPage currentPage
    | NextPage => handleNextPage currentPage totalPages
    end.

(** * The vision service

    What [extractTextWithGemini] and [analyzeDocumentStructure] make of
    the answer of the model.  The call of the model and the extraction
    of a JSON object from its answer ([text.match] and [JSON.parse]) are
    collaborators: the call returns the text of the response or throws;
    the extraction finds no object, throws, or returns the parsed
    object, in which a field that is missing is empty. *)

Record ParsedText := mkParsedText {
  parsed_text : string;
  parsed_confidence : Q
}.

Record ParsedStructure := mkParsedStructure {
  parsed_layout : string;
  parsed_elements : option (list StructureElement);
  parsed_completeText : string
}.

Definition textFromResponse (response : Outcome unit string)
    (parse : string -> option (Outcome unit ParsedText))
    : Outcome unit GeminiResult :=
  match response with
  | Throws e => Throws e
  | Returns text =>
      match parse text with
      | Some (Returns parsed) =>
          Returns (mkGeminiResult (orElseS (parsed_text parsed) text)
                                  (orElseQ (parsed_confidence parsed) 0.95))
      | _ => Returns (mkGeminiResult text 0.85)
      end
  end.

Record StructureAnalysis := mkAnalysis {
  layout : string;
  structure : StructureResult
}.

Definition structureFromResponse (response : Outcome unit string)
    (parse : string -> option (Outcome unit ParsedStructure))
    (fallbackText : string) : StructureAnalysis :=
  match response with
  | Throws _ =>
      let completeText := orElseS fallbackText "" in
      mkAnalysis "single-column"
        (mkStructure [mkElement "paragraph" completeText 0.5] completeText)
  | Returns text =>
      match parse text with
      | Some (Returns parsed) =>
          let completeText := orElseS (parsed_completeText parsed) "" in
          let completeText :=
            if (negb (truthy completeText) && truthy fallbackText)%bool
            then fallbackText else completeText in
          let completeText :=
            if negb (truthy completeText) then
              match parsed_elements parsed with
              | Some els => trim (join newline (map (fun el => orElseS (content el) "") els))
              | None => completeText
              end
            else completeText in
          let completeText :=
            if negb (truthy completeText) then text else completeText in
          mkAnalysis (orElseS (parsed_layout parsed) "single-column")
            (mkStructure
               match parsed_elements parsed with
               | Some els => els
               | None => [mkElement "paragraph" completeText 0.7]
               end
               completeText)
      | _ =>
          let completeText := orElseS fallbackText text in
          mkAnalysis "single-column"
            (mkStructure [mkElement "paragraph" completeText 0.7] completeText)
      end
  end.

(** The collaborators of a page when the vision calls are those of the
    service.  The error that [extractTextWithGemini] throws is a new
    [Error], which has no status; [analyzeDocumentStructure] receives
    the extracted text as its fallback text and does not throw. *)
Definition serviceEnv (textResponse : Outcome unit string)
    (parseText : string -> option (Outcome unit ParsedText))
    (structureResponse : Outcome unit string)
    (parseStructure : string -> option (Outcome unit ParsedStructure))
    (recognize : nat -> OcrParams -> Outcome unit OcrData) : Env :=
  mkEnv
    match textFromResponse textResponse parseText with
    | Returns result => Returns result
    | Throws _ => Throws None
    end
    (fun fallbackText =>
       Returns (structure (structureFromResponse structureResponse parseStructure
                                                 fallbackText)))
    recognize.

(** * Semantic regions

    [generateSemanticRegions] derives the regions of a page from its
    blocks; [performEnhancedOCR] stores them with the page of the path
    without the vision model. *)

Inductive RegionType := header_region | footer_region | main_content.

Record SemanticRegion := mkRegion {
  region_id : string;
  region_type : RegionType;
  region_bbox : BoundingBox;
  region_confidence : Q;
  blockIds : list BlockId
}.

(** The comparator [(a, b) => a.bbox.y - b.bbox.y]. *)
Definition byTop (a b : Block) : Q := y (block_bbox a) - y (block_bbox b).

Definition inMainBand (b : Block) : bool :=
  (Qltb 0.2 (y (block_bbox b))
   && Qltb (y (block_bbox b) + height (block_bbox b)) 0.8)%bool.

(** The sorted copy is empty exactly when [blocks.length > 0] fails. *)
Definition generateSemanticRegions (blocks : list Block) : list SemanticRegion :=
  let regions := [] in
  match sort byTop blocks with
  | [] => regions
  | topBlock :: rest =>
      let sortedBlocks := topBlock :: rest in
      let regions :=
        if Qltb (y (block_bbox topBlock)) 0.2
        then regions ++ [mkRegion "semantic-header-0" header_region
                                  (block_bbox topBlock) 0.7 [block_id topBlock]]
        else regions in
      let bottomBlock := last sortedBlocks topBlock in
      let regions :=
        if Qltb 0.8 (y (block_bbox bottomBlock) + height (block_bbox bottomBlock))
        then regions ++ [mkRegion "semantic-footer-0" footer_region
                                  (block_bbox bottomBlock) 0.7 [block_id bottomBlock]]
        else regions in
      let mainBlocks := filter inMainBand sortedBlocks in
      match mainBlocks with
      | [] => regions
      | _ :: _ =>
          regions ++ [mkRegion "semantic-main-0" main_content
                               (calculateBoundingBox (map block_bbox mainBlocks))
                               0.8 (map block_id mainBlocks)]
      end
  end.

(** The regions stored with the page of the path without the vision
    model. *)
Definition semanticRegionsOf (r : PageResult) : list SemanticRegion :=
  generateSemanticRegions (page_blocks (irPage r)).

(** * The exported chunks

    [generateTextChunks] turns the pages of the intermediate
    representation into the chunks of the extraction result, one per
    block with text and one per word with text.  The conversion
    [transformLegacyToGrounding] is imported from another module and is a
    parameter here; a chunk is its result with three fields replaced. *)

Inductive ChunkType :=
| text_chunk | title_chunk | list_chunk | table_chunk | figure_chunk
| footer_chunk | header_chunk | form_field_chunk | caption_chunk.

(** The value of [mapping[blockType]]: an entry of the mapping, a
    property that every object inherits, or [undefined]. *)
Inductive Property :=
| entry (chunkType : ChunkType)
| inherited (name : string)
| undefined.

Definition mapping : list (string * ChunkType) :=
  [("paragraph"%string, text_chunk); ("heading"%string, title_chunk);
   ("list"%string, list_chunk); ("table"%string, table_chunk);
   ("image"%string, figure_chunk); ("line"%string, text_chunk);
   ("footer"%string, footer_chunk); ("header"%string, header_chunk);
   ("form_field"%string, form_field_chunk); ("signature"%string, figure_chunk);
   ("logo"%string, figure_chunk); ("caption"%string, caption_chunk)].

(** The properties of [Object.prototype]; each of them is an object or
    a function, hence truthy. *)
Definition objectPrototype : list string :=
  ["constructor"; "toString"; "toLocaleString"; "valueOf"; "hasOwnProperty";
   "isPrototypeOf"; "propertyIsEnumerable"; "__proto__"; "__defineGetter__";
   "__defineSetter__"; "__lookupGetter__"; "__lookupSetter__"]%string.

Fixpoint ownEntry (key : string) (entries : list (string * ChunkType))
    : option ChunkType :=
  match entries with
  | [] => None
  | (k, v) :: rest => if String.eqb k key then Some v else ownEntry key rest
  end.

Definition getProperty (key : string) : Property :=
  match ownEntry key mapping with
  | Some chunkType => entry chunkType
  | None =>
      if existsb (String.eqb key) objectPrototype then inherited key else undefined
  end.

(** [mapping[blockType] || 'text'] *)
Definition mapBlockTypeToChunkType (blockType : string) : Property :=
  match getProperty blockType with
  | undefined => entry text_chunk
  | property => property
  end.

(** The string of a block type. *)
Definition blockTypeName (t : BlockType) : string :=
  match t with
  | paragraph => "paragraph"
  | heading => "heading"
  | list_block => "list"
  | table => "table"
  | footer => "footer"
  | image => "image"
  end.

(** The id of an exported chunk: [block.id], or
    [`${block.id}-line-${lineIndex}-word-${wordIndex}`]. *)
Inductive ExportId :=
| ofBlock (blockId : BlockId)
| ofWord (blockId : BlockId) (lineIndex wordIndex : nat).

(** The legacy chunk that is handed to the conversion. *)
Record LegacyInput := mkLegacyInput {
  input_id : ExportId;
  input_text : string;
  input_pageNumber : nat;
  input_geometry : Geometry
}.

(** [{ ...transformed, chunk_type, confidence, semantic_role }] *)
Record TextChunk (G : Type) := mkTextChunk {
  transformed : G;
  chunk_type : Property;
  chunk_confidence : Q;
  semantic_role : option string
}.
Arguments mkTextChunk {G} _ _ _ _.
Arguments transformed {G} _.
Arguments chunk_type {G} _.
Arguments chunk_confidence {G} _.
Arguments semantic_role {G} _.

(** [`word_in_${block.semanticRole || block.type}`] *)
Definition wordRole (block : Block) : string :=
  String.append "word_in_"
    match semanticRole block with
    | Some role => orElseS role (blockTypeName (block_type block))
    | None => blockTypeName (block_type block)
    end.

Definition textOfBlock (block : Block) : string :=
  join newline (map (fun line => join " " (map text (words line))) (lines block)).

Section TextChunks.
Context {G : Type}.
Variable transformLegacyToGrounding : LegacyInput -> Q -> Q -> G.

Definition blockChunk (page : IRPage) (block : Block) : TextChunk G :=
  let legacyChunk :=
    mkLegacyInput (ofBlock (block_id block)) (trim (textOfBlock block))
      (pageNumber page)
      (mkGeometry (x (block_bbox block) * page_width page)
                  (y (block_bbox block) * page_height page)
                  (width (block_bbox block) * page_width page)
                  (height (block_bbox block) * page_height page)) in
  let transformedChunk :=
    transformLegacyToGrounding legacyChunk (page_width page) (page_height page) in
  mkTextChunk transformedChunk
              (mapBlockTypeToChunkType (blockTypeName (block_type block)))
              (orElseQ (block_confidence block) 0.8)
              (semanticRole block).

Definition wordChunk (page : IRPage) (block : Block) (lineIndex wordIndex : nat)
    (word : Word) : TextChunk G :=
  let wordLegacyChunk :=
    mkLegacyInput (ofWord (block_id block) lineIndex wordIndex) (trim (text word))
      (pageNumber page)
      (mkGeometry (x (bbox word) * 100) (y (bbox word) * 100)
                  (width (bbox word) * 100) (height (bbox word) * 100)) in
  let wordTransformedChunk :=
    transformLegacyToGrounding wordLegacyChunk (page_width page) (page_height page) in
  mkTextChunk wordTransformedChunk (entry text_chunk)
              (orElseQ (confidence word) 0.8)
              (Some (wordRole block)).

(** The body of [page.blocks.forEach]. *)
Definition exportBlock (page : IRPage) (chunks : list (TextChunk G))
    (block : Block) : list (TextChunk G) :=
  if truthy (trim (textOfBlock block)) then
    let chunks := chunks ++ [blockChunk page block] in
    forEach
      (fun chunks line lineIndex =>
         forEach
           (fun chunks word wordIndex =>
              if truthy (trim (text word))
              then chunks ++ [wordChunk page block lineIndex wordIndex word]
              else chunks)
           (words line) chunks)
      (lines block) chunks
  else chunks.

Definition generateTextChunks (irPages : list IRPage) : list (TextChunk G) :=
  fold_left
    (fun chunks page => fold_left (exportBlock page) (page_blocks page) chunks)
    irPages [].

End TextChunks.

(** *** Sample blocks *)

Definition blockAt (index : nat) (top tall : Q) : Block :=
  mkBlock (block_ index) paragraph (mkBBox 0.1 top 0.8 tall) [] 0.9 None index.

(** A block in the middle of the page, one at its top, one at its
    bottom. *)
Definition threeBlocks : list Block :=
  [blockAt 0 0.5 0.1; blockAt 1 0.05 0.05; blockAt 2 0.85 0.1].

(** *** Vocabulary of the export *)

(** A string of white space only. *)
Fixpoint blank (s : string) : bool :=
  match s with
  | EmptyString => true
  | String c r => (isSpace c && blank r)%bool
  end.

(** The word number [wordIndex] of the line number [lineIndex] of a
    block, when it has text. *)
Definition wordWithText (block : Block) (lineIndex wordIndex : nat) (word : Word)
    : Prop :=
  exists line,
    nth_error (lines block) lineIndex = Some line /\
    nth_error (words line) wordIndex = Some word /\
    blank (text word) = false.

Definition exportedTypes : list Property :=
  [entry text_chunk; entry title_chunk; entry list_chunk; entry table_chunk;
   entry footer_chunk; entry figure_chunk].

(** A page with one heading block of two words, the second blank. *)
Definition headingBlock : Block :=
  mkBlock (block_ 0) heading (mkBBox 0.1 0.1 0.3 0.02)
    [mkLine (line_ 0)
       [mkWord "Invoice" (mkBBox 0.1 0.1 0.2 0.02) 0.9 "Arial" 12;
        mkWord " " (mkBBox 0.35 0.1 0.05 0.02) 0.9 "Arial" 12]
       (mkBBox 0.1 0.1 0.3 0.02) 0 left_aligned]
    0.9 (Some "title"%string) 0.

Definition headingPage : IRPage :=
  mkIRPage 1 800 600 [] [] [headingBlock] (mkCoverage 0 0 0 95).
(** * Properties *)

(** A closed goal settled by running the embedded code. *)
Ltac by_evaluation := vm_compute; reflexivity.

(** ** Numbers *)

Lemma Qltb_lt (a b : Q) : Qltb a b = true <-> a < b.
Proof.
  unfold Qltb. rewrite negb_true_iff. split.
  - intros H. apply Qnot_le_lt. intros Hle.
    apply Qle_bool_iff in Hle. congruence.
  - intros H. destruct (Qle_bool b a) eqn:E; [|reflexivity].
    apply Qle_bool_iff in E. exfalso. apply (Qlt_not_le _ _ H E).
Qed.

Lemma Qltb_ge (a b : Q) : Qltb a b = false <-> b <= a.
Proof.
  unfold Qltb. rewrite negb_false_iff. apply Qle_bool_iff.
Qed.

(** ** Sorting *)

Section SortFacts.
Context {A : Type} (compareFn : A -> A -> Q).

Lemma insert_perm (a : A) (l : list A) : Permutation (insert compareFn a l) (a :: l).
Proof.
  induction l as [|b r IH]; simpl; [reflexivity|].
  destruct (Qle_bool (compareFn a b) 0); [reflexivity|].
  rewrite IH. apply perm_swap.
Qed.

Lemma sort_perm (l : list A) : Permutation (sort compareFn l) l.
Proof.
  induction l as [|a r IH]; simpl; [reflexivity|].
  rewrite insert_perm. now apply perm_skip.
Qed.

Lemma sort_nil_inv (l : list A) : sort compareFn l = [] -> l = [].
Proof.
  intros H. pose proof (sort_perm l) as P. rewrite H in P.
  now apply Permutation_nil in P.
Qed.
End SortFacts.

(** ** Bounding boxes *)

Lemma Qmin_cases (a b : Q) : (Qmin a b = a /\ a <= b) \/ (Qmin a b = b /\ b <= a).
Proof.
  unfold Qmin, GenericMinMax.gmin.
  destruct (a ?= b) eqn:E.
  - left. split; [reflexivity|]. apply Qeq_alt in E. rewrite E. apply Qle_refl.
  - left. split; [reflexivity|]. apply Qlt_alt in E. now apply Qlt_le_weak.
  - right. split; [reflexivity|]. apply Qgt_alt in E. now apply Qlt_le_weak.
Qed.

Lemma Qmax_cases (a b : Q) : (Qmax a b = a /\ b <= a) \/ (Qmax a b = b /\ a <= b).
Proof.
  unfold Qmax, GenericMinMax.gmax.
  destruct (a ?= b) eqn:E.
  - left. split; [reflexivity|]. apply Qeq_alt in E. rewrite E. apply Qle_refl.
  - right. split; [reflexivity|]. apply Qlt_alt in E. now apply Qlt_le_weak.
  - left. split; [reflexivity|]. apply Qgt_alt in E. now apply Qlt_le_weak.
Qed.

Lemma Math_min_minimum (h : Q) (t : list Q) : isMinimumOf (Math_min h t) (h :: t).
Proof.
  unfold Math_min. revert h.
  induction t as [|a t IH]; intros h; simpl.
  - split; [now left|]. constructor; [apply Qle_refl|constructor].
  - destruct (IH (Qmin h a)) as [Hin Hall].
    inversion Hall as [|? ? Hm Ht]; subst.
    destruct (Qmin_cases h a) as [[E Hle]|[E Hle]].
    + rewrite E in *. split.
      * destruct Hin as [<-|Hin]; [now left|right; now right].
      * constructor; [exact Hm|]. constructor; [|exact Ht].
        eapply Qle_trans; eassumption.
    + rewrite E in *. split.
      * destruct Hin as [<-|Hin]; [right; now left|right; now right].
      * constructor; [eapply Qle_trans; eassumption|].
        constructor; [exact Hm|exact Ht].
Qed.

Lemma Math_max_maximum (h : Q) (t : list Q) : isMaximumOf (Math_max h t) (h :: t).
Proof.
  unfold Math_max. revert h.
  induction t as [|a t IH]; intros h; simpl.
  - split; [now left|]. constructor; [apply Qle_refl|constructor].
  - destruct (IH (Qmax h a)) as [Hin Hall].
    inversion Hall as [|? ? Hm Ht]; subst.
    destruct (Qmax_cases h a) as [[E Hle]|[E Hle]].
    + rewrite E in *. split.
      * destruct Hin as [<-|Hin]; [now left|right; now right].
      * constructor; [exact Hm|]. constructor; [|exact Ht].
        eapply Qle_trans; eassumption.
    + rewrite E in *. split.
      * destruct Hin as [<-|Hin]; [right; now left|right; now right].
      * constructor; [eapply Qle_trans; eassumption|].
        constructor; [exact Hm|exact Ht].
Qed.

(** C7. [calculateBoundingBox] of the empty list is the zero box; of a
    non-empty list it is the box with [x = min(x)], [y = min(y)],
    [width = max(x+width) - min(x)] and [height = max(y+height) - min(y)],
    which covers every input and is covered by every box that covers
    all inputs. *)
Theorem calculateBoundingBox_minimal_cover :
  calculateBoundingBox [] = mkBBox 0 0 0 0 /\
  forall (b : BoundingBox) (bs : list BoundingBox),
    let boxes := b :: bs in
    let r := calculateBoundingBox boxes in
    exists minX minY maxX maxY,
      isMinimumOf minX (map x boxes) /\
      isMinimumOf minY (map y boxes) /\
      isMaximumOf maxX (map (fun b => x b + width b) boxes) /\
      isMaximumOf maxY (map (fun b => y b + height b) boxes) /\
      r = mkBBox minX minY (maxX - minX) (maxY - minY) /\
      Forall (covers r) boxes /\
      (forall c, Forall (covers c) boxes -> covers c r).
Proof.
  split; [reflexivity|].
  intros b bs boxes r.
  pose proof (Math_min_minimum (x b) (map x bs)) as [HxI HxA].
  pose proof (Math_min_minimum (y b) (map y bs)) as [HyI HyA].
  pose proof (Math_max_maximum (x b + width b) (map (fun b => x b + width b) bs))
    as [HXI HXA].
  pose proof (Math_max_maximum (y b + height b) (map (fun b => y b + height b) bs))
    as [HYI HYA].
  exists (Math_min (x b) (map x bs)), (Math_min (y b) (map y bs)),
         (Math_max (x b + width b) (map (fun b => x b + width b) bs)),
         (Math_max (y b + height b) (map (fun b => y b + height b) bs)).
  change (x b :: map x bs) with (map x boxes) in *.
  change (y b :: map y bs) with (map y boxes) in *.
  change (x b + width b :: map (fun b => x b + width b) bs)
    with (map (fun b => x b + width b) boxes) in *.
  change (y b + height b :: map (fun b => y b + height b) bs)
    with (map (fun b => y b + height b) boxes) in *.
  split; [split; assumption|].
  split; [split; assumption|].
  split; [split; assumption|].
  split; [split; assumption|].
  split; [reflexivity|].
  split.
  - rewrite Forall_forall in *. intros c Hc. unfold covers, r. simpl.
    repeat split.
    + apply HxA. now apply in_map.
    + apply HyA. now apply in_map.
    + pose proof (HXA _ (in_map (fun b => x b + width b) _ _ Hc)) as H.
      simpl in H. eapply Qle_trans; [exact H|]. ring_simplify. apply Qle_refl.
    + pose proof (HYA _ (in_map (fun b => y b + height b) _ _ Hc)) as H.
      simpl in H. eapply Qle_trans; [exact H|]. ring_simplify. apply Qle_refl.
  - intros c Hc. rewrite Forall_forall in Hc.
    apply in_map_iff in HxI as [bx [Ex Hbx]].
    apply in_map_iff in HyI as [by_ [Ey Hby]].
    apply in_map_iff in HXI as [bX [EX HbX]].
    apply in_map_iff in HYI as [bY [EY HbY]].
    unfold covers, r. simpl.
    repeat split.
    + rewrite <- Ex. apply (Hc _ Hbx).
    + rewrite <- Ey. apply (Hc _ Hby).
    + destruct (Hc _ HbX) as (_ & _ & H & _).
      rewrite <- EX at 1. ring_simplify.
      ring_simplify in H. exact H.
    + destruct (Hc _ HbY) as (_ & _ & _ & H).
      rewrite <- EY at 1. ring_simplify.
      ring_simplify in H. exact H.
Qed.

(** ** The two scans partition their input *)

Lemma nonEmpty_snoc {A : Type} (l : list A) (a : A) : nonEmpty (l ++ [a]).
Proof. intros H. now apply app_eq_nil in H as [_ H]. Qed.

Lemma Forall_nonEmpty_snoc {A : Type} (ls : list (list A)) (l : list A) :
  Forall nonEmpty ls -> nonEmpty l -> Forall nonEmpty (ls ++ [l]).
Proof.
  intros H1 H2. apply Forall_app. split; [exact H1|]. now constructor.
Qed.

Lemma concat_snoc {A : Type} (ls : list (list A)) (l : list A) :
  List.concat (ls ++ [l]) = List.concat ls ++ l.
Proof. rewrite concat_app. simpl. now rewrite app_nil_r. Qed.

Lemma scanWords_partition (rest : list Word) :
  forall lines currentLine,
    Forall nonEmpty lines -> nonEmpty currentLine ->
    let '(lines', currentLine') := scanWords lines currentLine rest in
    Forall nonEmpty lines' /\ nonEmpty currentLine' /\
    List.concat lines' ++ currentLine' = List.concat lines ++ currentLine ++ rest.
Proof.
  induction rest as [|w rest IH]; intros lines currentLine Hl Hc; simpl.
  - now rewrite app_nil_r.
  - destruct (sameLine w (last currentLine w)).
    + specialize (IH lines (currentLine ++ [w]) Hl (nonEmpty_snoc _ _)).
      destruct (scanWords lines (currentLine ++ [w]) rest) as [ls cur].
      destruct IH as (H1 & H2 & H3). repeat split; try assumption.
      rewrite H3. now rewrite <- app_assoc.
    + assert (Hw : nonEmpty [w]) by discriminate.
      specialize (IH (lines ++ [currentLine]) [w]
                     (Forall_nonEmpty_snoc _ _ Hl Hc) Hw).
      destruct (scanWords (lines ++ [currentLine]) [w] rest) as [ls cur].
      destruct IH as (H1 & H2 & H3). repeat split; try assumption.
      rewrite H3, concat_snoc. now rewrite <- app_assoc.
Qed.

Lemma scanLines_partition (rest : list Line) :
  forall blocks currentBlock,
    Forall nonEmpty blocks -> nonEmpty currentBlock ->
    let '(blocks', currentBlock') := scanLines blocks currentBlock rest in
    Forall nonEmpty blocks' /\ nonEmpty currentBlock' /\
    List.concat blocks' ++ currentBlock' = List.concat blocks ++ currentBlock ++ rest.
Proof.
  induction rest as [|l rest IH]; intros blocks currentBlock Hb Hc; simpl.
  - now rewrite app_nil_r.
  - destruct (startsNewBlock l (last currentBlock l)).
    + assert (Hl : nonEmpty [l]) by discriminate.
      specialize (IH (blocks ++ [currentBlock]) [l]
                     (Forall_nonEmpty_snoc _ _ Hb Hc) Hl).
      destruct (scanLines (blocks ++ [currentBlock]) [l] rest) as [bs cur].
      destruct IH as (H1 & H2 & H3). repeat split; try assumption.
      rewrite H3, concat_snoc. now rewrite <- app_assoc.
    + specialize (IH blocks (currentBlock ++ [l]) Hb (nonEmpty_snoc _ _)).
      destruct (scanLines blocks (currentBlock ++ [l]) rest) as [bs cur].
      destruct IH as (H1 & H2 & H3). repeat split; try assumption.
      rewrite H3. now rewrite <- app_assoc.
Qed.

(** The early return on an empty array agrees with the general case. *)
Lemma groupWordsIntoLines_scan (ws : list Word) :
  groupWordsIntoLines ws
  = match sort compareWords ws with
    | [] => []
    | first :: rest =>
        let '(lines, currentLine) := scanWords [] [first] rest in
        match currentLine with
        | [] => lines
        | _ :: _ => lines ++ [currentLine]
        end
    end.
Proof. destruct ws; reflexivity. Qed.

Lemma groupWordsIntoLines_sorted (ws : list Word) :
  Forall nonEmpty (groupWordsIntoLines ws) /\
  List.concat (groupWordsIntoLines ws) = sort compareWords ws.
Proof.
  rewrite groupWordsIntoLines_scan.
  destruct (sort compareWords ws) as [|first rest]; [now split|].
  assert (Hf : nonEmpty [first]) by discriminate.
  pose proof (scanWords_partition rest [] [first] (Forall_nil _) Hf) as H.
  destruct (scanWords [] [first] rest) as [ls cur].
  destruct H as (H1 & H2 & H3).
  destruct cur as [|c cur]; [now elim H2|].
  split.
  - now apply Forall_nonEmpty_snoc.
  - rewrite concat_snoc. exact H3.
Qed.

Lemma groupLinesIntoBlocks_concat (ls : list Line) :
  Forall nonEmpty (groupLinesIntoBlocks ls) /\
  List.concat (groupLinesIntoBlocks ls) = ls.
Proof.
  unfold groupLinesIntoBlocks.
  destruct ls as [|first rest]; [now split|].
  assert (Hf : nonEmpty [first]) by discriminate.
  pose proof (scanLines_partition rest [] [first] (Forall_nil _) Hf) as H.
  destruct (scanLines [] [first] rest) as [bs cur].
  destruct H as (H1 & H2 & H3).
  destruct cur as [|c cur]; [now elim H2|].
  split.
  - now apply Forall_nonEmpty_snoc.
  - rewrite concat_snoc. exact H3.
Qed.

(** C10. [groupWordsIntoLines] returns non-empty groups whose
    concatenation holds exactly the input words, each once;
    [groupLinesIntoBlocks] returns non-empty blocks whose concatenation
    is the input list of lines, in its order. *)
Theorem grouping_partitions_input :
  (forall ws : list Word,
     Forall (fun g => g <> []) (groupWordsIntoLines ws) /\
     Permutation (List.concat (groupWordsIntoLines ws)) ws) /\
  (forall ls : list Line,
     Forall (fun b => b <> []) (groupLinesIntoBlocks ls) /\
     List.concat (groupLinesIntoBlocks ls) = ls).
Proof.
  split.
  - intros ws. destruct (groupWordsIntoLines_sorted ws) as [H1 H2].
    split; [exact H1|]. rewrite H2. apply sort_perm.
  - intros ls. exact (groupLinesIntoBlocks_concat ls).
Qed.

(** ** The line scan *)

Lemma sameLine_true (w lastWord : Word) :
  sameLine w lastWord = true <-> Qabs (y (bbox w) - y (bbox lastWord)) < 0.02.
Proof. apply Qltb_lt. Qed.

Lemma sameLine_false (w lastWord : Word) :
  sameLine w lastWord = false <-> ~ Qabs (y (bbox w) - y (bbox lastWord)) < 0.02.
Proof.
  unfold sameLine. rewrite Qltb_ge. split.
  - intros H. now apply Qle_not_lt.
  - intros H. now apply Qnot_lt_le.
Qed.

Lemma last_snoc {A : Type} (l : list A) (a d : A) : last (l ++ [a]) d = a.
Proof. apply last_last. Qed.

Lemma ForallOrdPairs_perm {A : Type} (R : A -> A -> Prop) :
  (forall a b, R a b -> R b a) ->
  forall l l', Permutation l l' -> ForallOrdPairs R l -> ForallOrdPairs R l'.
Proof.
  intros Hsym l l' P.
  induction P as [|a l l' P IH|a b l|l l' l'' P1 IH1 P2 IH2]; intros H.
  - exact H.
  - inversion H as [|? ? Ha Hl]; subst.
    constructor; [now rewrite <- P|now apply IH].
  - inversion H as [|? ? Hb Hl]; subst.
    inversion Hl as [|? ? Ha Hl']; subst.
    inversion Hb as [|? ? Hba Hb']; subst.
    constructor; [constructor; [now apply Hsym|exact Ha]|].
    constructor; assumption.
  - auto.
Qed.

Lemma rowsApart_sym (a b : Word) : rowsApart a b -> rowsApart b a.
Proof.
  unfold rowsApart. intros H.
  now rewrite Qabs_Qminus.
Qed.

Lemma scanWords_rowsApart (rest : list Word) :
  forall lines first,
    ForallOrdPairs rowsApart (first :: rest) ->
    let '(lines', currentLine) := scanWords lines [first] rest in
    lines' ++ [currentLine] = lines ++ map (fun w => [w]) (first :: rest).
Proof.
  induction rest as [|w rest IH]; intros lines first H; simpl.
  - reflexivity.
  - inversion H as [|? ? Hf Hr]; subst.
    inversion Hf as [|? ? Hfw _]; subst.
    assert (E : sameLine w first = false).
    { apply sameLine_false. apply Qle_not_lt. now apply rowsApart_sym. }
    rewrite E.
    specialize (IH (lines ++ [[first]]) w Hr).
    destruct (scanWords (lines ++ [[first]]) [w] rest) as [ls cur].
    rewrite IH. now rewrite <- app_assoc.
Qed.




(** ** Order independence of the grouping *)

Lemma wellSeparated_sym (a b : Word) : wellSeparated a b -> wellSeparated b a.
Proof.
  unfold wellSeparated. intros [[E|H] N]; split.
  - left. now symmetry.
  - intros [E1 E2]. apply N. split; now symmetry.
  - right. now rewrite Qabs_Qminus.
  - intros [E1 E2]. apply N. split; now symmetry.
Qed.

Lemma Qabs_small (d e : Q) : Qabs d < e -> - e < d /\ d < e.
Proof. intros H. now apply Qabs_Qlt_condition. Qed.

Lemma Qabs_large (d e : Q) : e <= Qabs d -> d <= - e \/ e <= d.
Proof.
  apply Qabs_case; intros H1 H2.
  - now right.
  - left. lra.
Qed.

Lemma compareWords_le (a b : Word) :
  wellSeparated a b -> Qle_bool (compareWords a b) 0 = true -> readsBefore a b.
Proof.
  unfold wellSeparated, readsBefore, compareWords.
  intros [Hrow Hne] Hle. apply Qle_bool_iff in Hle.
  destruct (Qltb (Qabs (y (bbox a) - y (bbox b))) 0.01) eqn:E.
  - apply Qltb_lt, Qabs_small in E.
    assert (Ey : y (bbox a) == y (bbox b)).
    { destruct Hrow as [Ey|Hbig]; [exact Ey|].
      apply Qabs_large in Hbig. lra. }
    right. split; [exact Ey|].
    destruct (Qlt_le_dec (x (bbox a)) (x (bbox b))) as [Hlt|Hge]; [exact Hlt|].
    exfalso. apply Hne. split; [exact Ey|]. lra.
  - apply Qltb_ge, Qabs_large in E. left. lra.
Qed.

Lemma compareWords_gt (a b : Word) :
  wellSeparated a b -> Qle_bool (compareWords a b) 0 = false -> readsBefore b a.
Proof.
  unfold wellSeparated, readsBefore, compareWords.
  intros [Hrow Hne] Hgt.
  assert (Hpos : 0 < (if Qltb (Qabs (y (bbox a) - y (bbox b))) 0.01
                      then x (bbox a) - x (bbox b)
                      else y (bbox a) - y (bbox b))).
  { apply Qnot_le_lt. intros H. apply Qle_bool_iff in H. congruence. }
  clear Hgt.
  destruct (Qltb (Qabs (y (bbox a) - y (bbox b))) 0.01) eqn:E.
  - apply Qltb_lt, Qabs_small in E.
    assert (Ey : y (bbox a) == y (bbox b)).
    { destruct Hrow as [Ey|Hbig]; [exact Ey|].
      apply Qabs_large in Hbig. lra. }
    right. split; [now symmetry|]. lra.
  - left. lra.
Qed.

Lemma readsBefore_trans (a b c : Word) :
  readsBefore a b -> readsBefore b c -> readsBefore a c.
Proof.
  unfold readsBefore. intros [H1|[E1 H1]] [H2|[E2 H2]].
  - left. lra.
  - left. lra.
  - left. lra.
  - right. split; lra.
Qed.

Lemma readsBefore_asym (a b : Word) : readsBefore a b -> readsBefore b a -> False.
Proof.
  unfold readsBefore. intros [H1|[E1 H1]] [H2|[E2 H2]]; lra.
Qed.

Lemma insert_readsBefore (a : Word) (l : list Word) :
  StronglySorted readsBefore l -> Forall (wellSeparated a) l ->
  StronglySorted readsBefore (insert compareWords a l).
Proof.
  induction l as [|b r IH]; intros Hs Hw; simpl.
  - constructor; constructor.
  - inversion Hs as [|? ? Hr Hb]; subst.
    inversion Hw as [|? ? Hab Har]; subst.
    destruct (Qle_bool (compareWords a b) 0) eqn:E.
    + pose proof (compareWords_le a b Hab E) as Hlt.
      constructor; [exact Hs|].
      constructor; [exact Hlt|].
      eapply Forall_impl; [|exact Hb].
      intros c Hc. now apply (readsBefore_trans a b c).
    + pose proof (compareWords_gt a b Hab E) as Hlt.
      constructor; [now apply IH|].
      rewrite (insert_perm compareWords a r).
      now constructor.
Qed.

Lemma sort_readsBefore (l : list Word) :
  ForallOrdPairs wellSeparated l ->
  StronglySorted readsBefore (sort compareWords l).
Proof.
  induction l as [|a r IH]; intros H; simpl.
  - constructor.
  - inversion H as [|? ? Ha Hr]; subst.
    apply insert_readsBefore; [now apply IH|].
    now rewrite (sort_perm compareWords r).
Qed.

Lemma sorted_perm_unique (l1 : list Word) :
  forall l2, StronglySorted readsBefore l1 -> StronglySorted readsBefore l2 ->
             Permutation l1 l2 -> l1 = l2.
Proof.
  induction l1 as [|a t1 IH]; intros l2 S1 S2 P.
  - apply Permutation_nil in P. now subst.
  - destruct l2 as [|b t2].
    { symmetry in P. now apply Permutation_nil in P. }
    inversion S1 as [|? ? S1' F1]; subst.
    inversion S2 as [|? ? S2' F2]; subst.
    assert (E : a = b).
    { assert (Ha : In a (b :: t2)) by (rewrite <- P; now left).
      assert (Hb : In b (a :: t1)) by (rewrite P; now left).
      destruct Ha as [Ha|Ha]; [now symmetry|].
      destruct Hb as [Hb|Hb]; [exact Hb|].
      rewrite Forall_forall in F1, F2.
      exfalso. exact (readsBefore_asym a b (F1 _ Hb) (F2 _ Ha)). }
    subst b. f_equal.
    apply IH; try assumption.
    now apply Permutation_cons_inv in P.
Qed.

Lemma sort_order_independent (ws ws' : list Word) :
  ForallOrdPairs wellSeparated ws -> Permutation ws ws' ->
  sort compareWords ws = sort compareWords ws'.
Proof.
  intros H P.
  apply sorted_perm_unique.
  - now apply sort_readsBefore.
  - apply sort_readsBefore.
    exact (ForallOrdPairs_perm wellSeparated wellSeparated_sym ws ws' P H).
  - rewrite !sort_perm. exact P.
Qed.




(** ** The text layer stage *)

Lemma truthy_trim (s : string) : truthy (trim s) = true -> truthy s = true.
Proof. destruct s; [discriminate|reflexivity]. Qed.

Lemma nativeItem_blank (canvas : Canvas) (seed pn : nat) (acc : Acc) (item : TextItem) :
  truthy (trim (str item)) = false ->
  nativeItem canvas seed pn acc item = Returns acc.
Proof.
  intros H. unfold nativeItem. rewrite H.
  now rewrite andb_false_r.
Qed.

Lemma nativeItem_throws (canvas : Canvas) (seed pn : nat) (acc : Acc) (item : TextItem) :
  truthy (trim (str item)) = true ->
  nativeItem canvas seed pn acc item = Throws (ReferenceError "w").
Proof.
  intros H. unfold nativeItem. rewrite H, (truthy_trim _ H). reflexivity.
Qed.

(** As soon as the text layer has an item with text, the loop over its
    items throws: the legacy chunk of the item reads [w], which nothing
    declares. *)
Lemma nativeItems_throw (canvas : Canvas) (seed pn : nat) (items : list TextItem) :
  forall acc,
    Exists (fun item => truthy (trim (str item)) = true) items ->
    forEachThrowing (nativeItem canvas seed pn) items acc
    = Throws (ReferenceError "w").
Proof.
  induction items as [|item rest IH]; intros acc H.
  - inversion H.
  - simpl. destruct (truthy (trim (str item))) eqn:E.
    + now rewrite nativeItem_throws.
    + rewrite nativeItem_blank by exact E. simpl.
      apply IH. inversion H as [? ? H1|? ? H1]; subst; [congruence|exact H1].
Qed.

Lemma nativeItems_blank (canvas : Canvas) (seed pn : nat) (items : list TextItem) :
  forall acc,
    Forall (fun item => truthy (trim (str item)) = false) items ->
    forEachThrowing (nativeItem canvas seed pn) items acc = Returns acc.
Proof.
  induction items as [|item rest IH]; intros acc H; simpl; [reflexivity|].
  inversion H as [|? ? H1 H2]; subst.
  rewrite nativeItem_blank by exact H1. simpl. now apply IH.
Qed.

(** Whenever the vision model answers and the text layer has an item
    with text, the [try] block throws and the page is what the [catch]
    block makes of it. *)
Lemma native_text_reaches_catch (env : Env) (canvas : Canvas) (seed pn : nat)
    (pdfPage : option PdfPage) (g : GeminiResult) (s : StructureResult) :
  visionCalls env = Returns (g, s) ->
  Exists (fun item => truthy (trim (str item)) = true) (readTextLayer pdfPage) ->
  snd (primaryPath env canvas seed pn pdfPage) = Throws (ReferenceError "w").
Proof.
  intros Hv Hex. unfold primaryPath. rewrite Hv.
  destruct (tryOcrConfigs env 0 ocrConfigs) as [ocrData calls]. simpl.
  unfold createWords.
  destruct (readTextLayer pdfPage) as [|item rest] eqn:E; [inversion Hex|].
  now rewrite nativeItems_throw.
Qed.

(** C1 (the code departs from the claim). On a page whose text layer
    holds the item "Hi", with a vision model that answers and an OCR
    engine that finds no word, the [try] block throws on the undeclared
    [w], the [catch] block runs a fourth recognition, and the page comes
    out with no word at all: the text layer's word, with its 0.98, is
    lost. *)
Theorem native_layer_page_loses_its_words :
  snd (primaryPath envSilentOcr raster 0 1 (Some pageHi))
  = Throws (ReferenceError "w") /\
  exists r,
    performGeminiExtraction envSilentOcr raster 0 1 (Some pageHi)
    = (ocrConfigs ++ [catchParams], Returns r) /\
    page_words (irPage r) = [] /\
    legacyChunks r = [].
Proof.
  split; [by_evaluation|].
  eexists. split; [by_evaluation|].
  split; reflexivity.
Qed.

(** ** The [catch] block *)

Lemma performGeminiExtraction_vision_throws (env : Env) (canvas : Canvas)
    (seed pn : nat) (pdfPage : option PdfPage) (status : option nat) :
  visionCalls env = Throws status ->
  performGeminiExtraction env canvas seed pn pdfPage
  = catchPath env canvas seed pn 0.
Proof.
  intros H. unfold performGeminiExtraction, primaryPath. rewrite H.
  reflexivity.
Qed.

(** C2 (as amended). When a vision-model call throws, the exception
    does not leave [performGeminiExtraction]; the page is recognised
    once, under the single-block segmentation mode; and when that
    recognition returns, the page has one paragraph block over all its
    lines, whose confidence is the constant 0.8. *)
Theorem vision_failure_runs_single_ocr_fallback :
  forall (env : Env) (canvas : Canvas) (seed pn : nat)
         (pdfPage : option PdfPage) (status : option nat),
    visionCalls env = Throws status ->
    let result := performGeminiExtraction env canvas seed pn pdfPage in
    fst result = [mkOcrParams (Some SINGLE_BLOCK) None] /\
    (forall st, snd result <> Throws (GeminiError st)) /\
    (forall data, recognize env 0 catchParams = Returns data ->
       exists r,
         snd result = Returns r /\
         page_blocks (irPage r)
         = [mkBlock (block_ 0) paragraph
                    (calculateBoundingBox (map bbox (page_words (irPage r))))
                    (page_lines (irPage r)) 0.8 None 0]).
Proof.
  intros env canvas seed pn pdfPage status H result.
  unfold result. rewrite (performGeminiExtraction_vision_throws _ _ _ _ _ _ H).
  unfold catchPath. simpl.
  split; [reflexivity|]. split.
  - intros st. destruct (recognize env 0 catchParams); discriminate.
  - intros data Hd. rewrite Hd. eexists. split; reflexivity.
Qed.

(** Witness of C2: the vision model is down, the engine finds one word. *)
Lemma vision_failure_runs_single_ocr_fallback_witness :
  visionCalls envVisionDown = Throws (Some 503%nat) /\
  fst (performGeminiExtraction envVisionDown raster 0 1 None)
  = [mkOcrParams (Some SINGLE_BLOCK) None].
Proof.
  assert (H : visionCalls envVisionDown = Throws (Some 503%nat)) by reflexivity.
  split; [exact H|].
  exact (proj1 (vision_failure_runs_single_ocr_fallback
                  envVisionDown raster 0 1 None (Some 503%nat) H)).
Defined.

(** Counterexample to C2 as stated: the one word of the page was
    recognised at 50%, so the mean over the lines of the mean word
    confidence is 0.5; the block of the [catch] path carries 0.8. *)
Lemma catch_block_confidence_is_not_the_mean :
  exists r b,
    performGeminiExtraction envVisionDown raster 0 1 None
    = ([catchParams], Returns r) /\
    page_blocks (irPage r) = [b] /\
    meanLineConfidence (lines b) == 0.5 /\
    block_confidence b == 0.8 /\
    ~ block_confidence b == meanLineConfidence (lines b).
Proof.
  eexists. eexists.
  split; [by_evaluation|].
  split; [reflexivity|].
  split; [by_evaluation|].
  split; [by_evaluation|].
  vm_compute. discriminate.
Qed.

(** On the path without the vision model a block does carry the mean
    over its lines of the mean word confidence. *)
Lemma basic_block_confidence_is_the_mean (groupedBlocks : list (list Line)) :
  forall blockIndex,
    Forall (fun b => block_confidence b = meanLineConfidence (lines b))
           (basicBlocksFrom blockIndex groupedBlocks).
Proof.
  induction groupedBlocks as [|blockLines rest IH]; intros blockIndex; simpl.
  - constructor.
  - destruct blockLines as [|l ls]; [apply IH|].
    constructor; [reflexivity|apply IH].
Qed.

(** ** Units of the legacy geometry *)

(** C8 (the code departs from the claim). The same OCR word, at pixels
    (500,40)-(620,60) of a 1000 by 1000 raster, gives the percentage
    geometry (50, 4, 12, 2) on the primary path, and the pixel geometry
    (500, 40, 120, 20) both in the [catch] block and on the path without
    the vision model: there [x] and [w] exceed 100. *)
Theorem ocr_only_chunks_are_in_pixels :
  (exists r c,
     snd (performGeminiExtraction envOneWord raster 0 1 None) = Returns r /\
     legacyChunks r = [c] /\
     gx (geometry c) == 50 /\ gy (geometry c) == 4 /\
     gw (geometry c) == 12 /\ gh (geometry c) == 2 /\
     inPercent (geometry c)) /\
  (exists r c,
     snd (performGeminiExtraction envVisionDown raster 0 1 None) = Returns r /\
     legacyChunks r = [c] /\
     geometry c = mkGeometry 500 40 (620 - 500) (60 - 40) /\
     ~ inPercent (geometry c)) /\
  (exists r c,
     snd (performEnhancedOCR false envOneWord raster 0 1) = Returns r /\
     legacyChunks r = [c] /\
     geometry c = mkGeometry 500 40 (620 - 500) (60 - 40) /\
     ~ inPercent (geometry c)).
Proof.
  split; [|split].
  - eexists. eexists. split; [by_evaluation|].
    split; [reflexivity|].
    repeat (split; [vm_compute; try reflexivity; discriminate|]).
    unfold inPercent; vm_compute; repeat split; discriminate.
  - eexists. eexists. split; [by_evaluation|].
    split; [reflexivity|]. split; [by_evaluation|].
    intros (Hx & _). destruct Hx as [_ Hx]. vm_compute in Hx. now apply Hx.
  - eexists. eexists. split; [by_evaluation|].
    split; [reflexivity|]. split; [by_evaluation|].
    intros (Hx & _). destruct Hx as [_ Hx]. vm_compute in Hx. now apply Hx.
Qed.

(** ** Coverage-gap repair *)

Lemma lengthQ_nonneg (s : string) : 0 <= lengthQ s.
Proof.
  unfold lengthQ. change 0 with (inject_Z 0). rewrite <- Zle_Qle. lia.
Qed.

Lemma gapDetected_true (completeText extractedText : string) :
  gapDetected completeText extractedText = true
  <-> lengthQ extractedText * 1.2 < lengthQ completeText.
Proof. apply Qltb_lt. Qed.

Lemma gapDetected_false (completeText extractedText : string) :
  gapDetected completeText extractedText = false
  <-> ~ lengthQ extractedText * 1.2 < lengthQ completeText.
Proof.
  unfold gapDetected. rewrite Qltb_ge. split.
  - intros H. now apply Qle_not_lt.
  - intros H. now apply Qnot_lt_le.
Qed.

Lemma pushChunk_words (seed pn : nat) (acc : Acc) (t : string) (g : Geometry) :
  acc_words (pushChunk seed pn acc t g) = acc_words acc.
Proof. reflexivity. Qed.

Lemma pushChunks_words (seed pn : nat) (f : Word -> Geometry) (ws : list Word) :
  forall acc,
    acc_words (fold_left (fun acc w => pushChunk seed pn acc (text w) (f w)) ws acc)
    = acc_words acc.
Proof.
  induction ws as [|w ws IH]; intros acc; simpl; [reflexivity|].
  now rewrite IH.
Qed.

Lemma length_snoc {A : Type} (l : list A) (a : A) :
  List.length (l ++ [a]) = S (List.length l).
Proof. rewrite length_app. simpl. lia. Qed.

Lemma addMissingElement_step (seed pn : nat) (st : PageState)
    (element : StructureElement) (index : nat) :
  let st1 := addMissingElement seed pn st element index in
  st_blocks st1
  = st_blocks st
    ++ [fallbackBlockOf element index (List.length (st_lines st))
                        (List.length (st_blocks st))] /\
  st_lines st1
  = st_lines st ++ [fallbackLineOf element index (List.length (st_lines st))] /\
  acc_words (st_acc st1) = acc_words (st_acc st) ++ fallbackWordsOf element index.
Proof.
  unfold addMissingElement. simpl. repeat split.
  now rewrite pushChunks_words.
Qed.

Lemma addMissingElements_appends (seed pn : nat) (missing : list StructureElement) :
  forall index st,
    let st' := forEachFrom index (addMissingElement seed pn) missing st in
    let added :=
      fallbackBlocksFrom index (List.length (st_lines st))
                         (List.length (st_blocks st)) missing in
    st_blocks st' = st_blocks st ++ added /\
    st_lines st' = st_lines st ++ flat_map lines added /\
    acc_words (st_acc st')
    = acc_words (st_acc st) ++ flat_map words (flat_map lines added).
Proof.
  induction missing as [|element rest IH]; intros index st.
  - simpl. now rewrite !app_nil_r.
  - cbn [forEachFrom fallbackBlocksFrom].
    destruct (addMissingElement_step seed pn st element index) as (Sb & Sl & Sw).
    specialize (IH (S index) (addMissingElement seed pn st element index)).
    cbv zeta in IH. rewrite Sb, Sl, Sw, !length_snoc in IH.
    destruct IH as (Hb & Hl & Hw). cbv zeta.
    rewrite Hb, Hl, Hw.
    cbn [flat_map lines fallbackBlockOf words fallbackLineOf app].
    rewrite <- !app_assoc. repeat split.
Qed.

(** One appended block per element, in order, labelled from it. *)
Lemma fallbackBlocks_per_element (missing : list StructureElement) :
  forall index linesLength blocksLength,
    Forall2
      (fun element b =>
         block_type b = mapElementTypeToBlockType (element_type element) /\
         semanticRole b = Some (element_type element) /\
         block_confidence b = element_confidence element /\
         exists l, lines b = [l] /\ map text (words l) = split (content element))
      missing (fallbackBlocksFrom index linesLength blocksLength missing).
Proof.
  induction missing as [|element rest IH]; intros index L B; simpl.
  - constructor.
  - constructor; [|apply IH].
    repeat split.
    eexists. split; [reflexivity|]. simpl.
    unfold fallbackWordsOf, forEach.
    generalize (split (content element)) as pieces.
    assert (G : forall pieces i (acc : list Word),
              map text
                (forEachFrom i
                   (fun (acc : list Word) (wordText : string) (wordIndex : nat) =>
                      acc ++ [mkWord wordText
                                (mkBBox (x (fallbackBBoxOf index) + ofNat wordIndex * 0.05)
                                        (y (fallbackBBoxOf index))
                                        (Qmin 0.05 (lengthQ wordText * 0.01))
                                        (height (fallbackBBoxOf index)))
                                (element_confidence element) "Arial" 12])
                   pieces acc)
              = map text acc ++ pieces).
    { induction pieces as [|p ps IHp]; intros i acc; simpl.
      - now rewrite app_nil_r.
      - rewrite IHp, map_app. simpl. now rewrite <- app_assoc. }
    intros pieces. now rewrite G.
Qed.

Lemma isMissing_spec (extractedText : string) (e : StructureElement) :
  isMissing extractedText e = true <->
  normalizedContent e <> EmptyString /\
  includes (toLowerCase extractedText) (normalizedContent e) = false.
Proof.
  unfold isMissing, normalizedContent.
  rewrite andb_true_iff, negb_true_iff, Nat.ltb_lt.
  split; intros [H1 H2]; split; try exact H2.
  - intros E. rewrite E in H1. simpl in H1. lia.
  - destruct (trim (toLowerCase (content e))); [now elim H1|simpl; lia].
Qed.

(** C3 (as amended). The repair fires exactly when the length of the
    complete text exceeds 1.2 times the length of the recognised text.
    When it fires it appends one block (with its line and words) for
    each structural element whose trimmed, lower-cased content is not
    empty and is not a substring of the lower-cased recognised text.
    When it does not fire, words, lines, blocks and chunks are
    unchanged.  At 1.3 times a non-empty recognised text it fires; at
    1.1 or 1.2 times it does not. *)
Theorem coverage_gap_repair_threshold :
  forall (seed pn : nat) (g : GeminiResult) (s : StructureResult) (st : PageState),
    let extractedText := extractedTextOf (acc_words (st_acc st)) in
    let completeText := orElseS (completeText s) (gemini_text g) in
    let missing := filter (isMissing extractedText) (elements s) in
    let added :=
      fallbackBlocksFrom 0 (List.length (st_lines st))
                         (List.length (st_blocks st)) missing in
    let st' := coverageGapRepair seed pn g s st in
    (forall e, In e missing <->
               In e (elements s) /\
               normalizedContent e <> EmptyString /\
               includes (toLowerCase extractedText) (normalizedContent e) = false) /\
    (lengthQ extractedText * 1.2 < lengthQ completeText ->
       st_blocks st' = st_blocks st ++ added /\
       st_lines st' = st_lines st ++ flat_map lines added /\
       acc_words (st_acc st')
       = acc_words (st_acc st) ++ flat_map words (flat_map lines added) /\
       Forall2
         (fun element b =>
            block_type b = mapElementTypeToBlockType (element_type element) /\
            semanticRole b = Some (element_type element) /\
            block_confidence b = element_confidence element /\
            exists l, lines b = [l] /\ map text (words l) = split (content element))
         missing added) /\
    (~ lengthQ extractedText * 1.2 < lengthQ completeText -> st' = st) /\
    (0 < lengthQ extractedText ->
     lengthQ completeText == 1.3 * lengthQ extractedText ->
     lengthQ extractedText * 1.2 < lengthQ completeText) /\
    (lengthQ completeText == 1.1 * lengthQ extractedText \/
     lengthQ completeText == 1.2 * lengthQ extractedText ->
     st' = st).
Proof.
  intros seed pn g s st extractedText completeText missing added st'.
  assert (Hno : ~ lengthQ extractedText * 1.2 < lengthQ completeText -> st' = st).
  { intros H. apply gapDetected_false in H.
    unfold st', coverageGapRepair.
    fold extractedText. fold completeText. now rewrite H. }
  split; [|split; [|split; [exact Hno|split]]].
  - intros e. unfold missing. rewrite filter_In, isMissing_spec. tauto.
  - intros H. apply gapDetected_true in H.
    unfold st', coverageGapRepair.
    fold extractedText. fold completeText. rewrite H.
    fold missing. unfold forEach.
    pose proof (addMissingElements_appends seed pn missing 0%nat st) as A.
    simpl in A. fold added in A. destruct A as (A1 & A2 & A3).
    repeat (split; [assumption|]).
    apply fallbackBlocks_per_element.
  - intros Hpos Heq. rewrite Heq. lra.
  - intros Heq. apply Hno.
    pose proof (lengthQ_nonneg extractedText) as Hn.
    destruct Heq as [Heq|Heq]; rewrite Heq; lra.
Qed.

(** Witness of C3: thirteen characters of complete text against ten
    recognised ones; the element "xy" gets a block. *)
Lemma coverage_gap_repair_threshold_witness :
  lengthQ (extractedTextOf (acc_words (st_acc stateTen))) * 1.2
  < lengthQ (orElseS (completeText structureThirteen) (gemini_text geminiThirteen)) /\
  st_blocks (coverageGapRepair 0 1 geminiThirteen structureThirteen stateTen)
  = st_blocks stateTen
    ++ fallbackBlocksFrom 0 0 0
         (filter (isMissing (extractedTextOf (acc_words (st_acc stateTen))))
                 (elements structureThirteen)).
Proof.
  assert (H : lengthQ (extractedTextOf (acc_words (st_acc stateTen))) * 1.2
              < lengthQ (orElseS (completeText structureThirteen)
                                 (gemini_text geminiThirteen)))
    by by_evaluation.
  split; [exact H|].
  exact (proj1 (proj1 (proj2 (coverage_gap_repair_threshold
                                0 1 geminiThirteen structureThirteen stateTen)) H)).
Defined.

(** Counterexample to C3 as stated: the repair fires (16 characters
    against 5), the content "Total " of the element is not a substring
    of the recognised text "Total" in any case, and no block is
    appended, because the content is trimmed before it is looked up. *)
Lemma gap_repair_trims_before_matching :
  exists r b,
    performGeminiExtraction envTrailingSpace raster 0 1 None
    = ([mkOcrParams (Some SINGLE_BLOCK) (Some 300%nat)], Returns r) /\
    extractedTextOf (page_words (irPage r)) = "Total"%string /\
    gapDetected "Total amount due" "Total" = true /\
    includes (toLowerCase "Total") (toLowerCase (content elementTotal)) = false /\
    page_blocks (irPage r) = [b] /\ block_id b = block_ 0.
Proof.
  eexists. eexists.
  split; [by_evaluation|].
  split; [reflexivity|].
  split; [by_evaluation|].
  split; [by_evaluation|].
  split; reflexivity.
Qed.

(** ** The placeholder *)

Lemma tryOcrConfigs_data (env : Env) (configs : list OcrParams) :
  forall callIndex d calls,
    tryOcrConfigs env callIndex configs = (Some d, calls) ->
    exists n p, recognize env n p = Returns d.
Proof.
  induction configs as [|config rest IH]; intros callIndex d calls H; simpl in H.
  - discriminate.
  - destruct (tryOcrConfigs env (S callIndex) rest) as [d' calls'] eqn:E.
    destruct (recognize env callIndex config) as [data|e] eqn:R.
    + destruct (ocr_words data) as [[|w ws]|] eqn:W.
      * inversion H; subst. eapply IH. exact E.
      * inversion H; subst. now exists callIndex, config.
      * inversion H; subst. eapply IH. exact E.
    + inversion H; subst. eapply IH. exact E.
Qed.

Lemma ocrWordItems_unusable (canvas : Canvas) (seed pn : nat) (ws : list OcrWord) :
  forall i acc,
    Forall (fun w => usableWord w = false) ws ->
    forEachFrom i (ocrWordItem canvas seed pn) ws acc = acc.
Proof.
  induction ws as [|w ws IH]; intros i acc H; simpl; [reflexivity|].
  inversion H as [|? ? Hw Hws]; subst.
  rewrite <- (IH (S i) acc Hws) at 2. f_equal.
  unfold usableWord in Hw. unfold ocrWordItem.
  destruct (ow_bbox w); [|reflexivity].
  rewrite andb_true_r in Hw. now rewrite Hw.
Qed.

Lemma ocrLineItems_unusable (canvas : Canvas) (seed pn : nat) (ls : list OcrLine) :
  forall i acc,
    Forall (fun l => usableLine l = false) ls ->
    forEachFrom i (ocrLineItem canvas seed pn) ls acc = acc /\
    existsb usableLine ls = false.
Proof.
  induction ls as [|l ls IH]; intros i acc H; simpl; [now split|].
  inversion H as [|? ? Hl Hls]; subst.
  rewrite Hl. simpl.
  assert (E : ocrLineItem canvas seed pn acc l i = acc).
  { unfold usableLine in Hl. unfold ocrLineItem.
    destruct (ol_bbox l); [|reflexivity].
    rewrite andb_true_r in Hl. now rewrite Hl. }
  rewrite E. now apply IH.
Qed.

Lemma filter_isMissing_blank (extractedText : string) (es : list StructureElement) :
  Forall (fun e => normalizedContent e = EmptyString) es ->
  filter (isMissing extractedText) es = [].
Proof.
  induction es as [|e es IH]; intros H; simpl; [reflexivity|].
  inversion H as [|? ? He Hes]; subst.
  unfold isMissing at 1. unfold normalizedContent in He. rewrite He. simpl.
  now apply IH.
Qed.

Lemma reconcile_nothing (canvas : Canvas) (seed pn : nat)
    (g : GeminiResult) (s : StructureResult) (ocrData : option OcrData) :
  (forall d, ocrData = Some d -> ocrYieldsNothing d) ->
  visionYieldsNothing g s ->
  let r := reconcile canvas seed pn g s ocrData emptyAcc in
  legacyChunks r
  = [mkChunk (nanoid seed) "No text detected" pn (mkGeometry 10 10 20 5)] /\
  page_words (irPage r) = [] /\
  page_blocks (irPage r) = [].
Proof.
  intros Hocr [Htext Hstruct].
  assert (F : fallbackCoordinates canvas seed pn ocrData g emptyAcc = emptyAcc).
  { unfold fallbackCoordinates. simpl.
    set (ocrLines := match ocrData with
                     | Some d => match ocr_lines d with Some ls => ls | None => [] end
                     | None => []
                     end).
    assert (Hl : Forall (fun l => usableLine l = false) ocrLines).
    { unfold ocrLines. destruct ocrData as [d|]; [|constructor].
      destruct (Hocr d eq_refl) as [_ Hl]. exact Hl. }
    destruct (ocrLineItems_unusable canvas seed pn ocrLines 0%nat emptyAcc Hl)
      as [E1 E2].
    unfold forEach. rewrite E1, E2. simpl.
    destruct (truthy (gemini_text g)); [|reflexivity].
    rewrite Htext. reflexivity. }
  unfold reconcile. rewrite F.
  assert (G : coverageGapRepair seed pn g s
                (mkPageState (placeholder seed pn emptyAcc) [] [])
              = mkPageState (placeholder seed pn emptyAcc) [] []).
  { unfold coverageGapRepair.
    destruct Hstruct as [E|E].
    - rewrite E. reflexivity.
    - rewrite (filter_isMissing_blank _ _ E).
      now destruct (gapDetected _ _). }
  change (buildLines (groupWordsIntoLines (acc_words (placeholder seed pn emptyAcc))))
    with (@nil Line).
  change (groupLinesIntoBlocks []) with (@nil (list Line)).
  cbn [buildBlocksFrom]. rewrite G. simpl.
  now rewrite Nat.add_0_r.
Qed.



(** ** The progress signal *)

Section Progress.
Variable enableAdvancedProcessing : bool.
Variable n : nat.
Variable load : nat -> PageLoad.
Hypothesis success : successfulRun enableAdvancedProcessing n load.

Local Abbreviation base := (progressBaseOf n).
Local Abbreviation step := (pageProgressStepOf n).

Lemma ofNat_S (k : nat) : ofNat (k + 1) == ofNat k + 1.
Proof.
  unfold ofNat. rewrite Nat2Z.inj_add, inject_Z_plus. reflexivity.
Qed.

Lemma ofNat_le (a b : nat) : (a <= b)%nat -> ofNat a <= ofNat b.
Proof. intros H. unfold ofNat. rewrite <- Zle_Qle. lia. Qed.

Lemma ofNat_pos (a : nat) : (1 <= a)%nat -> 1 <= ofNat a.
Proof. intros H. change 1 with (ofNat 1). now apply ofNat_le. Qed.

Lemma base_step (k : nat) : (1 <= n)%nat -> base k == 10 + (ofNat k - 1) * 6 * step.
Proof.
  intros Hn. apply ofNat_pos in Hn. unfold progressBaseOf, pageProgressStepOf. field. lra.
Qed.

Lemma step_total : (1 <= n)%nat -> ofNat n * 6 * step == 80.
Proof.
  intros Hn. apply ofNat_pos in Hn. unfold pageProgressStepOf. field. lra.
Qed.

Lemma step_pos : (1 <= n)%nat -> 0 < step.
Proof.
  intros Hn. apply ofNat_pos in Hn. unfold pageProgressStepOf.
  apply Qlt_shift_div_l; [lra|]. apply Qlt_shift_div_l; lra.
Qed.

Lemma base_next (k : nat) : (1 <= n)%nat -> base (k + 1) == base k + step * 6.
Proof.
  intros Hn. rewrite !base_step by exact Hn. rewrite ofNat_S. ring.
Qed.

Lemma base_lower (k : nat) : (1 <= n)%nat -> (1 <= k)%nat -> 10 <= base k.
Proof.
  intros Hn Hk. rewrite base_step by exact Hn.
  pose proof (step_pos Hn) as Hs. apply ofNat_pos in Hk.
  assert (0 <= (ofNat k - 1) * 6 * step).
  { apply Qmult_le_0_compat; [|lra]. lra. }
  lra.
Qed.

Lemma base_upper (k : nat) : (1 <= n)%nat -> (k <= n)%nat -> base k + step * 6 <= 90.
Proof.
  intros Hn Hk. rewrite base_step by exact Hn.
  pose proof (step_pos Hn) as Hs. pose proof (step_total Hn) as Ht.
  apply ofNat_le in Hk.
  assert (0 <= (ofNat n - ofNat k) * (6 * step)).
  { apply Qmult_le_0_compat; lra. }
  assert (E : (ofNat n - ofNat k) * (6 * step)
              == ofNat n * 6 * step - ofNat k * 6 * step) by ring.
  assert (E' : (ofNat k - 1) * 6 * step == ofNat k * 6 * step - 6 * step) by ring.
  lra.
Qed.

(** The events of a page that is extracted. *)
Lemma onPageLoadSuccess_events (p : Processor) :
  numPages p = n -> (1 <= currentProcessingPage p <= n)%nat ->
  let k := currentProcessingPage p in
  let six := [ProgressUpdate (base k + step);
              ProgressUpdate (base k + step * 2);
              ProgressUpdate (base k + step * 3);
              ProgressUpdate (base k + step * 4);
              ProgressUpdate (base k + step * 5);
              ProgressUpdate (base k + step * 6)] in
  exists p' pages irs,
    numPages p' = n /\
    if Nat.eqb k n
    then currentProcessingPage p' = k /\
         snd (onPageLoadSuccess enableAdvancedProcessing p (load k))
         = six ++ [ProcessingComplete pages irs; ProgressUpdate 100] /\
         fst (onPageLoadSuccess enableAdvancedProcessing p (load k)) = p'
    else currentProcessingPage p' = (k + 1)%nat /\
         snd (onPageLoadSuccess enableAdvancedProcessing p (load k)) = six /\
         fst (onPageLoadSuccess enableAdvancedProcessing p (load k)) = p'.
Proof.
  intros Hn Hk k six.
  destruct (success k Hk) as (Hc & Hr & Hocr).
  destruct (Hocr (List.length (flat_map textChunks (allPages p)))) as [r Hret].
  unfold onPageLoadSuccess. fold k. rewrite Hc, Hr, Hn. cbn [negb].
  rewrite Hret. fold (base k). fold step.
  destruct (Nat.eqb k n) eqn:E.
  - eexists. eexists. eexists.
    split; [|split; [|split; [|reflexivity]]]; reflexivity.
  - eexists. exists nil, nil.
    split; [|split; [|split; [|reflexivity]]]; reflexivity.
Qed.

Lemma sorted_six (b s : Q) (rest : list Q) :
  0 <= s -> Forall (Qle (b + s * 6)) rest -> StronglySorted Qle rest ->
  StronglySorted Qle
    (b + s :: b + s * 2 :: b + s * 3 :: b + s * 4 :: b + s * 5 :: b + s * 6 :: rest).
Proof.
  intros Hs Hrest Hsorted.
  assert (W : forall v, v <= b + s * 6 -> Forall (Qle v) rest).
  { intros v Hv. eapply Forall_impl; [|exact Hrest].
    intros a Ha. eapply Qle_trans; eassumption. }
  repeat (apply SSorted_cons;
          [|repeat (apply Forall_cons; [lra|]); apply W; lra]).
  exact Hsorted.
Qed.

Lemma completesBefore100_cons (v : Q) (events : list Event) :
  v < 100 -> completesBefore100 events ->
  completesBefore100 (ProgressUpdate v :: events).
Proof.
  intros Hv H pre u post E Hu.
  destruct pre as [|e pre]; simpl in E.
  - inversion E; subst. lra.
  - inversion E; subst.
    destruct (H pre u post eq_refl Hu) as (pages & irs & Hin).
    exists pages, irs. now right.
Qed.

Lemma completesBefore100_done (pages : list LegacyPageData) (irs : list IRPage) :
  completesBefore100 [ProcessingComplete pages irs; ProgressUpdate 100].
Proof.
  intros pre u post E Hu.
  destruct pre as [|e pre]; simpl in E; [discriminate|].
  inversion E; subst. exists pages, irs. now left.
Qed.

Lemma processPages_progress (fuel : nat) :
  forall p,
    numPages p = n -> (1 <= currentProcessingPage p <= n)%nat ->
    (fuel + currentProcessingPage p = n + 1)%nat ->
    let events := processPages enableAdvancedProcessing fuel load p in
    StronglySorted Qle (progressValues events) /\
    Forall (fun v => base (currentProcessingPage p) <= v <= 100)
           (progressValues events) /\
    completesBefore100 events /\
    exists pre pages irs,
      events = pre ++ [ProcessingComplete pages irs; ProgressUpdate 100].
Proof.
  induction fuel as [|fuel IH]; intros p Hn Hk Hf; [lia|].
  assert (Hn1 : (1 <= n)%nat) by lia.
  pose proof (step_pos Hn1) as Hs.
  pose proof (base_lower (currentProcessingPage p) Hn1 (proj1 Hk)) as Hlo.
  pose proof (base_upper (currentProcessingPage p) Hn1 (proj2 Hk)) as Hup.
  cbn [processPages].
  replace (Nat.ltb 0 (currentProcessingPage p)) with true
    by (symmetry; apply Nat.ltb_lt; lia).
  replace (Nat.leb (currentProcessingPage p) (numPages p)) with true
    by (symmetry; apply Nat.leb_le; lia).
  cbn [andb].
  destruct (onPageLoadSuccess_events p Hn Hk) as (p' & pages & irs & Hn' & H).
  destruct (onPageLoadSuccess enableAdvancedProcessing p
              (load (currentProcessingPage p))) as [q events] eqn:Eq.
  simpl in H.
  destruct (Nat.eqb (currentProcessingPage p) n) eqn:Ek.
  - destruct H as (Hc & He & Hq). subst q events.
    rewrite Hc, Nat.eqb_refl, app_nil_r. simpl.
    split; [|split; [|split]].
    + apply sorted_six; [lra| |].
      * constructor; [lra|constructor].
      * constructor; [constructor|constructor].
    + repeat (apply Forall_cons; [lra|]). constructor.
    + repeat (apply completesBefore100_cons; [lra|]).
      apply completesBefore100_done.
    + eexists. exists pages, irs.
      change (?a :: ?b :: ?c :: ?d :: ?e :: ?f :: ?t)
        with ([a; b; c; d; e; f] ++ t).
      reflexivity.
  - destruct H as (Hc & He & Hq). subst q events.
    apply Nat.eqb_neq in Ek.
    replace (Nat.eqb (currentProcessingPage p') (currentProcessingPage p))
      with false by (symmetry; apply Nat.eqb_neq; lia).
    assert (Hk' : (1 <= currentProcessingPage p' <= n)%nat) by lia.
    assert (Hf' : (fuel + currentProcessingPage p' = n + 1)%nat) by lia.
    destruct (IH p' Hn' Hk' Hf') as (I1 & I2 & I3 & pre & pages' & irs' & I4).
    rewrite Hc in I2.
    pose proof (base_next (currentProcessingPage p) Hn1) as Hnext.
    simpl. unfold progressValues in *. simpl.
    split; [|split; [|split]].
    + apply sorted_six; [lra| |exact I1].
      eapply Forall_impl; [|exact I2]. intros a Ha. simpl in Ha. lra.
    + repeat (apply Forall_cons; [lra|]).
      eapply Forall_impl; [|exact I2]. intros a Ha. simpl in Ha. lra.
    + repeat (apply completesBefore100_cons; [lra|]). exact I3.
    + rewrite I4. eexists. exists pages', irs'.
      rewrite !app_comm_cons. reflexivity.
Qed.
End Progress.



(** * Further properties of the page pipeline *)

(** ** Loops *)

Lemma forEachFrom_invariant {A St : Type} (P : St -> Prop)
    (f : St -> A -> nat -> St) (l : list A) :
  (forall s a i, In a l -> P s -> P (f s a i)) ->
  forall i s, P s -> P (forEachFrom i f l s).
Proof.
  induction l as [|a r IH]; intros Hf i s Hs; simpl; [exact Hs|].
  apply IH.
  - intros s' a' i' Hin. apply Hf. now right.
  - apply Hf; [now left|exact Hs].
Qed.

Lemma fold_left_invariant {A St : Type} (P : St -> Prop)
    (f : St -> A -> St) (l : list A) :
  (forall s a, P s -> P (f s a)) ->
  forall s, P s -> P (fold_left f l s).
Proof.
  induction l as [|a r IH]; intros Hf s Hs; simpl; [exact Hs|].
  apply IH; [exact Hf|]. now apply Hf.
Qed.

(** ** The OCR ladder *)



(** ** Chunks follow words *)

Lemma alignedWith_push (pre : list string) (seed pn : nat) (acc : Acc)
    (w : Word) (g : Geometry) :
  alignedWith pre acc ->
  alignedWith pre (pushChunk seed pn (pushWord acc w) (text w) g).
Proof.
  unfold alignedWith. intros H. simpl.
  rewrite !map_app, H. simpl. now rewrite <- app_assoc.
Qed.

Lemma ocrWordItem_aligned (pre : list string) (canvas : Canvas) (seed pn : nat)
    (acc : Acc) (w : OcrWord) (i : nat) :
  alignedWith pre acc -> alignedWith pre (ocrWordItem canvas seed pn acc w i).
Proof.
  intros H. unfold ocrWordItem.
  destruct (ow_bbox w) as [b|]; [|exact H].
  destruct (truthy (trim (ow_text w))); [|exact H].
  match goal with
  | |- alignedWith _ (pushChunk _ _ (pushWord _ ?word) _ _) =>
      exact (alignedWith_push pre seed pn acc word _ H)
  end.
Qed.

Lemma rawOcrWordItem_aligned (pre : list string) (canvas : Canvas) (seed pn : nat)
    (acc : Acc) (w : OcrWord) (i : nat) :
  alignedWith pre acc -> alignedWith pre (rawOcrWordItem canvas seed pn acc w i).
Proof.
  intros H. unfold rawOcrWordItem.
  destruct (ow_bbox w) as [b|]; [|exact H].
  destruct (truthy (trim (ow_text w))); [|exact H].
  match goal with
  | |- alignedWith _ (pushChunk _ _ (pushWord _ ?word) _ _) =>
      exact (alignedWith_push pre seed pn acc word _ H)
  end.
Qed.

Lemma ocrLineItem_aligned (pre : list string) (canvas : Canvas) (seed pn : nat)
    (acc : Acc) (l : OcrLine) (i : nat) :
  alignedWith pre acc -> alignedWith pre (ocrLineItem canvas seed pn acc l i).
Proof.
  intros H. unfold ocrLineItem.
  destruct (ol_bbox l) as [b|]; [|exact H].
  destruct (truthy (ol_text l) && truthy (trim (ol_text l)))%bool; [|exact H].
  unfold forEach.
  apply (forEachFrom_invariant (fun st : Q * Acc => alignedWith pre (snd st)));
    [|exact H].
  intros [currentX a] wordText wordIndex _ Ha. simpl in *.
  match goal with
  | |- alignedWith _ (pushChunk _ _ (pushWord _ ?word) _ _) =>
      exact (alignedWith_push pre seed pn a word _ Ha)
  end.
Qed.

Lemma catchLineItem_aligned (pre : list string) (canvas : Canvas) (seed pn : nat)
    (acc : Acc) (l : OcrLine) (i : nat) :
  alignedWith pre acc -> alignedWith pre (catchLineItem canvas seed pn acc l i).
Proof.
  intros H. unfold catchLineItem.
  destruct (ol_bbox l) as [b|]; [|exact H].
  destruct (truthy (ol_text l) && truthy (trim (ol_text l)))%bool; [|exact H].
  unfold forEach.
  apply (forEachFrom_invariant (alignedWith pre)); [|exact H].
  intros a wordText wordIndex _ Ha.
  match goal with
  | |- alignedWith _ (pushChunk _ _ (pushWord _ ?word) _ _) =>
      exact (alignedWith_push pre seed pn a word _ Ha)
  end.
Qed.

Lemma flowWord_aligned (pre : list string) (c : Q) (seed pn : nat)
    (st : Q * Q * Acc) (wordText : string) (i : nat) :
  alignedWith pre (snd st) -> alignedWith pre (snd (flowWord c seed pn st wordText i)).
Proof.
  destruct st as [[cx cy] a]. intros H. unfold flowWord. simpl in H.
  cbv zeta. cbn [snd].
  match goal with
  | |- alignedWith _ (pushChunk _ _ (pushWord _ ?word) _ _) =>
      exact (alignedWith_push pre seed pn a word _ H)
  end.
Qed.

Lemma fallbackCoordinates_aligned (pre : list string) (canvas : Canvas)
    (seed pn : nat) (ocrData : option OcrData) (g : GeminiResult) (acc : Acc) :
  alignedWith pre acc ->
  alignedWith pre (fallbackCoordinates canvas seed pn ocrData g acc).
Proof.
  intros H. unfold fallbackCoordinates.
  destruct (acc_words acc); [|exact H].
  match goal with
  | |- context [forEach (ocrLineItem _ _ _) ?ls acc] =>
      assert (H1 : alignedWith pre (forEach (ocrLineItem canvas seed pn) ls acc))
  end.
  { unfold forEach. apply forEachFrom_invariant; [|exact H].
    intros s a i _. apply ocrLineItem_aligned. }
  cbv zeta.
  match goal with |- context [if ?c then _ else _] => destruct c end;
    [|exact H1].
  unfold forEach.
  apply (forEachFrom_invariant (fun st : Q * Q * Acc => alignedWith pre (snd st)));
    [|exact H1].
  intros s a i _. apply flowWord_aligned.
Qed.

Lemma addMissingElement_aligned (pre : list string) (seed pn : nat)
    (st : PageState) (e : StructureElement) (i : nat) :
  alignedWith pre (st_acc st) ->
  alignedWith pre (st_acc (addMissingElement seed pn st e i)).
Proof.
  unfold alignedWith, addMissingElement. intros H. cbn [st_acc].
  rewrite pushChunks_words. cbn [acc_words].
  generalize (fallbackWordsOf e i) as ws. intros ws.
  assert (G : forall ws acc,
            map chunk_text
              (acc_chunks
                 (fold_left
                    (fun acc word =>
                       pushChunk seed pn acc (text word)
                         (mkGeometry (clamp 0 (x (bbox word) * 100) 100)
                                     (clamp 0 (y (bbox word) * 100) 100)
                                     (clamp 0.5 (width (bbox word) * 100) 100)
                                     (clamp 1.0 (height (bbox word) * 100) 100)))
                    ws acc))
            = map chunk_text (acc_chunks acc) ++ map text ws).
  { induction ws0 as [|w ws0 IH]; intros acc; simpl.
    - now rewrite app_nil_r.
    - rewrite IH. simpl. rewrite map_app. simpl. now rewrite <- app_assoc. }
  rewrite G. cbn [acc_chunks]. rewrite H, map_app. now rewrite <- app_assoc.
Qed.

Lemma coverageGapRepair_aligned (pre : list string) (seed pn : nat)
    (g : GeminiResult) (s : StructureResult) (st : PageState) :
  alignedWith pre (st_acc st) ->
  alignedWith pre (st_acc (coverageGapRepair seed pn g s st)).
Proof.
  intros H. unfold coverageGapRepair.
  destruct (gapDetected _ _); [|exact H].
  unfold forEach.
  apply (forEachFrom_invariant (fun st => alignedWith pre (st_acc st))); [|exact H].
  intros s0 a i _. apply addMissingElement_aligned.
Qed.

Lemma createWords_aligned (canvas : Canvas) (seed pn : nat)
    (items : list TextItem) (ocrData : option OcrData) (acc : Acc) :
  createWords canvas seed pn items ocrData = Returns acc -> alignedWith [] acc.
Proof.
  unfold createWords. intros H.
  destruct items as [|item rest].
  - assert (E : alignedWith [] emptyAcc) by reflexivity.
    destruct ocrData as [d|]; [|inversion H; subst; exact E].
    destruct (ocr_words d) as [ws|]; [|inversion H; subst; exact E].
    inversion H; subst. unfold forEach.
    apply forEachFrom_invariant; [|exact E].
    intros s a i _. apply ocrWordItem_aligned.
  - destruct (Exists_dec (fun item => truthy (trim (str item)) = true)
                         (item :: rest)) as [Hex|Hno].
    { intros it. destruct (truthy (trim (str it))); [now left|now right]. }
    + rewrite nativeItems_throw in H by exact Hex. discriminate.
    + rewrite nativeItems_blank in H.
      * inversion H; subst. reflexivity.
      * apply Forall_forall. intros it Hin.
        destruct (truthy (trim (str it))) eqn:E; [|reflexivity].
        exfalso. apply Hno. apply Exists_exists. now exists it.
Qed.

Lemma placeholder_aligned (seed pn : nat) (acc : Acc) :
  alignedWith [] acc ->
  alignedWith [] (placeholder seed pn acc) \/
  alignedWith ["No text detected"%string] (placeholder seed pn acc).
Proof.
  unfold placeholder, alignedWith. intros H.
  destruct (acc_words acc) eqn:E; [|left; rewrite E; exact H].
  right. simpl. rewrite E. simpl in *.
  destruct (acc_chunks acc); [reflexivity|discriminate].
Qed.

Lemma reconcile_aligned (canvas : Canvas) (seed pn : nat)
    (g : GeminiResult) (s : StructureResult) (ocrData : option OcrData) (acc : Acc) :
  alignedWith [] acc ->
  let r := reconcile canvas seed pn g s ocrData acc in
  chunkTexts r = wordTexts r \/
  chunkTexts r = "No text detected"%string :: wordTexts r.
Proof.
  intros H r. unfold r, reconcile, chunkTexts, wordTexts. cbn [legacyChunks irPage page_words].
  pose proof (fallbackCoordinates_aligned [] canvas seed pn ocrData g acc H) as H1.
  destruct (placeholder_aligned seed pn _ H1) as [H2|H2].
  - left.
    exact (coverageGapRepair_aligned [] seed pn g s (mkPageState _ _ _) H2).
  - right.
    exact (coverageGapRepair_aligned _ seed pn g s (mkPageState _ _ _) H2).
Qed.

Lemma catchPage_aligned (canvas : Canvas) (seed pn : nat) (data : OcrData) :
  let r := catchPage canvas seed pn data in chunkTexts r = wordTexts r.
Proof.
  unfold catchPage, chunkTexts, wordTexts. cbn [legacyChunks irPage page_words].
  change (alignedWith []
            (catchFallback canvas seed pn data (rawOcrWords canvas seed pn data))).
  assert (H0 : alignedWith [] (rawOcrWords canvas seed pn data)).
  { unfold rawOcrWords. destruct (ocr_words data); [|reflexivity].
    unfold forEach. apply forEachFrom_invariant; [|reflexivity].
    intros s a i _. apply rawOcrWordItem_aligned. }
  unfold catchFallback.
  destruct (acc_words (rawOcrWords canvas seed pn data)); [|exact H0].
  match goal with
  | |- context [match acc_words ?a with _ => _ end] =>
      assert (H1 : alignedWith [] a); [|destruct (acc_words a); [|exact H1]]
  end.
  { destruct (ocr_lines data); [|exact H0].
    unfold forEach. apply forEachFrom_invariant; [|exact H0].
    intros s a i _. apply catchLineItem_aligned. }
  destruct (truthy (ocr_text data)); [|exact H1].
  unfold catchGrid, forEach.
  apply (forEachFrom_invariant (alignedWith [])); [|exact H1].
  intros a wordText wordIndex _ Ha.
  match goal with
  | |- alignedWith _ (pushChunk _ _ (pushWord _ ?word) _ _) =>
      exact (alignedWith_push [] seed pn a word _ Ha)
  end.
Qed.

Lemma basicPage_aligned (canvas : Canvas) (seed pn : nat) (data : OcrData) :
  let r := basicPage canvas seed pn data in chunkTexts r = wordTexts r.
Proof.
  unfold basicPage, chunkTexts, wordTexts. cbn [legacyChunks irPage page_words].
  change (alignedWith [] (rawOcrWords canvas seed pn data)).
  unfold rawOcrWords. destruct (ocr_words data); [|reflexivity].
  unfold forEach. apply forEachFrom_invariant; [|reflexivity].
  intros s a i _. apply rawOcrWordItem_aligned.
Qed.

(** What [performGeminiExtraction] returns comes from [reconcile] or
    from [catchPage]. *)
Lemma performGeminiExtraction_returns (env : Env) (canvas : Canvas)
    (seed pn : nat) (pdfPage : option PdfPage) (r : PageResult) :
  snd (performGeminiExtraction env canvas seed pn pdfPage) = Returns r ->
  (exists g s ocrData calls acc,
     visionCalls env = Returns (g, s) /\
     tryOcrConfigs env 0 ocrConfigs = (ocrData, calls) /\
     createWords canvas seed pn (readTextLayer pdfPage) ocrData = Returns acc /\
     r = reconcile canvas seed pn g s ocrData acc) \/
  (exists n data, recognize env n catchParams = Returns data /\
                  r = catchPage canvas seed pn data).
Proof.
  unfold performGeminiExtraction, primaryPath, catchPath.
  destruct (visionCalls env) as [[g s]|status] eqn:V.
  - destruct (tryOcrConfigs env 0 ocrConfigs) as [ocrData calls] eqn:T.
    destruct (createWords canvas seed pn (readTextLayer pdfPage) ocrData)
      as [acc|e] eqn:C; simpl.
    + intros H. inversion H; subst. left.
      exists g, s, ocrData, calls, acc. repeat split; assumption.
    + destruct (recognize env (List.length calls) catchParams) as [data|e'] eqn:R;
        intros H; [|discriminate].
      inversion H; subst. right. now exists (List.length calls), data.
  - simpl. destruct (recognize env 0 catchParams) as [data|e'] eqn:R;
      intros H; [|discriminate].
    inversion H; subst. right. now exists 0%nat, data.
Qed.



(** ** Percentage geometry on the primary path *)

Lemma clamp_bounds (lo v hi : Q) : lo <= hi -> lo <= clamp lo v hi <= hi.
Proof.
  intros H. unfold clamp.
  destruct (Qmin_cases v hi) as [[E1 H1]|[E1 H1]]; rewrite E1;
    destruct (Qmax_cases lo v) as [[E2 H2]|[E2 H2]];
    destruct (Qmax_cases lo hi) as [[E3 H3]|[E3 H3]];
    try rewrite E2; try rewrite E3; lra.
Qed.

Lemma clamped_inPercent (a b c d lo1 lo2 : Q) :
  0 <= lo1 <= 100 -> 0 <= lo2 <= 100 ->
  inPercent (mkGeometry (clamp 0 a 100) (clamp 0 b 100)
                        (clamp lo1 c 100) (clamp lo2 d 100)).
Proof.
  intros H1 H2. unfold inPercent. simpl.
  pose proof (clamp_bounds 0 a 100 ltac:(lra)).
  pose proof (clamp_bounds 0 b 100 ltac:(lra)).
  pose proof (clamp_bounds lo1 c 100 ltac:(lra)).
  pose proof (clamp_bounds lo2 d 100 ltac:(lra)).
  repeat split; lra.
Qed.

Lemma chunksInPercent_push (seed pn : nat) (acc : Acc) (t : string) (g : Geometry) :
  inPercent g -> chunksInPercent acc -> chunksInPercent (pushChunk seed pn acc t g).
Proof.
  unfold chunksInPercent. intros Hg H. simpl.
  apply Forall_app. split; [exact H|]. now constructor.
Qed.

Lemma chunksInPercent_pushWord (acc : Acc) (w : Word) :
  chunksInPercent acc -> chunksInPercent (pushWord acc w).
Proof. exact (fun H => H). Qed.

Lemma unit_interval (v : Q) : 0 <= Qmax 0 (Qmin v 1) <= 1.
Proof. exact (clamp_bounds 0 v 1 ltac:(lra)). Qed.

Lemma extent_interval (a s : Q) : 0 <= s -> 0.001 <= Qmax 0.001 (Qmin a (1 - s)) <= 1.
Proof.
  intros Hs.
  destruct (Qmin_cases a (1 - s)) as [[E1 H1]|[E1 H1]]; rewrite E1;
    destruct (Qmax_cases 0.001 a) as [[E2 H2]|[E2 H2]];
    destruct (Qmax_cases 0.001 (1 - s)) as [[E3 H3]|[E3 H3]];
    try rewrite E2; try rewrite E3; lra.
Qed.

Lemma Qdiv_nonneg (a c : Q) : 0 <= a -> 0 < c -> 0 <= a / c.
Proof. intros Ha Hc. apply Qle_shift_div_l; [exact Hc|]. lra. Qed.

Lemma ocrWordItem_inPercent (canvas : Canvas) (seed pn : nat)
    (acc : Acc) (w : OcrWord) (i : nat) :
  0 < canvas_width canvas -> 0 < canvas_height canvas ->
  (forall b, ow_bbox w = Some b -> 0 <= x0 b /\ 0 <= y0 b) ->
  chunksInPercent acc -> chunksInPercent (ocrWordItem canvas seed pn acc w i).
Proof.
  intros Hw Hh Hb H. unfold ocrWordItem.
  destruct (ow_bbox w) as [b|]; [|exact H].
  destruct (Hb b eq_refl) as [Hx Hy].
  destruct (truthy (trim (ow_text w))); [|exact H].
  apply chunksInPercent_push; [|exact H].
  unfold inPercent. simpl.
  pose proof (unit_interval (x0 b / canvas_width canvas)).
  pose proof (unit_interval (y0 b / canvas_height canvas)).
  pose proof (extent_interval ((x1 b - x0 b) / canvas_width canvas)
                              (x0 b / canvas_width canvas)
                              (Qdiv_nonneg _ _ Hx Hw)).
  pose proof (extent_interval ((y1 b - y0 b) / canvas_height canvas)
                              (y0 b / canvas_height canvas)
                              (Qdiv_nonneg _ _ Hy Hh)).
  repeat split; lra.
Qed.

Lemma ocrLineItem_inPercent (canvas : Canvas) (seed pn : nat)
    (acc : Acc) (l : OcrLine) (i : nat) :
  chunksInPercent acc -> chunksInPercent (ocrLineItem canvas seed pn acc l i).
Proof.
  intros H. unfold ocrLineItem.
  destruct (ol_bbox l) as [b|]; [|exact H].
  destruct (truthy (ol_text l) && truthy (trim (ol_text l)))%bool; [|exact H].
  unfold forEach.
  apply (forEachFrom_invariant (fun st : Q * Acc => chunksInPercent (snd st)));
    [|exact H].
  intros [currentX a] wordText wordIndex _ Ha. simpl in *.
  apply chunksInPercent_push; [|exact Ha].
  apply clamped_inPercent; lra.
Qed.

Lemma flowWord_inPercent (c : Q) (seed pn : nat)
    (st : Q * Q * Acc) (wordText : string) (i : nat) :
  chunksInPercent (snd st) -> chunksInPercent (snd (flowWord c seed pn st wordText i)).
Proof.
  destruct st as [[cx cy] a]. intros H. unfold flowWord. simpl in H.
  cbv zeta. cbn [snd].
  apply chunksInPercent_push; [|exact H].
  apply clamped_inPercent; lra.
Qed.

Lemma fallbackCoordinates_inPercent (canvas : Canvas)
    (seed pn : nat) (ocrData : option OcrData) (g : GeminiResult) (acc : Acc) :
  chunksInPercent acc ->
  chunksInPercent (fallbackCoordinates canvas seed pn ocrData g acc).
Proof.
  intros H. unfold fallbackCoordinates.
  destruct (acc_words acc); [|exact H].
  match goal with
  | |- context [forEach (ocrLineItem _ _ _) ?ls acc] =>
      assert (H1 : chunksInPercent (forEach (ocrLineItem canvas seed pn) ls acc))
  end.
  { unfold forEach. apply forEachFrom_invariant; [|exact H].
    intros s a i _. apply ocrLineItem_inPercent. }
  cbv zeta.
  match goal with |- context [if ?c then _ else _] => destruct c end;
    [|exact H1].
  unfold forEach.
  apply (forEachFrom_invariant (fun st : Q * Q * Acc => chunksInPercent (snd st)));
    [|exact H1].
  intros s a i _. apply flowWord_inPercent.
Qed.

Lemma placeholder_inPercent (seed pn : nat) (acc : Acc) :
  chunksInPercent acc -> chunksInPercent (placeholder seed pn acc).
Proof.
  intros H. unfold placeholder. destruct (acc_words acc); [|exact H].
  apply chunksInPercent_push; [|exact H].
  unfold inPercent. simpl. repeat split; lra.
Qed.

Lemma addMissingElement_inPercent (seed pn : nat)
    (st : PageState) (e : StructureElement) (i : nat) :
  chunksInPercent (st_acc st) ->
  chunksInPercent (st_acc (addMissingElement seed pn st e i)).
Proof.
  intros H. unfold addMissingElement. cbn [st_acc].
  apply fold_left_invariant; [|exact H].
  intros a w Ha. apply chunksInPercent_push; [|exact Ha].
  apply clamped_inPercent; lra.
Qed.

Lemma coverageGapRepair_inPercent (seed pn : nat)
    (g : GeminiResult) (s : StructureResult) (st : PageState) :
  chunksInPercent (st_acc st) ->
  chunksInPercent (st_acc (coverageGapRepair seed pn g s st)).
Proof.
  intros H. unfold coverageGapRepair.
  destruct (gapDetected _ _); [|exact H].
  unfold forEach.
  apply (forEachFrom_invariant (fun st => chunksInPercent (st_acc st))); [|exact H].
  intros s0 a i _. apply addMissingElement_inPercent.
Qed.

Lemma createWords_blank_or_ocr (canvas : Canvas) (seed pn : nat)
    (items : list TextItem) (ocrData : option OcrData) (acc : Acc) :
  createWords canvas seed pn items ocrData = Returns acc ->
  acc = emptyAcc \/
  (items = [] /\ exists d,
     ocrData = Some d /\
     acc = forEach (ocrWordItem canvas seed pn) (wordsOfData d) emptyAcc).
Proof.
  unfold createWords. intros H.
  destruct items as [|item rest].
  - destruct ocrData as [d|]; [|inversion H; now left].
    right. split; [reflexivity|]. exists d. split; [reflexivity|].
    unfold wordsOfData. destruct (ocr_words d); inversion H; reflexivity.
  - left.
    destruct (Exists_dec (fun item => truthy (trim (str item)) = true)
                         (item :: rest)) as [Hex|Hno].
    { intros it. destruct (truthy (trim (str it))); [now left|now right]. }
    + rewrite nativeItems_throw in H by exact Hex. discriminate.
    + rewrite nativeItems_blank in H; [now inversion H|].
      apply Forall_forall. intros it Hin.
      destruct (truthy (trim (str it))) eqn:E; [|reflexivity].
      exfalso. apply Hno. apply Exists_exists. now exists it.
Qed.

(** X3. On a raster of positive size, when every OCR box starts inside
    the raster, every legacy chunk of a page that the [try] block returns
    has its geometry in percentage units: [x], [y], [w] and [h] lie
    between 0 and 100. *)
Theorem primary_path_chunks_are_percentages :
  forall (env : Env) (canvas : Canvas) (seed pn : nat)
         (pdfPage : option PdfPage) (r : PageResult),
    0 < canvas_width canvas -> 0 < canvas_height canvas ->
    ocrBoxesStartInside env ->
    snd (primaryPath env canvas seed pn pdfPage) = Returns r ->
    Forall (fun c => inPercent (geometry c)) (legacyChunks r).
Proof.
  intros env canvas seed pn pdfPage r Hw Hh Hocr H.
  unfold primaryPath in H.
  destruct (visionCalls env) as [[g s]|status]; [|discriminate].
  destruct (tryOcrConfigs env 0 ocrConfigs) as [ocrData calls] eqn:T.
  simpl in H.
  destruct (createWords canvas seed pn (readTextLayer pdfPage) ocrData)
    as [acc|e] eqn:C; [|discriminate].
  simpl in H. inversion H; subst. clear H.
  assert (Hacc : chunksInPercent acc).
  { destruct (createWords_blank_or_ocr _ _ _ _ _ _ C)
      as [->|(_ & d & -> & ->)]; [constructor|].
    destruct (tryOcrConfigs_data _ _ _ _ _ T) as (n & p & R).
    unfold forEach. apply forEachFrom_invariant; [|constructor].
    intros a w i Hin. apply ocrWordItem_inPercent; try assumption.
    intros b Hb. exact (Hocr n p d w b R Hin Hb). }
  unfold reconcile. cbn [legacyChunks].
  apply (coverageGapRepair_inPercent seed pn g s (mkPageState _ _ _)).
  apply placeholder_inPercent. now apply fallbackCoordinates_inPercent.
Qed.

(** Witness of X3: the page of [envOneWord] on the 1000 by 1000 raster. *)
Lemma primary_path_chunks_are_percentages_witness :
  exists r,
    snd (primaryPath envOneWord raster 0 1 None) = Returns r /\
    Forall (fun c => inPercent (geometry c)) (legacyChunks r).
Proof.
  eexists. split; [reflexivity|].
  apply (primary_path_chunks_are_percentages envOneWord raster 0%nat 1%nat None).
  - reflexivity.
  - reflexivity.
  - intros n p d w b R Hin Hb. simpl in R. inversion R; subst.
    destruct Hin as [<-|[]]. inversion Hb; subst. split; discriminate.
  - reflexivity.
Defined.

(** ** Words, lines and blocks form a tree *)

Lemma buildLinesFrom_words (groups : list (list Word)) :
  forall i, Forall nonEmpty groups -> map words (buildLinesFrom i groups) = groups.
Proof.
  induction groups as [|g rest IH]; intros i H; simpl; [reflexivity|].
  inversion H as [|? ? Hg Hrest]; subst.
  destruct g as [|w ws]; [now elim Hg|].
  simpl. now rewrite IH.
Qed.

Lemma buildBlocksFrom_lines (m : list (string * SemanticInfo))
    (groups : list (list Line)) :
  forall i, Forall nonEmpty groups -> map lines (buildBlocksFrom i m groups) = groups.
Proof.
  induction groups as [|g rest IH]; intros i H; simpl; [reflexivity|].
  inversion H as [|? ? Hg Hrest]; subst.
  destruct g as [|l ls]; [now elim Hg|].
  simpl. now rewrite IH.
Qed.

Lemma basicBlocksFrom_lines (groups : list (list Line)) :
  forall i, Forall nonEmpty groups -> map lines (basicBlocksFrom i groups) = groups.
Proof.
  induction groups as [|g rest IH]; intros i H; simpl; [reflexivity|].
  inversion H as [|? ? Hg Hrest]; subst.
  destruct g as [|l ls]; [now elim Hg|].
  simpl. now rewrite IH.
Qed.

Lemma mapLines_words (groups : list (list Word)) :
  map words (mapLines groups) = groups.
Proof.
  unfold mapLines, forEach.
  assert (G : forall gs i (acc : list Line),
            map words
              (forEachFrom i
                 (fun (acc : list Line) (lineWords : list Word) (lineIndex : nat) =>
                    acc ++ [mkLine (line_ lineIndex) lineWords
                                   (calculateBoundingBox (map bbox lineWords))
                                   lineIndex left_aligned])
                 gs acc)
            = map words acc ++ gs).
  { induction gs as [|g gs IH]; intros i acc; simpl.
    - now rewrite app_nil_r.
    - rewrite IH, map_app. simpl. now rewrite <- app_assoc. }
  now rewrite G.
Qed.

Lemma lines_of_words_partition (ws : list Word) :
  Permutation (flat_map words (buildLines (groupWordsIntoLines ws))) ws.
Proof.
  destruct (groupWordsIntoLines_sorted ws) as [Hne Hc].
  rewrite flat_map_concat_map. unfold buildLines.
  rewrite buildLinesFrom_words by exact Hne.
  rewrite Hc. apply sort_perm.
Qed.

Lemma coverageGapRepair_wellFormed (seed pn : nat)
    (g : GeminiResult) (s : StructureResult) (st : PageState) :
  Permutation (flat_map words (st_lines st)) (acc_words (st_acc st)) ->
  flat_map lines (st_blocks st) = st_lines st ->
  let st' := coverageGapRepair seed pn g s st in
  Permutation (flat_map words (st_lines st')) (acc_words (st_acc st')) /\
  flat_map lines (st_blocks st') = st_lines st'.
Proof.
  intros Hw Hl. unfold coverageGapRepair.
  destruct (gapDetected _ _); [|now split].
  unfold forEach.
  match goal with
  | |- context [forEachFrom 0 _ ?missing st] =>
      destruct (addMissingElements_appends seed pn missing 0%nat st) as (A1 & A2 & A3)
  end.
  cbv zeta. rewrite A1, A2, A3. split.
  - rewrite flat_map_app. now apply Permutation_app_tail.
  - rewrite flat_map_app. now rewrite Hl.
Qed.

Lemma reconcile_wellFormed (canvas : Canvas) (seed pn : nat)
    (g : GeminiResult) (s : StructureResult) (ocrData : option OcrData) (acc : Acc) :
  wellFormedPage (irPage (reconcile canvas seed pn g s ocrData acc)).
Proof.
  unfold wellFormedPage, reconcile.
  cbn [irPage page_lines page_words page_blocks].
  apply (coverageGapRepair_wellFormed seed pn g s (mkPageState _ _ _)).
  - cbn [st_lines st_acc]. apply lines_of_words_partition.
  - cbn [st_lines st_blocks].
    rewrite flat_map_concat_map, buildBlocksFrom_lines.
    + apply groupLinesIntoBlocks_concat.
    + apply groupLinesIntoBlocks_concat.
Qed.

Lemma catchPage_wellFormed (canvas : Canvas) (seed pn : nat) (data : OcrData) :
  wellFormedPage (irPage (catchPage canvas seed pn data)).
Proof.
  unfold wellFormedPage, catchPage.
  cbn [irPage page_lines page_words page_blocks]. split.
  - rewrite flat_map_concat_map, mapLines_words.
    destruct (groupWordsIntoLines_sorted
                (acc_words (catchFallback canvas seed pn data
                              (rawOcrWords canvas seed pn data)))) as [_ Hc].
    rewrite Hc. apply sort_perm.
  - simpl. now rewrite app_nil_r.
Qed.

Lemma basicPage_wellFormed (canvas : Canvas) (seed pn : nat) (data : OcrData) :
  wellFormedPage (irPage (basicPage canvas seed pn data)).
Proof.
  unfold wellFormedPage, basicPage.
  cbn [irPage page_lines page_words page_blocks]. split.
  - apply lines_of_words_partition.
  - rewrite flat_map_concat_map, basicBlocksFrom_lines.
    + apply groupLinesIntoBlocks_concat.
    + apply groupLinesIntoBlocks_concat.
Qed.

(** X4. Whatever path produces a page, its intermediate representation
    is a tree: the words of its lines are the words of the page, each
    once, and the lines of its blocks are the lines of the page, in
    order. *)
Theorem page_is_a_tree :
  forall (env : Env) (canvas : Canvas) (seed pn : nat),
    (forall pdfPage r,
       snd (performGeminiExtraction env canvas seed pn pdfPage) = Returns r ->
       wellFormedPage (irPage r)) /\
    (forall r,
       snd (performEnhancedOCR false env canvas seed pn) = Returns r ->
       wellFormedPage (irPage r)).
Proof.
  intros env canvas seed pn. split.
  - intros pdfPage r H.
    destruct (performGeminiExtraction_returns _ _ _ _ _ _ H)
      as [(g & s & ocrData & calls & acc & _ & _ & _ & ->)|(n & data & _ & ->)].
    + apply reconcile_wellFormed.
    + apply catchPage_wellFormed.
  - intros r H. simpl in H.
    destruct (recognize env 0 basicParams) as [data|e]; [|discriminate].
    inversion H; subst. apply basicPage_wellFormed.
Qed.

(** Witness of X4: the page of [envOneWord]. *)
Lemma page_is_a_tree_witness :
  exists r,
    snd (performGeminiExtraction envOneWord raster 0 1 None) = Returns r /\
    wellFormedPage (irPage r).
Proof.
  eexists. split; [reflexivity|].
  exact (proj1 (page_is_a_tree envOneWord raster 0%nat 1%nat) None _ eq_refl).
Defined.

(** ** Boxes of lines and blocks *)

Lemma covers_trans (a b c : BoundingBox) : covers a b -> covers b c -> covers a c.
Proof.
  unfold covers. intros (A1 & A2 & A3 & A4) (B1 & B2 & B3 & B4).
  repeat split; lra.
Qed.

Lemma calculateBoundingBox_covers (boxes : list BoundingBox) (b : BoundingBox) :
  In b boxes -> covers (calculateBoundingBox boxes) b.
Proof.
  destruct boxes as [|h t]; [intros []|]. intros Hin.
  pose proof (Math_min_minimum (x h) (map x t)) as [_ Hx].
  pose proof (Math_min_minimum (y h) (map y t)) as [_ Hy].
  pose proof (Math_max_maximum (x h + width h) (map (fun b => x b + width b) t))
    as [_ HX].
  pose proof (Math_max_maximum (y h + height h) (map (fun b => y b + height b) t))
    as [_ HY].
  rewrite Forall_forall in Hx, Hy, HX, HY.
  specialize (Hx (x b) (in_map x (h :: t) b Hin)).
  specialize (Hy (y b) (in_map y (h :: t) b Hin)).
  specialize (HX _ (in_map (fun b => x b + width b) (h :: t) b Hin)).
  specialize (HY _ (in_map (fun b => y b + height b) (h :: t) b Hin)).
  unfold covers. simpl in *. repeat split; lra.
Qed.

Lemma buildLinesFrom_hold (groups : list (list Word)) :
  forall i, Forall lineHoldsWords (buildLinesFrom i groups).
Proof.
  induction groups as [|g rest IH]; intros i; simpl; [constructor|].
  destruct g as [|w ws]; [apply IH|].
  constructor; [|apply IH].
  unfold lineHoldsWords. cbn [words line_bbox].
  apply Forall_forall. intros w' Hin.
  apply calculateBoundingBox_covers. now apply in_map.
Qed.

Lemma block_nests (id : BlockId) (t : BlockType) (ls : list Line) (c : Q)
    (role : option string) (order : nat) :
  Forall lineHoldsWords ls ->
  boxesNest (mkBlock id t (calculateBoundingBox (map line_bbox ls)) ls c role order).
Proof.
  intros H. unfold boxesNest. cbn [lines block_bbox].
  apply Forall_forall. intros l Hl.
  assert (C : covers (calculateBoundingBox (map line_bbox ls)) (line_bbox l)).
  { apply calculateBoundingBox_covers. now apply in_map. }
  split; [exact C|].
  rewrite Forall_forall in H. specialize (H l Hl). unfold lineHoldsWords in H.
  eapply Forall_impl; [|exact H].
  intros w Hw. split; [exact Hw|]. eapply covers_trans; eassumption.
Qed.

Lemma buildBlocksFrom_nest (m : list (string * SemanticInfo))
    (groups : list (list Line)) :
  forall i, Forall (Forall lineHoldsWords) groups ->
            Forall boxesNest (buildBlocksFrom i m groups).
Proof.
  induction groups as [|g rest IH]; intros i H; simpl; [constructor|].
  inversion H as [|? ? Hg Hrest]; subst.
  destruct g as [|l ls]; [now apply IH|].
  constructor; [|now apply IH]. now apply block_nests.
Qed.

Lemma basicBlocksFrom_nest (groups : list (list Line)) :
  forall i, Forall (Forall lineHoldsWords) groups ->
            Forall boxesNest (basicBlocksFrom i groups).
Proof.
  induction groups as [|g rest IH]; intros i H; simpl; [constructor|].
  inversion H as [|? ? Hg Hrest]; subst.
  destruct g as [|l ls]; [now apply IH|].
  constructor; [|now apply IH]. now apply block_nests.
Qed.

Lemma groups_hold (ls : list Line) :
  Forall lineHoldsWords ls ->
  Forall (Forall lineHoldsWords) (groupLinesIntoBlocks ls).
Proof.
  intros H. destruct (groupLinesIntoBlocks_concat ls) as [_ Hc].
  rewrite <- Hc in H. revert H.
  generalize (groupLinesIntoBlocks ls) as groups.
  induction groups as [|g rest IH]; simpl; intros H; [constructor|].
  apply Forall_app in H as [H1 H2]. constructor; [exact H1|now apply IH].
Qed.

(** X5. The boxes nest: in the blocks that the grouping builds from a
    word array (with or without semantic labels), the box of each line
    holds the box of each of its words, and the box of the block holds
    the boxes of its lines and of their words. *)
Theorem grouped_boxes_nest :
  forall (ws : list Word) (m : list (string * SemanticInfo)),
    Forall boxesNest (buildBlocksFrom 0 m (blocksOf ws)) /\
    Forall boxesNest (basicBlocksFrom 0 (blocksOf ws)).
Proof.
  intros ws m. unfold blocksOf, linesOf.
  pose proof (groups_hold _ (buildLinesFrom_hold (groupWordsIntoLines ws) 0)) as H.
  split; [now apply buildBlocksFrom_nest|now apply basicBlocksFrom_nest].
Qed.

(** ** What the scans keep together and what they cut *)

Lemma Sorted_snoc {A : Type} (R : A -> A -> Prop) (l : list A) (a b : A) :
  Sorted R (l ++ [a]) -> R a b -> Sorted R ((l ++ [a]) ++ [b]).
Proof.
  induction l as [|c l IH]; intros H Hab; simpl in *.
  - repeat constructor. exact Hab.
  - inversion H as [|? ? Hs Hh]; subst.
    constructor; [now apply IH|].
    destruct l; simpl in *; inversion Hh; subst; now constructor.
Qed.

Lemma breaksAfter_extend {A : Type} (R : A -> A -> Prop)
    (ls : list (list A)) (c : list A) (w : A) :
  c <> [] -> Sorted (breaksAfter R) (ls ++ [c]) ->
  Sorted (breaksAfter R) (ls ++ [c ++ [w]]).
Proof.
  intros Hc. induction ls as [|g ls IH]; intros H; simpl in *.
  - repeat constructor.
  - inversion H as [|? ? Hs Hh]; subst.
    constructor; [now apply IH|].
    destruct ls as [|g' ls]; simpl in *.
    + inversion Hh as [|? ? Hb]; subst. constructor.
      destruct Hb as (l & a & b & r & E1 & E2 & N).
      exists l, a, b, (r ++ [w]). subst. repeat split; assumption.
    + inversion Hh; subst. now constructor.
Qed.

Lemma scanWords_keeps_and_cuts (rest : list Word) :
  forall lines cur a,
    Forall (Sorted closeRows) lines -> Sorted closeRows (cur ++ [a]) ->
    Sorted (breaksAfter closeRows) (lines ++ [cur ++ [a]]) ->
    let '(lines', cur') := scanWords lines (cur ++ [a]) rest in
    Forall (Sorted closeRows) lines' /\ Sorted closeRows cur' /\
    Sorted (breaksAfter closeRows) (lines' ++ [cur']).
Proof.
  induction rest as [|w rest IH]; intros lines cur a Hl Hc Hb; simpl.
  - now repeat split.
  - rewrite last_snoc. destruct (sameLine w a) eqn:E.
    + apply sameLine_true in E.
      apply (IH lines (cur ++ [a]) w Hl).
      * now apply Sorted_snoc.
      * apply breaksAfter_extend; [apply nonEmpty_snoc|exact Hb].
    + apply sameLine_false in E.
      apply (IH (lines ++ [cur ++ [a]]) [] w).
      * apply Forall_app. split; [exact Hl|now constructor].
      * repeat constructor.
      * apply Sorted_snoc; [exact Hb|].
        exists cur, a, w, []. now repeat split.
Qed.


Lemma startsNewBlock_true (l a : Line) : startsNewBlock l a = true <-> ~ smallGap a l.
Proof.
  unfold startsNewBlock, smallGap. rewrite Qltb_lt. split.
  - intros H. now apply Qlt_not_le.
  - intros H. now apply Qnot_le_lt.
Qed.

Lemma startsNewBlock_false (l a : Line) : startsNewBlock l a = false <-> smallGap a l.
Proof. unfold startsNewBlock, smallGap. apply Qltb_ge. Qed.

Lemma scanLines_keeps_and_cuts (rest : list Line) :
  forall blocks cur a,
    Forall (Sorted smallGap) blocks -> Sorted smallGap (cur ++ [a]) ->
    Sorted (breaksAfter smallGap) (blocks ++ [cur ++ [a]]) ->
    let '(blocks', cur') := scanLines blocks (cur ++ [a]) rest in
    Forall (Sorted smallGap) blocks' /\ Sorted smallGap cur' /\
    Sorted (breaksAfter smallGap) (blocks' ++ [cur']).
Proof.
  induction rest as [|l rest IH]; intros blocks cur a Hl Hc Hb; simpl.
  - now repeat split.
  - rewrite last_snoc. destruct (startsNewBlock l a) eqn:E.
    + apply startsNewBlock_true in E.
      apply (IH (blocks ++ [cur ++ [a]]) [] l).
      * apply Forall_app. split; [exact Hl|now constructor].
      * repeat constructor.
      * apply Sorted_snoc; [exact Hb|].
        exists cur, a, l, []. now repeat split.
    + apply startsNewBlock_false in E.
      apply (IH blocks (cur ++ [a]) l Hl).
      * now apply Sorted_snoc.
      * apply breaksAfter_extend; [apply nonEmpty_snoc|exact Hb].
Qed.


(** ** Reading order *)



Lemma StronglySorted_lt_app (l1 l2 : list nat) (n : nat) :
  StronglySorted lt l1 -> StronglySorted lt l2 ->
  Forall (fun a => a < n)%nat l1 -> Forall (fun b => n <= b)%nat l2 ->
  StronglySorted lt (l1 ++ l2).
Proof.
  induction l1 as [|a l1 IH]; intros S1 S2 F1 F2; simpl; [exact S2|].
  inversion S1 as [|? ? S1' Ha]; subst.
  inversion F1 as [|? ? Fa F1']; subst.
  constructor; [now apply IH|].
  apply Forall_app. split; [exact Ha|].
  eapply Forall_impl; [|exact F2]. intros b Hb. simpl in Hb. lia.
Qed.

Lemma StronglySorted_lt_seq (i n : nat) : StronglySorted lt (seq i n).
Proof.
  revert i. induction n as [|n IH]; intros i; simpl; constructor; [apply IH|].
  apply Forall_forall. intros b Hb. apply in_seq in Hb. lia.
Qed.

Lemma buildLinesFrom_orders (groups : list (list Word)) :
  forall i, Forall nonEmpty groups ->
    map line_readingOrder (buildLinesFrom i groups) = seq i (List.length groups).
Proof.
  induction groups as [|g rest IH]; intros i H; simpl; [reflexivity|].
  inversion H as [|? ? Hg Hrest]; subst.
  destruct g as [|w ws]; [now elim Hg|].
  simpl. now rewrite IH.
Qed.

Lemma buildBlocksFrom_orders (m : list (string * SemanticInfo))
    (groups : list (list Line)) :
  forall i, Forall nonEmpty groups ->
    map block_readingOrder (buildBlocksFrom i m groups) = seq i (List.length groups).
Proof.
  induction groups as [|g rest IH]; intros i H; simpl; [reflexivity|].
  inversion H as [|? ? Hg Hrest]; subst.
  destruct g as [|l ls]; [now elim Hg|].
  simpl. now rewrite IH.
Qed.

Lemma basicBlocksFrom_orders (groups : list (list Line)) :
  forall i, Forall nonEmpty groups ->
    map block_readingOrder (basicBlocksFrom i groups) = seq i (List.length groups).
Proof.
  induction groups as [|g rest IH]; intros i H; simpl; [reflexivity|].
  inversion H as [|? ? Hg Hrest]; subst.
  destruct g as [|l ls]; [now elim Hg|].
  simpl. now rewrite IH.
Qed.

Lemma mapLines_orders (groups : list (list Word)) :
  map line_readingOrder (mapLines groups) = seq 0 (List.length groups).
Proof.
  unfold mapLines, forEach.
  assert (G : forall gs i (acc : list Line),
            map line_readingOrder
              (forEachFrom i
                 (fun (acc : list Line) (lineWords : list Word) (lineIndex : nat) =>
                    acc ++ [mkLine (line_ lineIndex) lineWords
                                   (calculateBoundingBox (map bbox lineWords))
                                   lineIndex left_aligned])
                 gs acc)
            = map line_readingOrder acc ++ seq i (List.length gs)).
  { induction gs as [|g gs IH]; intros i acc; simpl.
    - now rewrite app_nil_r.
    - rewrite IH, map_app. simpl. now rewrite <- app_assoc. }
  now rewrite G.
Qed.

Lemma fallbackBlocks_orders (missing : list StructureElement) :
  forall i L B,
    let added := fallbackBlocksFrom i L B missing in
    StronglySorted lt (map line_readingOrder (flat_map lines added)) /\
    Forall (fun o => L + i <= o)%nat
           (map line_readingOrder (flat_map lines added)) /\
    StronglySorted lt (map block_readingOrder added) /\
    Forall (fun o => B + i <= o)%nat (map block_readingOrder added).
Proof.
  induction missing as [|e rest IH]; intros i L B; simpl.
  - repeat split; constructor.
  - destruct (IH (S i) (S L) (S B)) as (A1 & A2 & A3 & A4).
    repeat split.
    + constructor; [exact A1|].
      eapply Forall_impl; [|exact A2]. intros o Ho. simpl in Ho. lia.
    + constructor; [lia|].
      eapply Forall_impl; [|exact A2]. intros o Ho. simpl in Ho. lia.
    + constructor; [exact A3|].
      eapply Forall_impl; [|exact A4]. intros o Ho. simpl in Ho. lia.
    + constructor; [lia|].
      eapply Forall_impl; [|exact A4]. intros o Ho. simpl in Ho. lia.
Qed.

Lemma seq_below (n : nat) : Forall (fun a => a < n)%nat (seq 0 n).
Proof. apply Forall_forall. intros a Ha. apply in_seq in Ha. lia. Qed.

Lemma reconcile_orders (canvas : Canvas) (seed pn : nat)
    (g : GeminiResult) (s : StructureResult) (ocrData : option OcrData) (acc : Acc) :
  let p := irPage (reconcile canvas seed pn g s ocrData acc) in
  StronglySorted lt (map line_readingOrder (page_lines p)) /\
  StronglySorted lt (map block_readingOrder (page_blocks p)).
Proof.
  unfold reconcile. cbn [irPage page_lines page_blocks].
  set (ws := acc_words (placeholder seed pn
                          (fallbackCoordinates canvas seed pn ocrData g acc))).
  set (ls := buildLines (groupWordsIntoLines ws)).
  set (bs := buildBlocksFrom 0 (buildSemanticMap (elements s))
                             (groupLinesIntoBlocks ls)).
  assert (El : map line_readingOrder ls
               = seq 0 (List.length (groupWordsIntoLines ws))).
  { apply buildLinesFrom_orders. apply groupWordsIntoLines_sorted. }
  assert (Eb : map block_readingOrder bs
               = seq 0 (List.length (groupLinesIntoBlocks ls))).
  { apply buildBlocksFrom_orders. apply groupLinesIntoBlocks_concat. }
  assert (Ll : List.length ls = List.length (groupWordsIntoLines ws)).
  { rewrite <- (length_map line_readingOrder), El. apply length_seq. }
  assert (Lb : List.length bs = List.length (groupLinesIntoBlocks ls)).
  { rewrite <- (length_map block_readingOrder), Eb. apply length_seq. }
  unfold coverageGapRepair.
  destruct (gapDetected _ _).
  - unfold forEach.
    match goal with
    | |- context [forEachFrom 0 _ ?missing ?st] =>
        destruct (addMissingElements_appends seed pn missing 0%nat st)
          as (A1 & A2 & _);
        destruct (fallbackBlocks_orders missing 0 (List.length ls) (List.length bs))
          as (F1 & F2 & F3 & F4)
    end.
    cbv zeta in *. cbn [st_lines st_blocks] in A1, A2.
    rewrite Nat.add_0_r in F2, F4.
    rewrite A1, A2, !map_app, El, Eb. split.
    + apply (StronglySorted_lt_app _ _ (List.length ls)).
      * apply StronglySorted_lt_seq.
      * exact F1.
      * rewrite Ll. apply seq_below.
      * exact F2.
    + apply (StronglySorted_lt_app _ _ (List.length bs)).
      * apply StronglySorted_lt_seq.
      * exact F3.
      * rewrite Lb. apply seq_below.
      * exact F4.
  - cbn [st_lines st_blocks]. rewrite El, Eb.
    split; apply StronglySorted_lt_seq.
Qed.

(** X9. On every path the reading orders of the lines of a page, and
    those of its blocks, increase strictly along the arrays; no two lines
    and no two blocks of a page share a reading order, also when the gap
    repair has appended lines and blocks. *)
Theorem reading_orders_increase :
  forall (env : Env) (canvas : Canvas) (seed pn : nat),
    (forall pdfPage r,
       snd (performGeminiExtraction env canvas seed pn pdfPage) = Returns r ->
       StronglySorted lt (map line_readingOrder (page_lines (irPage r))) /\
       StronglySorted lt (map block_readingOrder (page_blocks (irPage r)))) /\
    (forall r,
       snd (performEnhancedOCR false env canvas seed pn) = Returns r ->
       StronglySorted lt (map line_readingOrder (page_lines (irPage r))) /\
       StronglySorted lt (map block_readingOrder (page_blocks (irPage r)))).
Proof.
  intros env canvas seed pn. split.
  - intros pdfPage r H.
    destruct (performGeminiExtraction_returns _ _ _ _ _ _ H)
      as [(g & s & ocrData & calls & acc & _ & _ & _ & ->)|(n & data & _ & ->)].
    + apply reconcile_orders.
    + unfold catchPage. cbn [irPage page_lines page_blocks]. split.
      * rewrite mapLines_orders. apply StronglySorted_lt_seq.
      * repeat constructor.
  - intros r H. simpl in H.
    destruct (recognize env 0 basicParams) as [data|e]; [|discriminate].
    inversion H; subst. unfold basicPage. cbn [irPage page_lines page_blocks].
    split.
    + unfold buildLines. rewrite buildLinesFrom_orders.
      * apply StronglySorted_lt_seq.
      * apply groupWordsIntoLines_sorted.
    + rewrite basicBlocksFrom_orders.
      * apply StronglySorted_lt_seq.
      * apply groupLinesIntoBlocks_concat.
Qed.

(** Witness of X9: the page of [envOneWord]. *)
Lemma reading_orders_increase_witness :
  exists r,
    snd (performGeminiExtraction envOneWord raster 0 1 None) = Returns r /\
    StronglySorted lt (map line_readingOrder (page_lines (irPage r))).
Proof.
  eexists. split; [reflexivity|].
  exact (proj1 (proj1 (reading_orders_increase envOneWord raster 0%nat 1%nat)
                  None _ eq_refl)).
Defined.

(** ** Semantic labels *)

Lemma findSemantic_confidence (blockText : string)
    (entries : list (string * SemanticInfo)) :
  0.7 <= sem_confidence (findSemantic blockText entries).
Proof.
  induction entries as [|[k v] rest IH]; simpl; [lra|].
  destruct (includes blockText k || includes k blockText)%bool; [|exact IH].
  simpl. destruct (Qmax_cases (sem_confidence v) 0.7) as [[E H]|[E H]];
    rewrite E; lra.
Qed.

Lemma buildBlocksFrom_labelled (s : StructureResult)
    (m : list (string * SemanticInfo)) (groups : list (list Line)) :
  forall i, Forall (labelled s) (buildBlocksFrom i m groups).
Proof.
  induction groups as [|g rest IH]; intros i; simpl; [constructor|].
  destruct g as [|l ls]; [apply IH|].
  constructor; [|apply IH].
  unfold labelled. cbn [block_id block_confidence].
  apply findSemantic_confidence.
Qed.

Lemma fallbackBlocksFrom_labelled (s : StructureResult)
    (missing : list StructureElement) :
  (forall e, In e missing -> In e (elements s)) ->
  forall i L B, Forall (labelled s) (fallbackBlocksFrom i L B missing).
Proof.
  induction missing as [|e rest IH]; intros Hin i L B; simpl; [constructor|].
  constructor.
  - unfold labelled. simpl. exists e. repeat split. apply Hin. now left.
  - apply IH. intros e' He'. apply Hin. now right.
Qed.

(** X10. On a page that the [try] block returns, every block built
    from the geometry has a confidence of at least 0.7, whatever the
    vision model reported, and every block appended by the gap repair
    carries the confidence, the role and the mapped type of one of the
    structural elements. *)
Theorem primary_blocks_are_labelled :
  forall (env : Env) (canvas : Canvas) (seed pn : nat)
         (pdfPage : option PdfPage) (g : GeminiResult) (s : StructureResult)
         (r : PageResult),
    visionCalls env = Returns (g, s) ->
    snd (primaryPath env canvas seed pn pdfPage) = Returns r ->
    Forall (labelled s) (page_blocks (irPage r)).
Proof.
  intros env canvas seed pn pdfPage g s r Hv H.
  unfold primaryPath in H. rewrite Hv in H.
  destruct (tryOcrConfigs env 0 ocrConfigs) as [ocrData calls].
  simpl in H.
  destruct (createWords canvas seed pn (readTextLayer pdfPage) ocrData)
    as [acc|e]; [|discriminate].
  simpl in H. inversion H; subst. clear H.
  unfold reconcile. cbn [irPage page_blocks].
  unfold coverageGapRepair.
  destruct (gapDetected _ _).
  - unfold forEach.
    match goal with
    | |- context [forEachFrom 0 _ ?missing ?st] =>
        destruct (addMissingElements_appends seed pn missing 0%nat st)
          as (A1 & _ & _)
    end.
    cbv zeta in A1. rewrite A1. cbn [st_blocks].
    apply Forall_app. split; [apply buildBlocksFrom_labelled|].
    apply fallbackBlocksFrom_labelled.
    intros e He. apply filter_In in He. tauto.
  - cbn [st_blocks]. apply buildBlocksFrom_labelled.
Qed.

(** Witness of X10: the page of [envOneWord]. *)
Lemma primary_blocks_are_labelled_witness :
  exists r,
    snd (primaryPath envOneWord raster 0 1 None) = Returns r /\
    Forall (labelled (mkStructure [mkElement "paragraph" "Total" 0.9] "Total"))
           (page_blocks (irPage r)).
Proof.
  eexists. split; [reflexivity|].
  exact (primary_blocks_are_labelled envOneWord raster 0%nat 1%nat None
           _ _ _ eq_refl eq_refl).
Defined.

(** *** The map from content to label *)

Lemma mapSet_keys (k : string) (v : SemanticInfo) (m : list (string * SemanticInfo)) :
  NoDup (map fst m) ->
  NoDup (map fst (mapSet k v m)) /\
  In (k, v) (mapSet k v m) /\
  (forall k' v', In (k', v') (mapSet k v m) ->
                 (k' = k /\ v' = v) \/ (k' <> k /\ In (k', v') m)) /\
  (forall k' v', k' <> k -> In (k', v') m -> In (k', v') (mapSet k v m)).
Proof.
  induction m as [|[k0 v0] r IH]; intros Hnd; simpl.
  - repeat split.
    + repeat constructor. intros [].
    + now left.
    + intros k' v' [E|[]]. inversion E; subst. now left.
    + intros k' v' _ [].
  - inversion Hnd as [|? ? Hnot Hr]; subst.
    destruct (String.eqb_spec k0 k) as [->|Hne].
    + repeat split.
      * simpl. now constructor.
      * now left.
      * intros k' v' [E|Hin].
        -- inversion E; subst. now left.
        -- right. split; [|now right].
           intros ->. apply Hnot. apply (in_map fst) in Hin. exact Hin.
      * intros k' v' Hk [E|Hin]; [inversion E; subst; now elim Hk|now right].
    + destruct (IH Hr) as (I1 & I2 & I3 & I4). repeat split.
      * simpl. constructor; [|exact I1].
        intros Hin. apply in_map_iff in Hin as [[k' v'] [E Hin]].
        simpl in E. subst k'.
        destruct (I3 _ _ Hin) as [[E _]|[_ Hin']]; [now elim Hne|].
        apply Hnot. apply (in_map fst) in Hin'. exact Hin'.
      * now right.
      * intros k' v' [E|Hin].
        -- inversion E; subst. right. split; [exact Hne|now left].
        -- destruct (I3 _ _ Hin) as [?|[? ?]]; [now left|].
           right. split; [assumption|now right].
      * intros k' v' Hk [E|Hin]; [now left|]. right. now apply I4.
Qed.

Lemma buildSemanticMap_snoc (es : list StructureElement) (e : StructureElement) :
  buildSemanticMap (es ++ [e])
  = if truthy (trim (content e))
    then mapSet (normalizedContent e) (infoOf e) (buildSemanticMap es)
    else buildSemanticMap es.
Proof.
  unfold buildSemanticMap. rewrite fold_left_app. reflexivity.
Qed.

(** X11. The map from content to label has one entry per distinct
    normalised content; every entry comes from an element with content;
    and the entry of a content carries the type and confidence of the
    last element with that content. *)
Theorem semantic_map_keeps_last_label :
  forall es : list StructureElement,
    NoDup (map fst (buildSemanticMap es)) /\
    (forall k v, In (k, v) (buildSemanticMap es) ->
       exists e, In e es /\ truthy (trim (content e)) = true /\
                 k = normalizedContent e /\ v = infoOf e) /\
    (forall before e after,
       es = before ++ e :: after ->
       truthy (trim (content e)) = true ->
       (forall e', In e' after -> truthy (trim (content e')) = true ->
                   normalizedContent e' <> normalizedContent e) ->
       In (normalizedContent e, infoOf e) (buildSemanticMap es)).
Proof.
  intros es.
  induction es as [|e es IH] using rev_ind.
  - repeat split; [constructor|intros k v []|].
    intros before e after E. destruct before; discriminate.
  - destruct IH as (I1 & I2 & I3).
    rewrite buildSemanticMap_snoc.
    destruct (truthy (trim (content e))) eqn:T.
    + destruct (mapSet_keys (normalizedContent e) (infoOf e) _ I1)
        as (M1 & M2 & M3 & M4).
      repeat split; [exact M1| |].
      * intros k v Hin. destruct (M3 _ _ Hin) as [[-> ->]|[_ Hin']].
        -- exists e. repeat split; [apply in_or_app; right; now left|exact T].
        -- destruct (I2 _ _ Hin') as (e0 & H0 & H1 & H2 & H3).
           exists e0. repeat split; try assumption.
           apply in_or_app. now left.
      * intros before e0 after E T0 Hafter.
        destruct after as [|a' after'] using rev_ind.
        -- apply app_inj_tail in E as [_ <-]. exact M2.
        -- clear IHafter'.
           rewrite app_comm_cons, app_assoc in E.
           apply app_inj_tail in E as [E <-].
           apply M4.
           ++ intros Eq. apply (Hafter e); [|exact T|now symmetry].
              apply in_or_app. right. now left.
           ++ apply (I3 before e0 after' E T0).
              intros e' He'. apply Hafter. apply in_or_app. now left.
    + repeat split; [exact I1| |].
      * intros k v Hin. destruct (I2 _ _ Hin) as (e0 & H0 & H1 & H2 & H3).
        exists e0. repeat split; try assumption. apply in_or_app. now left.
      * intros before e0 after E T0 Hafter.
        destruct after as [|a' after'] using rev_ind.
        -- apply app_inj_tail in E as [_ <-]. congruence.
        -- clear IHafter'.
           rewrite app_comm_cons, app_assoc in E.
           apply app_inj_tail in E as [E <-].
           apply (I3 before e0 after' E T0).
           intros e' He'. apply Hafter. apply in_or_app. now left.
Qed.

(** Witness of X11: the later label of the content "summary" is kept. *)
Lemma semantic_map_keeps_last_label_witness :
  In (normalizedContent elementAsHeader, infoOf elementAsHeader)
     (buildSemanticMap [elementAsTitle; elementAsHeader]).
Proof.
  apply (proj2 (proj2 (semantic_map_keeps_last_label
                         [elementAsTitle; elementAsHeader]))
           [elementAsTitle] elementAsHeader []).
  - reflexivity.
  - reflexivity.
  - intros e' [].
Defined.

(** ** OCR words used directly *)

Lemma ocrWordItem_words (canvas : Canvas) (seed pn : nat)
    (acc : Acc) (w : OcrWord) (i : nat) :
  exists new,
    acc_words (ocrWordItem canvas seed pn acc w i) = acc_words acc ++ new /\
    map text new = map ow_text (filter usableWord [w]) /\
    map confidence new
    = map (fun w => ow_confidence w / 100) (filter usableWord [w]) /\
    Forall (fun w => clampedBox (bbox w)) new.
Proof.
  unfold ocrWordItem, usableWord. simpl.
  destruct (ow_bbox w) as [b|].
  - destruct (truthy (trim (ow_text w))); simpl.
    + eexists [_]. split; [reflexivity|]. repeat split.
      constructor; [|constructor].
      unfold clampedBox. simpl.
      pose proof (unit_interval (x0 b / canvas_width canvas)).
      pose proof (unit_interval (y0 b / canvas_height canvas)).
      split; [lra|]. split; [lra|].
      split; apply Q.le_max_l.
    + exists []. rewrite app_nil_r. repeat split. constructor.
  - rewrite andb_false_r. exists []. rewrite app_nil_r. repeat split. constructor.
Qed.

Lemma ocrWordItems_words (canvas : Canvas) (seed pn : nat) (ws : list OcrWord) :
  forall i acc,
    let acc' := forEachFrom i (ocrWordItem canvas seed pn) ws acc in
    exists new,
      acc_words acc' = acc_words acc ++ new /\
      map text new = map ow_text (filter usableWord ws) /\
      map confidence new
      = map (fun w => ow_confidence w / 100) (filter usableWord ws) /\
      Forall (fun w => clampedBox (bbox w)) new.
Proof.
  induction ws as [|w ws IH]; intros i acc.
  - exists []. simpl. rewrite app_nil_r. repeat split. constructor.
  - destruct (ocrWordItem_words canvas seed pn acc w i) as (n1 & A1 & A2 & A3 & A4).
    destruct (IH (S i) (ocrWordItem canvas seed pn acc w i))
      as (n2 & E1 & E2 & E3 & E4).
    exists (n1 ++ n2). cbn [forEachFrom]. cbv zeta in *.
    change (w :: ws) with ([w] ++ ws).
    rewrite filter_app, !map_app, E1, A1, A2, A3, E2, E3, <- app_assoc.
    repeat split. apply Forall_app. now split.
Qed.

(** X12. When the text layer has no item and a configuration of the
    OCR ladder yields at least one usable word, the words of the page
    start with one word per usable OCR word, in order, with the same text
    and the reported confidence divided by 100, each in a box clamped to
    the page; no placeholder is emitted, and anything after these words
    was appended by the gap repair. *)
Theorem ocr_words_are_used_directly :
  forall (env : Env) (canvas : Canvas) (seed pn : nat) (pdfPage : option PdfPage)
         (g : GeminiResult) (s : StructureResult) (d : OcrData)
         (calls : list OcrParams),
    visionCalls env = Returns (g, s) ->
    readTextLayer pdfPage = [] ->
    tryOcrConfigs env 0 ocrConfigs = (Some d, calls) ->
    filter usableWord (wordsOfData d) <> [] ->
    exists r recognised extra,
      snd (primaryPath env canvas seed pn pdfPage) = Returns r /\
      page_words (irPage r) = recognised ++ extra /\
      map text recognised = map ow_text (filter usableWord (wordsOfData d)) /\
      map confidence recognised
      = map (fun w => ow_confidence w / 100) (filter usableWord (wordsOfData d)) /\
      Forall (fun w => clampedBox (bbox w)) recognised /\
      chunkTexts r = wordTexts r /\
      (gapDetected (orElseS (completeText s) (gemini_text g))
                   (extractedTextOf recognised) = false -> extra = []).
Proof.
  intros env canvas seed pn pdfPage g s d calls Hv Hn Ht Hu.
  unfold primaryPath. rewrite Hv, Hn, Ht. simpl.
  assert (Ew : forEach (ocrWordItem canvas seed pn) (wordsOfData d) emptyAcc
               = match ocr_words d with
                 | Some ws => forEach (ocrWordItem canvas seed pn) ws emptyAcc
                 | None => emptyAcc
                 end).
  { unfold wordsOfData. now destruct (ocr_words d). }
  destruct (ocrWordItems_words canvas seed pn (wordsOfData d) 0%nat emptyAcc)
    as (new & E1 & E2 & E3 & E4).
  cbv zeta in E1. fold (forEach (ocrWordItem canvas seed pn) (wordsOfData d) emptyAcc)
    in E1. simpl in E1.
  set (acc := forEach (ocrWordItem canvas seed pn) (wordsOfData d) emptyAcc) in *.
  assert (Hnew : new <> []).
  { intros ->. apply Hu. destruct (filter usableWord (wordsOfData d));
      [reflexivity|discriminate]. }
  assert (C : match ocr_words d with
              | Some ws => Returns (forEach (ocrWordItem canvas seed pn) ws emptyAcc)
              | None => Returns emptyAcc
              end = Returns (E := JsError) acc).
  { rewrite Ew. now destruct (ocr_words d). }
  rewrite C. simpl.
  assert (F : fallbackCoordinates canvas seed pn (Some d) g acc = acc).
  { unfold fallbackCoordinates. rewrite E1.
    destruct new; [now elim Hnew|reflexivity]. }
  assert (P : placeholder seed pn acc = acc).
  { unfold placeholder. rewrite E1. destruct new; [now elim Hnew|reflexivity]. }
  assert (A : alignedWith [] acc).
  { unfold acc, forEach. apply forEachFrom_invariant; [|reflexivity].
    intros s0 a i _. apply ocrWordItem_aligned. }
  unfold reconcile. rewrite F, P.
  unfold coverageGapRepair. cbn [st_acc st_lines st_blocks]. rewrite E1.
  destruct (gapDetected _ _) eqn:G.
  - unfold forEach.
    match goal with
    | |- context [forEachFrom 0 _ ?missing ?st] =>
        destruct (addMissingElements_appends seed pn missing 0%nat st)
          as (_ & _ & A3);
        pose proof (forEachFrom_invariant
                      (fun q => alignedWith [] (st_acc q))
                      (addMissingElement seed pn) missing
                      (fun s0 a i _ => addMissingElement_aligned [] seed pn s0 a i)
                      0%nat st A) as A4
    end.
    cbv zeta in A3. cbn [st_acc st_lines st_blocks] in A3. rewrite E1 in A3.
    eexists. exists new. eexists. split; [reflexivity|].
    cbn [irPage page_words]. split; [exact A3|].
    repeat (split; [assumption|]).
    intros G'. rewrite G in G'. discriminate.
  - eexists. exists new, []. split; [reflexivity|].
    cbn [irPage page_words st_acc]. rewrite app_nil_r.
    split; [exact E1|]. repeat (split; [assumption|]).
    intros _. reflexivity.
Qed.

(** Witness of X12: the page of [envOneWord]. *)
Lemma ocr_words_are_used_directly_witness :
  exists r recognised extra,
    snd (primaryPath envOneWord raster 0 1 None) = Returns r /\
    page_words (irPage r) = recognised ++ extra /\
    map text recognised = ["Total"%string].
Proof.
  destruct (ocr_words_are_used_directly envOneWord raster 0%nat 1%nat None
              (mkGeminiResult "Total" 0.95)
              (mkStructure [mkElement "paragraph" "Total" 0.9] "Total")
              ocrOneWord [mkOcrParams (Some SINGLE_BLOCK) (Some 300%nat)]
              eq_refl eq_refl eq_refl ltac:(discriminate))
    as (r & recognised & extra & H1 & H2 & H3 & _).
  exists r, recognised, extra. repeat split; assumption.
Defined.

(** ** Synthetic positions *)

Lemma forEachFrom_indexed {A St : Type} (P : St -> Prop)
    (f : St -> A -> nat -> St) (l : list A) :
  forall i s,
    (forall s a k, nth_error l k = Some a -> P s -> P (f s a (i + k)%nat)) ->
    P s -> P (forEachFrom i f l s).
Proof.
  induction l as [|a r IH]; intros i s Hf Hs; simpl; [exact Hs|].
  apply IH.
  - intros s' a' k Hk. replace (S i + k)%nat with (i + S k)%nat by lia.
    now apply Hf.
  - pose proof (Hf s a 0%nat eq_refl Hs) as H.
    now rewrite Nat.add_0_r in H.
Qed.

Lemma flowWord_step (c : Q) (seed pn : nat) (cx cy : Q) (acc : Acc)
    (wordText : string) (i : nat) :
  0.06 <= cx -> 0.08 <= cy -> cy + 0.025 <= 0.92 ->
  exists cx' cy' w,
    flowWord c seed pn (cx, cy, acc) wordText i
    = (cx', cy',
       pushChunk seed pn (pushWord acc w) wordText
         (mkGeometry (clamp 0 (x (bbox w) * 100) 100)
                     (clamp 0 (y (bbox w) * 100) 100)
                     (clamp 0.5 (width (bbox w) * 100) 100)
                     (clamp 1.0 (height (bbox w) * 100) 100))) /\
    0.06 <= cx' /\ 0.08 <= cy' /\ cy' + 0.025 <= 0.92 /\
    text w = wordText /\ confidence w = c /\ insideFlowMargins w.
Proof.
  intros Hx Hy Hy'. unfold flowWord. cbv zeta.
  set (wordWidth := Qmax (lengthQ wordText * ((1 - 0.06 - 0.06) / (12 * 7)))
                         ((1 - 0.06 - 0.06) * 0.02)).
  assert (Hw : 0 < wordWidth).
  { pose proof (Q.le_max_r (lengthQ wordText * ((1 - 0.06 - 0.06) / (12 * 7)))
                           ((1 - 0.06 - 0.06) * 0.02)) as H.
    fold wordWidth in H. lra. }
  set (wrap := (Qltb (1 - 0.06) (cx + wordWidth)
                || (Nat.ltb 0 i && Nat.eqb (i mod 12) 0))%bool).
  set (cx1 := if wrap then 0.06 else cx).
  set (cy1 := if wrap then cy + 0.025 * 1.2 else cy).
  assert (Hx1 : 0.06 <= cx1) by (unfold cx1; destruct wrap; lra).
  assert (Hy1 : 0.08 <= cy1) by (unfold cy1; destruct wrap; lra).
  destruct (Qltb (1 - 0.08) (cy1 + 0.025)) eqn:O.
  - eexists. eexists.
    exists (mkWord wordText
              (mkBBox (cx1 + (1 - 0.06 - 0.06) * 0.5) 0.08 wordWidth 0.025)
              c "Arial" 12).
    split; [reflexivity|].
    unfold insideFlowMargins. simpl. repeat split; lra.
  - apply Qltb_ge in O.
    eexists. eexists.
    exists (mkWord wordText (mkBBox cx1 cy1 wordWidth 0.025) c "Arial" 12).
    split; [reflexivity|].
    unfold insideFlowMargins. simpl. repeat split; lra.
Qed.

Lemma flowWords_spec (c : Q) (seed pn : nat) (textWords : list string) :
  forall i cx cy acc,
    0.06 <= cx -> 0.08 <= cy -> cy + 0.025 <= 0.92 ->
    exists new,
      acc_words (snd (forEachFrom i (flowWord c seed pn) textWords (cx, cy, acc)))
      = acc_words acc ++ new /\
      map text new = textWords /\
      Forall (fun w => confidence w = c /\ insideFlowMargins w) new.
Proof.
  induction textWords as [|t rest IH]; intros i cx cy acc Hx Hy Hy'.
  - exists []. simpl. rewrite app_nil_r. repeat split. constructor.
  - destruct (flowWord_step c seed pn cx cy acc t i Hx Hy Hy')
      as (cx' & cy' & w & E & Hx1 & Hy1 & Hy1' & Ht & Hc & Hm).
    cbn [forEachFrom]. rewrite E.
    match goal with
    | |- context [forEachFrom _ _ _ (_, _, ?a)] =>
        destruct (IH (S i) cx' cy' a Hx1 Hy1 Hy1') as (new & N1 & N2 & N3)
    end.
    exists (w :: new). rewrite N1. simpl. rewrite <- app_assoc. simpl.
    rewrite Ht, N2. repeat split. constructor; [now split|exact N3].
Qed.

(** X13. The document flow synthesised from the vision text makes one
    word per token, in order, with the confidence of the vision model,
    and places every word inside the margins: at or right of 0.06, at or
    below 0.08 and ending at or above 0.92. *)
Theorem flow_words_stay_inside_margins :
  forall (c : Q) (seed pn : nat) (textWords : list string),
    let acc := snd (forEach (flowWord c seed pn) textWords (0.06, 0.08, emptyAcc)) in
    map text (acc_words acc) = textWords /\
    Forall (fun w => confidence w = c /\ insideFlowMargins w) (acc_words acc).
Proof.
  intros c seed pn textWords. unfold forEach.
  destruct (flowWords_spec c seed pn textWords 0%nat 0.06 0.08 emptyAcc)
    as (new & E & T & F); try lra.
  cbv zeta. rewrite E. simpl. now split.
Qed.

(** *** The grid of the [catch] block *)

Lemma ofNat_nonneg (n : nat) : 0 <= ofNat n.
Proof. unfold ofNat. change 0 with (inject_Z 0). rewrite <- Zle_Qle. lia. Qed.

Lemma ofNat_le_iff (a b : nat) : ofNat a <= ofNat b <-> (a <= b)%nat.
Proof. unfold ofNat. rewrite <- Zle_Qle. lia. Qed.

Lemma grid_row_bound (n c k : nat) :
  (0 < c)%nat -> (k < n)%nat -> (k / c < (n + c - 1) / c)%nat.
Proof.
  intros Hc Hk.
  replace (n + c - 1)%nat with ((n - 1) + 1 * c)%nat by lia.
  rewrite Nat.div_add by lia.
  assert (k / c <= (n - 1) / c)%nat by (apply Nat.Div0.div_le_mono; lia).
  lia.
Qed.

Lemma sqrt_up_pos (n : nat) : (0 < n)%nat -> (0 < Nat.sqrt_up n)%nat.
Proof. intros H. apply Nat.sqrt_up_pos. exact H. Qed.

(** X14. The grid that the [catch] block lays out from the OCR text
    makes one word per token, in order, and every word lies on the page:
    between 0.05 and 1 horizontally, between 0.1 and 0.83 vertically. *)
Theorem grid_words_lie_on_the_page :
  forall (canvas : Canvas) (seed pn : nat) (data : OcrData),
    let acc := catchGrid canvas seed pn data emptyAcc in
    map text (acc_words acc) = splitWords (ocr_text data) /\
    Forall (fun w => onPage (bbox w) /\
                     0.05 <= x (bbox w) /\ 0.1 <= y (bbox w) /\
                     y (bbox w) + height (bbox w) <= 0.83)
           (acc_words acc).
Proof.
  intros canvas seed pn data. unfold catchGrid.
  set (textWords := splitWords (ocr_text data)).
  set (n := List.length textWords).
  set (cols := Nat.min 12 (Nat.sqrt_up n)).
  set (rows := ((n + cols - 1) / cols)%nat).
  cbv zeta. unfold forEach. split.
  - assert (G : forall l i (a : Acc) f,
              map text
                (acc_words
                   (forEachFrom i
                      (fun (acc : Acc) (wordText : string) (wordIndex : nat) =>
                         pushChunk seed pn
                           (pushWord acc
                              (mkWord wordText (f wordIndex) 0.6 "Arial" 12))
                           wordText
                           (mkGeometry (x (f wordIndex) * canvas_width canvas)
                                       (y (f wordIndex) * canvas_height canvas)
                                       (width (f wordIndex) * canvas_width canvas)
                                       (height (f wordIndex) * canvas_height canvas)))
                      l a))
              = map text (acc_words a) ++ l).
    { induction l as [|t l IH]; intros i a f; simpl.
      - now rewrite app_nil_r.
      - rewrite IH. simpl. rewrite map_app. simpl. now rewrite <- app_assoc. }
    exact (G textWords 0%nat emptyAcc
             (fun wordIndex =>
                mkBBox (0.05 + ofNat (wordIndex mod cols) * 0.08)
                       (0.1 + ofNat (wordIndex / cols) * 0.7 / ofNat rows)
                       0.07 0.03)).
  - apply (forEachFrom_indexed
             (fun a : Acc =>
                Forall (fun w => onPage (bbox w) /\
                                 0.05 <= x (bbox w) /\ 0.1 <= y (bbox w) /\
                                 y (bbox w) + height (bbox w) <= 0.83)
                       (acc_words a))); [|constructor].
    intros a t k Hk Ha. simpl.
    apply Forall_app. split; [exact Ha|]. constructor; [|constructor].
    assert (Hkn : (k < n)%nat).
    { apply nth_error_Some. unfold n. congruence. }
    assert (Hc : (0 < cols)%nat).
    { unfold cols. pose proof (sqrt_up_pos n ltac:(lia)). lia. }
    assert (Hcol : (k mod cols <= 11)%nat).
    { pose proof (Nat.mod_upper_bound k cols ltac:(lia)).
      unfold cols in *. lia. }
    assert (Hrow : (k / cols < rows)%nat) by (now apply grid_row_bound).
    apply ofNat_le_iff in Hcol.
    assert (Hr1 : ofNat (k / cols) <= ofNat rows)
      by (apply ofNat_le_iff; lia).
    assert (Hr0 : 0 < ofNat rows).
    { assert (1 <= ofNat rows) by (apply ofNat_pos; lia). lra. }
    pose proof (ofNat_nonneg (k mod cols)) as Hc0.
    pose proof (ofNat_nonneg (k / cols)) as Hq0.
    assert (Hfrac : 0 <= ofNat (k / cols) * 0.7 / ofNat rows <= 0.7).
    { split.
      - apply Qle_shift_div_l; [exact Hr0|]. lra.
      - apply Qle_shift_div_r; [exact Hr0|]. lra. }
    change (ofNat 11) with 11 in Hcol.
    unfold onPage, covers. simpl. repeat split; lra.
Qed.

(** *** The boxes of the gap repair *)

(** X15. The block that the gap repair appends for the missing element
    number [i] lies on the page exactly when [i] is at most 3: from the
    fifth missing element on, the box ends below the page. *)
Theorem fallback_block_on_page_iff_among_first_four :
  forall i : nat, onPage (fallbackBBoxOf i) <-> (i <= 3)%nat.
Proof.
  intros i. unfold onPage, covers, fallbackBBoxOf. simpl.
  pose proof (ofNat_nonneg i) as H0.
  split.
  - intros (_ & _ & _ & H).
    destruct (le_lt_dec i 3) as [Hi|Hi]; [exact Hi|exfalso].
    assert (H4 : ofNat 4 <= ofNat i) by (apply ofNat_le_iff; lia).
    change (ofNat 4) with 4 in H4. lra.
  - intros H. apply ofNat_le_iff in H. change (ofNat 3) with 3 in H.
    repeat split; lra.
Qed.

(** ** The document run *)

Lemma result_pageNumber (enable : bool) (env : Env) (canvas : Canvas)
    (seed pn : nat) (r : PageResult) :
  snd (performEnhancedOCR enable env canvas seed pn) = Returns r ->
  pageNumber (irPage r) = pn.
Proof.
  destruct enable; simpl.
  - intros H.
    destruct (performGeminiExtraction_returns _ _ _ _ _ _ H)
      as [(g & s & ocrData & calls & acc & _ & _ & _ & ->)|(n & data & _ & ->)];
      reflexivity.
  - destruct (recognize env 0 basicParams); [|discriminate].
    intros H. inversion H; subst. reflexivity.
Qed.

Lemma sort_ascending {A : Type} (num : A -> nat) (l : list A) :
  StronglySorted (fun a b => num a < num b)%nat l ->
  sort (byPageNumber num) l = l.
Proof.
  induction l as [|a l IH]; intros H; simpl; [reflexivity|].
  inversion H as [|? ? Hs Ha]; subst.
  rewrite (IH Hs). destruct l as [|b l]; [reflexivity|]. simpl.
  inversion Ha as [|? ? Hab _]; subst.
  replace (Qle_bool (byPageNumber num a b) 0) with true; [reflexivity|].
  symmetry. apply Qle_bool_iff. unfold byPageNumber.
  assert (ofNat (num a) <= ofNat (num b)) by (apply ofNat_le; lia). lra.
Qed.

Lemma numbered_ascending {A : Type} (num : A -> nat) (l : list A) :
  forall a, map num l = seq a (List.length l) ->
            StronglySorted (fun x y => num x < num y)%nat l.
Proof.
  induction l as [|x l IH]; intros a H; simpl in *; [constructor|].
  injection H as Hx Hl. constructor; [now apply (IH (S a))|].
  apply Forall_forall. intros y Hy.
  apply (in_map num) in Hy. rewrite Hl in Hy. apply in_seq in Hy. lia.
Qed.

Lemma sort_numbered_snoc {A : Type} (num : A -> nat) (l : list A) (a : A) :
  map num l = seq 1 (List.length l) -> num a = S (List.length l) ->
  sort (byPageNumber num) (l ++ [a]) = l ++ [a] /\
  map num (l ++ [a]) = seq 1 (List.length (l ++ [a])).
Proof.
  intros Hl Ha.
  assert (E : map num (l ++ [a]) = seq 1 (List.length (l ++ [a]))).
  { rewrite map_app, length_app. simpl. rewrite seq_app, Hl. simpl.
    now rewrite Ha. }
  split; [|exact E].
  apply sort_ascending. now apply (numbered_ascending num _ 1%nat).
Qed.

Section Run.
Variable enableAdvancedProcessing : bool.
Variable n : nat.
Variable load : nat -> PageLoad.

Local Abbreviation base := (progressBaseOf n).
Local Abbreviation step := (pageProgressStepOf n).

Lemma page_succeeds_step (p : Processor) :
  numPages p = n -> (1 <= currentProcessingPage p <= n)%nat ->
  pageSucceeds enableAdvancedProcessing load (currentProcessingPage p) ->
  let k := currentProcessingPage p in
  exists r,
    snd (performEnhancedOCR enableAdvancedProcessing (env (load k)) (canvas (load k))
           (List.length (flat_map textChunks (allPages p))) k) = Returns r /\
    let finalPages :=
      sort (byPageNumber pd_pageNumber)
           (allPages p ++ [mkPageData k (dataUrl (load k)) (legacyChunks r)]) in
    let finalIRPages := sort (byPageNumber pageNumber) (irPages p ++ [irPage r]) in
    let six := [ProgressUpdate (base k + step);
                ProgressUpdate (base k + step * 2);
                ProgressUpdate (base k + step * 3);
                ProgressUpdate (base k + step * 4);
                ProgressUpdate (base k + step * 5);
                ProgressUpdate (base k + step * 6)] in
    onPageLoadSuccess enableAdvancedProcessing p (load k)
    = if Nat.eqb k n
      then (mkProcessor n k finalPages finalIRPages,
            six ++ [ProcessingComplete finalPages finalIRPages; ProgressUpdate 100])
      else (mkProcessor n (k + 1) finalPages finalIRPages, six).
Proof.
  intros Hn Hk (Hc & Hr & Hocr) k. subst k.
  destruct (Hocr (List.length (flat_map textChunks (allPages p)))) as [r Hret].
  exists r. split; [exact Hret|].
  unfold onPageLoadSuccess. rewrite Hc, Hr, Hn. cbn [negb].
  rewrite Hret. unfold progressBaseOf, pageProgressStepOf.
  destruct (Nat.eqb (currentProcessingPage p) n); reflexivity.
Qed.

Lemma page_fails_step (p : Processor) :
  numPages p = n -> (1 <= currentProcessingPage p <= n)%nat ->
  pageFails enableAdvancedProcessing load (currentProcessingPage p) ->
  exists pre,
    onPageLoadSuccess enableAdvancedProcessing p (load (currentProcessingPage p))
    = (p, pre ++ [Error (currentProcessingPage p)]) /\
    Forall progressBelow100 pre.
Proof.
  intros Hn Hk Hfail. set (k := currentProcessingPage p) in *.
  assert (Hn1 : (1 <= n)%nat) by lia.
  pose proof (step_pos n Hn1) as Hs.
  pose proof (base_upper n k Hn1 (proj2 Hk)) as Hup.
  assert (B : forall j, j <= 6 -> progressBelow100 (ProgressUpdate (base k + step * j))).
  { intros j Hj. eexists. split; [reflexivity|].
    assert (step * j <= step * 6) by (apply Qmult_le_l; assumption). lra. }
  assert (B1 : progressBelow100 (ProgressUpdate (base k + step))).
  { eexists. split; [reflexivity|]. lra. }
  unfold onPageLoadSuccess. fold k. rewrite Hn.
  fold (base k). fold step.
  destruct (hasContext (load k)) eqn:Hc; cbn [negb].
  2: { eexists. split; [reflexivity|]. repeat constructor. exact B1. }
  destruct (renders (load k)) eqn:Hr; cbn [negb].
  2: { eexists. split; [reflexivity|].
       simpl. repeat constructor; [exact B1|apply B; lra]. }
  destruct Hfail as [Hf|[Hf|Hf]]; try congruence.
  destruct (Hf (List.length (flat_map textChunks (allPages p)))) as [e He].
  rewrite He. eexists. split; [reflexivity|].
  simpl. repeat constructor; [exact B1|apply B; lra|apply B; lra|apply B; lra].
Qed.

Lemma processPages_until_failure (k : nat) :
  (forall j, (1 <= j < k)%nat -> pageSucceeds enableAdvancedProcessing load j) ->
  pageFails enableAdvancedProcessing load k ->
  forall fuel p,
    numPages p = n -> (1 <= currentProcessingPage p <= k)%nat -> (k <= n)%nat ->
    (fuel + currentProcessingPage p = n + 1)%nat ->
    exists pre,
      processPages enableAdvancedProcessing fuel load p = pre ++ [Error k] /\
      Forall progressBelow100 pre.
Proof.
  intros Hok Hfail.
  induction fuel as [|fuel IH]; intros p Hn Hk Hkn Hf; [lia|].
  assert (Hn1 : (1 <= n)%nat) by lia.
  pose proof (step_pos n Hn1) as Hs.
  cbn [processPages].
  replace (Nat.ltb 0 (currentProcessingPage p)) with true
    by (symmetry; apply Nat.ltb_lt; lia).
  replace (Nat.leb (currentProcessingPage p) (numPages p)) with true
    by (symmetry; apply Nat.leb_le; lia).
  cbn [andb].
  destruct (Nat.eq_dec (currentProcessingPage p) k) as [E|E].
  - rewrite E in *.
    destruct (page_fails_step p Hn ltac:(lia) ltac:(rewrite E; exact Hfail))
      as (pre & Ep & Fp).
    rewrite E in Ep. rewrite Ep. rewrite E, Nat.eqb_refl, app_nil_r.
    now exists pre.
  - assert (Hlt : (currentProcessingPage p < k)%nat) by lia.
    destruct (page_succeeds_step p Hn ltac:(lia)
                (Hok (currentProcessingPage p) ltac:(lia)))
      as (r & _ & Ep).
    cbv zeta in Ep. rewrite Ep.
    replace (Nat.eqb (currentProcessingPage p) n) with false
      by (symmetry; apply Nat.eqb_neq; lia).
    cbn [currentProcessingPage].
    replace (Nat.eqb (currentProcessingPage p + 1) (currentProcessingPage p))
      with false by (symmetry; apply Nat.eqb_neq; lia).
    match goal with
    | |- context [processPages _ fuel load ?q] =>
        destruct (IH q eq_refl ltac:(simpl; lia) Hkn ltac:(simpl; lia))
          as (pre & Ei & Fi)
    end.
    rewrite Ei. eexists. rewrite app_assoc. split; [reflexivity|].
    pose proof (base_upper n (currentProcessingPage p) Hn1 ltac:(lia)) as Hup.
    apply Forall_app. split; [|exact Fi].
    repeat constructor; (eexists; split; [reflexivity|]);
      match goal with
      | |- _ + step * ?j < 100 =>
          assert (step * j <= step * 6) by (apply Qmult_le_l; [assumption|lra]); lra
      | |- _ < 100 => lra
      end.
Qed.

Lemma processPages_to_completion :
  (forall j, (1 <= j <= n)%nat -> pageSucceeds enableAdvancedProcessing load j) ->
  forall fuel p,
    numPages p = n -> (1 <= currentProcessingPage p <= n)%nat ->
    (fuel + currentProcessingPage p = n + 1)%nat ->
    map pd_pageNumber (allPages p) = seq 1 (List.length (allPages p)) ->
    map pageNumber (irPages p) = seq 1 (List.length (irPages p)) ->
    S (List.length (allPages p)) = currentProcessingPage p ->
    S (List.length (irPages p)) = currentProcessingPage p ->
    exists pre pages irs,
      processPages enableAdvancedProcessing fuel load p
      = pre ++ [ProcessingComplete pages irs; ProgressUpdate 100] /\
      Forall progressBelow100 pre /\
      map pd_pageNumber pages = seq 1 n /\
      map pageNumber irs = seq 1 n.
Proof.
  intros Hok.
  induction fuel as [|fuel IH]; intros p Hn Hk Hf Hp Hi Lp Li; [lia|].
  assert (Hn1 : (1 <= n)%nat) by lia.
  pose proof (step_pos n Hn1) as Hs.
  pose proof (base_upper n (currentProcessingPage p) Hn1 ltac:(lia)) as Hup.
  cbn [processPages].
  replace (Nat.ltb 0 (currentProcessingPage p)) with true
    by (symmetry; apply Nat.ltb_lt; lia).
  replace (Nat.leb (currentProcessingPage p) (numPages p)) with true
    by (symmetry; apply Nat.leb_le; lia).
  cbn [andb].
  destruct (page_succeeds_step p Hn Hk (Hok _ Hk)) as (r & Hr & Ep).
  cbv zeta in Ep. rewrite Ep. clear Ep.
  set (k := currentProcessingPage p) in *.
  destruct (sort_numbered_snoc pd_pageNumber (allPages p)
              (mkPageData k (dataUrl (load k)) (legacyChunks r)) Hp
              ltac:(simpl; lia)) as [Sp Np].
  destruct (sort_numbered_snoc pageNumber (irPages p) (irPage r) Hi
              ltac:(rewrite (result_pageNumber _ _ _ _ _ _ Hr); lia)) as [Si Ni].
  rewrite Sp, Si.
  assert (Six : forall t,
            Forall progressBelow100 t ->
            Forall progressBelow100
              (ProgressUpdate (base k + step)
               :: ProgressUpdate (base k + step * 2)
               :: ProgressUpdate (base k + step * 3)
               :: ProgressUpdate (base k + step * 4)
               :: ProgressUpdate (base k + step * 5)
               :: ProgressUpdate (base k + step * 6) :: t)).
  { intros t Ht.
    repeat (constructor; [eexists; split; [reflexivity|]|]); try exact Ht;
      match goal with
      | |- _ + step * ?j < 100 =>
          assert (step * j <= step * 6) by (apply Qmult_le_l; [assumption|lra]); lra
      | |- _ < 100 => lra
      end. }
  destruct (Nat.eqb k n) eqn:E.
  - apply Nat.eqb_eq in E.
    cbn [currentProcessingPage]. rewrite Nat.eqb_refl, app_nil_r.
    eexists. eexists. eexists.
    split; [reflexivity|]. split; [apply Six; constructor|].
    rewrite Np, Ni, !length_app. simpl.
    replace (List.length (allPages p) + 1)%nat with n by lia.
    replace (List.length (irPages p) + 1)%nat with n by lia.
    now split.
  - apply Nat.eqb_neq in E.
    cbn [currentProcessingPage].
    replace (Nat.eqb (k + 1) k) with false by (symmetry; apply Nat.eqb_neq; lia).
    match goal with
    | |- context [processPages _ fuel load ?q] =>
        destruct (IH q eq_refl ltac:(simpl; lia) ltac:(simpl; lia))
          as (pre & pages & irs & Ei & Fi & N1 & N2)
    end.
    + exact Np.
    + exact Ni.
    + cbn [allPages currentProcessingPage]. rewrite length_app. simpl. lia.
    + cbn [irPages currentProcessingPage]. rewrite length_app. simpl. lia.
    + rewrite Ei. eexists. exists pages, irs.
      split; [rewrite app_assoc; reflexivity|].
      split; [|now split].
      apply Forall_app. split; [apply Six; constructor|exact Fi].
Qed.
End Run.

(** X16. When the pages before page [k] are extracted and page [k]
    fails (no canvas context, a render error, or an extraction that
    throws), the run reports progress values below 100, then the error of
    page [k], and nothing more: the completion callback is not called,
    100 is not reported and no later page is processed. *)
Theorem failed_page_stops_the_run :
  forall (enable : bool) (n : nat) (load : nat -> PageLoad) (k : nat),
    (1 <= k <= n)%nat ->
    (forall j, (1 <= j < k)%nat -> pageSucceeds enable load j) ->
    pageFails enable load k ->
    exists pre,
      processDocument enable n load = pre ++ [Error k] /\
      Forall progressBelow100 pre.
Proof.
  intros enable n load k Hk Hok Hfail.
  unfold processDocument. simpl.
  destruct (processPages_until_failure enable n load k Hok Hfail n
              (mkProcessor n 1 [] []) eq_refl ltac:(simpl; lia) ltac:(lia)
              ltac:(simpl; lia)) as (pre & E & F).
  exists (ProgressUpdate 10 :: pre). rewrite E. split; [reflexivity|].
  constructor; [|exact F]. eexists. split; [reflexivity|]. lra.
Qed.

(** Witness of X16: the second page of a two-page document fails. *)
Lemma failed_page_stops_the_run_witness :
  exists pre,
    processDocument true 2 loadSecondFails = pre ++ [Error 2] /\
    Forall progressBelow100 pre.
Proof.
  apply (failed_page_stops_the_run true 2%nat loadSecondFails 2%nat).
  - lia.
  - intros j Hj. assert (j = 1%nat) by lia. subst j.
    split; [reflexivity|]. split; [reflexivity|].
    intros seed. eexists. reflexivity.
  - right. right. intros seed. eexists. reflexivity.
Defined.

(** X17. When every page is extracted, the completion callback is
    called once, at the end, before the report of 100, with the pages
    numbered 1 to [n] in order, both in the legacy pages and in the
    intermediate representation. *)
Theorem completion_receives_all_pages_in_order :
  forall (enable : bool) (n : nat) (load : nat -> PageLoad),
    (1 <= n)%nat ->
    (forall j, (1 <= j <= n)%nat -> pageSucceeds enable load j) ->
    exists pre pages irs,
      processDocument enable n load
      = pre ++ [ProcessingComplete pages irs; ProgressUpdate 100] /\
      Forall progressBelow100 pre /\
      map pd_pageNumber pages = seq 1 n /\
      map pageNumber irs = seq 1 n.
Proof.
  intros enable n load Hn Hok.
  unfold processDocument. simpl.
  destruct (processPages_to_completion enable n load Hok n
              (mkProcessor n 1 [] []) eq_refl ltac:(simpl; lia) ltac:(simpl; lia)
              eq_refl eq_refl eq_refl eq_refl)
    as (pre & pages & irs & E & F & N1 & N2).
  exists (ProgressUpdate 10 :: pre), pages, irs. rewrite E.
  split; [reflexivity|]. split; [|now split].
  constructor; [|exact F]. eexists. split; [reflexivity|]. lra.
Qed.

(** Witness of X17: a one-page document. *)
Lemma completion_receives_all_pages_in_order_witness :
  exists pre pages irs,
    processDocument true 1 loadOneWord
    = pre ++ [ProcessingComplete pages irs; ProgressUpdate 100] /\
    Forall progressBelow100 pre /\
    map pd_pageNumber pages = [1%nat] /\
    map pageNumber irs = [1%nat].
Proof.
  apply (completion_receives_all_pages_in_order true 1%nat loadOneWord).
  - lia.
  - intros j Hj. split; [reflexivity|]. split; [reflexivity|].
    intros seed. eexists. reflexivity.
Defined.

(** * Properties of the viewer *)

(** X18. Whatever sequence of zoom buttons and page changes, the zoom
    factor stays between 0.5 and 3. *)
Theorem zoom_stays_in_range :
  forall actions : list ZoomAction,
    0.5 <= fold_left applyZoom actions 1 <= 3.
Proof.
  intros actions.
  apply (fold_left_invariant (fun z => 0.5 <= z <= 3)); [|lra].
  intros z a Hz. destruct a; simpl; try lra.
  - destruct (Qmin_cases (z + 0.25) 3) as [[E H]|[E H]]; rewrite E; lra.
  - destruct (Qmax_cases (z - 0.25) 0.5) as [[E H]|[E H]]; rewrite E; lra.
Qed.

Lemma pressPageButton_valid (totalPages currentPage : nat) (b : PageButton) :
  (1 <= currentPage <= totalPages)%nat ->
  (1 <= pressPageButton totalPages currentPage b <= totalPages)%nat /\
  (pressPageButton totalPages currentPage b = currentPage <->
   match b with
   | PrevPage => currentPage = 1%nat
   | NextPage => currentPage = totalPages
   end).
Proof.
  intros H. unfold pressPageButton, handlePrevPage, handleNextPage.
  destruct b.
  - destruct (Nat.ltb_spec 1 currentPage); simpl; lia.
  - destruct (Nat.ltb_spec currentPage totalPages); simpl; lia.
Qed.

(** X19. The page buttons never leave the document: from a page
    between 1 and the number of pages, any sequence of Previous and Next
    ends on such a page; Previous changes nothing on page 1 only, Next on
    the last page only. *)
Theorem page_buttons_stay_in_document :
  forall (totalPages currentPage : nat) (buttons : list PageButton),
    (1 <= currentPage <= totalPages)%nat ->
    (1 <= fold_left (pressPageButton totalPages) buttons currentPage
     <= totalPages)%nat /\
    (pressPageButton totalPages currentPage PrevPage = currentPage
     <-> currentPage = 1%nat) /\
    (pressPageButton totalPages currentPage NextPage = currentPage
     <-> currentPage = totalPages).
Proof.
  intros totalPages currentPage buttons H. split; [|split].
  - apply (fold_left_invariant (fun p => 1 <= p <= totalPages)%nat); [|exact H].
    intros p b Hp. now apply pressPageButton_valid.
  - exact (proj2 (pressPageButton_valid totalPages currentPage PrevPage H)).
  - exact (proj2 (pressPageButton_valid totalPages currentPage NextPage H)).
Qed.

(** Witness of X19: Next, Next, Previous from page 2 of 3. *)
Lemma page_buttons_stay_in_document_witness :
  (1 <= 2 <= 3)%nat /\
  (1 <= fold_left (pressPageButton 3) [NextPage; NextPage; PrevPage] 2 <= 3)%nat.
Proof.
  assert (H : (1 <= 2 <= 3)%nat) by lia.
  split; [exact H|].
  exact (proj1 (page_buttons_stay_in_document 3 2 [NextPage; NextPage; PrevPage] H)).
Defined.

(** *** The box of a chunk *)

Lemma Math_round_nonneg (v : Q) : 0 <= v -> (0 <= Math_round v)%Z.
Proof.
  intros H. unfold Math_round.
  change 0%Z with (Qfloor 0). apply Qfloor_resp_le. lra.
Qed.

Lemma Math_round_upper (v : Q) (n : Z) : v <= inject_Z n -> (Math_round v <= n)%Z.
Proof.
  intros H. unfold Math_round.
  pose proof (Qfloor_le (v + (1 # 2))) as F.
  assert (L : inject_Z (Qfloor (v + (1 # 2))) < inject_Z (n + 1)).
  { rewrite inject_Z_plus. change (inject_Z 1) with 1. lra. }
  rewrite <- Zlt_Qlt in L. lia.
Qed.

Lemma Math_round_lower (v : Q) (n : Z) : inject_Z n <= v -> (n <= Math_round v)%Z.
Proof.
  intros H. unfold Math_round.
  rewrite <- (Qfloor_Z n). apply Qfloor_resp_le. lra.
Qed.

Lemma Math_round_Z (v : Q) (n : Z) : v == inject_Z n -> Math_round v = n.
Proof.
  intros H.
  pose proof (Math_round_upper v n ltac:(lra)).
  pose proof (Math_round_lower v n ltac:(lra)). lia.
Qed.

Lemma pixelBox_bounds (d : ImageDimensions) (g : Geometry) :
  let b := pixelBox d g in
  0 <= px b <= ofNat (img_width d) /\ 0 <= py b <= ofNat (img_height d) /\
  1 <= pwidth b /\ 1 <= pheight b /\
  (px b + 1 <= ofNat (img_width d) -> px b + pwidth b <= ofNat (img_width d)) /\
  (py b + 1 <= ofNat (img_height d) -> py b + pheight b <= ofNat (img_height d)).
Proof.
  unfold pixelBox. cbv zeta. cbn [px py pwidth pheight].
  set (W := ofNat (img_width d)). set (H := ofNat (img_height d)).
  assert (HW : 0 <= W) by apply ofNat_nonneg.
  assert (HH : 0 <= H) by apply ofNat_nonneg.
  set (x := Qmax 0 (Qmin (gx g / 100 * W) W)).
  set (y := Qmax 0 (Qmin (gy g / 100 * H) H)).
  assert (Hx : 0 <= x <= W) by (apply (clamp_bounds 0 _ W); exact HW).
  assert (Hy : 0 <= y <= H) by (apply (clamp_bounds 0 _ H); exact HH).
  split; [exact Hx|]. split; [exact Hy|].
  split; [apply Q.le_max_l|]. split; [apply Q.le_max_l|].
  split; intros Hroom.
  - destruct (Qmin_cases (gw g / 100 * W) (W - x)) as [[E1 H1]|[E1 H1]];
      rewrite E1;
      destruct (Qmax_cases 1 (gw g / 100 * W)) as [[E2 H2]|[E2 H2]];
      destruct (Qmax_cases 1 (W - x)) as [[E3 H3]|[E3 H3]];
      try rewrite E2; try rewrite E3; lra.
  - destruct (Qmin_cases (gh g / 100 * H) (H - y)) as [[E1 H1]|[E1 H1]];
      rewrite E1;
      destruct (Qmax_cases 1 (gh g / 100 * H)) as [[E2 H2]|[E2 H2]];
      destruct (Qmax_cases 1 (H - y)) as [[E3 H3]|[E3 H3]];
      try rewrite E2; try rewrite E3; lra.
Qed.

(** X20. The box of a chunk is hidden exactly while the image is not
    loaded or has a zero dimension.  Otherwise, whatever the geometry of
    the chunk, its corner lies on the image and it is at least one pixel
    wide and high; before rounding, a box that starts at least one pixel
    before the right (bottom) edge ends on the image. *)
Theorem chunk_box_stays_on_the_image :
  forall (imageLoaded : bool) (d : ImageDimensions)
         (highlightedChunk : option ChunkId) (chunk : LegacyTextChunk),
    (getBoundingBoxStyle imageLoaded d highlightedChunk chunk = None <->
     imageLoaded = false \/ img_width d = 0%nat \/ img_height d = 0%nat) /\
    (forall style,
       getBoundingBoxStyle imageLoaded d highlightedChunk chunk = Some style ->
       (0 <= left_px style <= Z.of_nat (img_width d))%Z /\
       (0 <= top_px style <= Z.of_nat (img_height d))%Z /\
       (1 <= width_px style)%Z /\ (1 <= height_px style)%Z) /\
    (let b := pixelBox d (geometry chunk) in
     (px b + 1 <= ofNat (img_width d) -> px b + pwidth b <= ofNat (img_width d)) /\
     (py b + 1 <= ofNat (img_height d) -> py b + pheight b <= ofNat (img_height d))).
Proof.
  intros imageLoaded d h chunk.
  pose proof (pixelBox_bounds d (geometry chunk)) as (Bx & By & Bw & Bh & Rx & Ry).
  split; [|split; [|now split]].
  - unfold getBoundingBoxStyle.
    destruct imageLoaded; simpl.
    + destruct (Nat.eqb_spec (img_width d) 0); simpl.
      * split; [now auto|reflexivity].
      * destruct (Nat.eqb_spec (img_height d) 0); simpl.
        -- split; [now auto|reflexivity].
        -- split; [discriminate|]. intros [?|[?|?]]; congruence.
    + split; [now auto|reflexivity].
  - intros style H. unfold getBoundingBoxStyle in H.
    destruct (negb imageLoaded || Nat.eqb (img_width d) 0
              || Nat.eqb (img_height d) 0)%bool; [discriminate|].
    inversion H; subst. clear H. cbn [left_px top_px width_px height_px].
    unfold ofNat in *.
    repeat split.
    + apply Math_round_nonneg. exact (proj1 Bx).
    + apply Math_round_upper. exact (proj2 Bx).
    + apply Math_round_nonneg. exact (proj1 By).
    + apply Math_round_upper. exact (proj2 By).
    + apply Math_round_lower. exact Bw.
    + apply Math_round_lower. exact Bh.
Qed.

(** Witness of X20: a chunk on a loaded 800 by 600 image. *)
Lemma chunk_box_stays_on_the_image_witness :
  exists style,
    getBoundingBoxStyle true (mkDims 800 600) None
      (mkChunk (nanoid 0) "Total" 1 (mkGeometry 50 4 12 2)) = Some style /\
    (0 <= left_px style <= Z.of_nat 800)%Z.
Proof.
  eexists. split; [reflexivity|].
  exact (proj1 (proj1 (proj2 (chunk_box_stays_on_the_image true (mkDims 800 600) None
                                (mkChunk (nanoid 0) "Total" 1 (mkGeometry 50 4 12 2))))
                  _ eq_refl)).
Defined.

(** X21. On a loaded image the viewer reads the geometry as
    percentages: for a geometry within 0 to 100 the corner of the box is
    that percentage of the image, unclamped.  A geometry whose [x] is 100
    or more, such as the raster pixels that the OCR-only paths emit, puts
    the box at the right edge of the image, one pixel wide. *)
Theorem viewer_reads_geometry_as_percentages :
  forall (d : ImageDimensions) (g : Geometry),
    (inPercent g ->
     px (pixelBox d g) == gx g / 100 * ofNat (img_width d) /\
     py (pixelBox d g) == gy g / 100 * ofNat (img_height d)) /\
    (100 <= gx g ->
     Math_round (px (pixelBox d g)) = Z.of_nat (img_width d) /\
     Math_round (pwidth (pixelBox d g)) = 1%Z).
Proof.
  intros d g.
  set (W := ofNat (img_width d)). set (H := ofNat (img_height d)).
  assert (HW : 0 <= W) by apply ofNat_nonneg.
  assert (HH : 0 <= H) by apply ofNat_nonneg.
  split.
  - intros ((X0 & X1) & (Y0 & Y1) & _). unfold pixelBox. cbv zeta.
    cbn [px py]. fold W H.
    assert (AX : 0 <= gx g / 100 * W <= W).
    { split.
      - apply Qmult_le_0_compat; [|exact HW]. apply Qle_shift_div_l; lra.
      - assert (gx g / 100 <= 1) by (apply Qle_shift_div_r; lra).
        assert (E : W == 1 * W) by ring. rewrite E at 2.
        apply Qmult_le_compat_r; assumption. }
    assert (AY : 0 <= gy g / 100 * H <= H).
    { split.
      - apply Qmult_le_0_compat; [|exact HH]. apply Qle_shift_div_l; lra.
      - assert (gy g / 100 <= 1) by (apply Qle_shift_div_r; lra).
        assert (E : H == 1 * H) by ring. rewrite E at 2.
        apply Qmult_le_compat_r; assumption. }
    split.
    + destruct (Qmin_cases (gx g / 100 * W) W) as [[E1 H1]|[E1 H1]]; rewrite E1;
        destruct (Qmax_cases 0 (gx g / 100 * W)) as [[E2 H2]|[E2 H2]];
        destruct (Qmax_cases 0 W) as [[E3 H3]|[E3 H3]];
        try rewrite E2; try rewrite E3; lra.
    + destruct (Qmin_cases (gy g / 100 * H) H) as [[E1 H1]|[E1 H1]]; rewrite E1;
        destruct (Qmax_cases 0 (gy g / 100 * H)) as [[E2 H2]|[E2 H2]];
        destruct (Qmax_cases 0 H) as [[E3 H3]|[E3 H3]];
        try rewrite E2; try rewrite E3; lra.
  - intros Hx. unfold pixelBox. cbv zeta. cbn [px pwidth]. fold W.
    assert (AX : W <= gx g / 100 * W).
    { assert (1 <= gx g / 100) by (apply Qle_shift_div_l; lra).
      assert (E : W == 1 * W) by ring. rewrite E at 1.
      apply Qmult_le_compat_r; assumption. }
    set (x := Qmax 0 (Qmin (gx g / 100 * W) W)).
    assert (Ex : x == W).
    { unfold x.
      destruct (Qmin_cases (gx g / 100 * W) W) as [[E1 H1]|[E1 H1]]; rewrite E1;
        destruct (Qmax_cases 0 (gx g / 100 * W)) as [[E2 H2]|[E2 H2]];
        destruct (Qmax_cases 0 W) as [[E3 H3]|[E3 H3]];
        try rewrite E2; try rewrite E3; lra. }
    split.
    + apply Math_round_Z. exact Ex.
    + apply Math_round_Z. change (inject_Z 1) with 1.
      destruct (Qmin_cases (gw g / 100 * W) (W - x)) as [[E1 H1]|[E1 H1]];
        rewrite E1;
        destruct (Qmax_cases 1 (gw g / 100 * W)) as [[E2 H2]|[E2 H2]];
        destruct (Qmax_cases 1 (W - x)) as [[E3 H3]|[E3 H3]];
        try rewrite E2; try rewrite E3; lra.
Qed.

(** Witness of X21: the pixel geometry of the OCR-only paths. *)
Lemma viewer_reads_geometry_as_percentages_witness :
  100 <= gx (mkGeometry 500 40 120 20) /\
  Math_round (px (pixelBox (mkDims 800 600) (mkGeometry 500 40 120 20)))
  = Z.of_nat 800.
Proof.
  assert (H : 100 <= gx (mkGeometry 500 40 120 20)) by (simpl; lra).
  split; [exact H|].
  exact (proj1 (proj2 (viewer_reads_geometry_as_percentages
                         (mkDims 800 600) (mkGeometry 500 40 120 20)) H)).
Defined.

(** *** Going to a chunk *)

Lemma find_unique_page (pages : list LegacyPageData) (p : LegacyPageData) :
  NoDup (map pd_pageNumber pages) -> In p pages ->
  currentPageData pages (pd_pageNumber p) = Some p.
Proof.
  unfold currentPageData.
  induction pages as [|q pages IH]; intros Hnd Hin; [destruct Hin|].
  simpl. inversion Hnd as [|? ? Hnot Hnd']; subst.
  destruct (Nat.eqb_spec (pd_pageNumber q) (pd_pageNumber p)) as [E|E].
  - destruct Hin as [->|Hin]; [reflexivity|].
    exfalso. apply Hnot. rewrite E. now apply in_map.
  - destruct Hin as [->|Hin]; [now elim E|]. now apply IH.
Qed.

(** X22. [navigateToChunk] always asks to highlight the chunk, last.
    When the page numbers are distinct and some page holds the chunk, the
    page shown after its calls is a page that holds the chunk; when no
    page holds it, the page does not change. *)
Theorem navigation_lands_on_the_chunk :
  forall (pages : list LegacyPageData) (currentPage : nat) (chunkId : ChunkId),
    let calls := navigateToChunk pages currentPage chunkId in
    (exists before, calls = before ++ [onChunkClick chunkId]) /\
    (NoDup (map pd_pageNumber pages) ->
     (exists p, In p pages /\ containsChunk chunkId p = true) ->
     exists p, currentPageData pages (pageAfter currentPage calls) = Some p /\
               containsChunk chunkId p = true) /\
    ((forall p, In p pages -> containsChunk chunkId p = false) ->
     pageAfter currentPage calls = currentPage).
Proof.
  intros pages currentPage chunkId calls. unfold calls, navigateToChunk.
  destruct (find (containsChunk chunkId) pages) as [target|] eqn:F.
  - apply find_some in F as [Hin Hc].
    destruct (Nat.eqb_spec (pd_pageNumber target) currentPage) as [E|E]; simpl.
    + split; [now exists []|]. split.
      * intros Hnd _. exists target. split; [|exact Hc].
        rewrite <- E. now apply find_unique_page.
      * intros _. reflexivity.
    + split; [now exists [onPageChange (pd_pageNumber target)]|]. split.
      * intros Hnd _. exists target. split; [|exact Hc].
        now apply find_unique_page.
      * intros Hno. rewrite (Hno target Hin) in Hc. discriminate.
  - split; [now exists []|]. split.
    + intros _ (p & Hin & Hc).
      rewrite (find_none _ _ F p Hin) in Hc. discriminate.
    + intros _. reflexivity.
Qed.

(** Witness of X22: the chunk of the second of two pages. *)
Lemma navigation_lands_on_the_chunk_witness :
  exists p,
    currentPageData
      [mkPageData 1 "a" [mkChunk (nanoid 0) "one" 1 (mkGeometry 1 1 1 1)];
       mkPageData 2 "b" [mkChunk (nanoid 1) "two" 2 (mkGeometry 1 1 1 1)]]
      (pageAfter 1
         (navigateToChunk
            [mkPageData 1 "a" [mkChunk (nanoid 0) "one" 1 (mkGeometry 1 1 1 1)];
             mkPageData 2 "b" [mkChunk (nanoid 1) "two" 2 (mkGeometry 1 1 1 1)]]
            1 (nanoid 1)))
    = Some p /\
    containsChunk (nanoid 1) p = true.
Proof.
  apply (proj1 (proj2 (navigation_lands_on_the_chunk _ 1%nat (nanoid 1)))).
  - repeat constructor; simpl; intuition discriminate.
  - eexists. split; [right; left; reflexivity|reflexivity].
Defined.

(** * Properties of the vision service *)

Lemma truthy_false (s : string) : truthy s = false -> s = EmptyString.
Proof. destruct s; [reflexivity|discriminate]. Qed.

Lemma orElseS_empty (s d : string) : orElseS s d = EmptyString -> s = EmptyString /\ d = EmptyString.
Proof.
  unfold orElseS. destruct s; simpl; [now split|discriminate].
Qed.

Lemma structureFromResponse_text (response : Outcome unit string)
    (parse : string -> option (Outcome unit ParsedStructure))
    (fallbackText : string) :
  let s := structure (structureFromResponse response parse fallbackText) in
  (truthy fallbackText = true ->
   truthy (completeText s) = true /\
   (completeText s = fallbackText \/
    exists text parsed,
      response = Returns text /\ parse text = Some (Returns parsed) /\
      completeText s = parsed_completeText parsed)) /\
  (completeText s = EmptyString ->
   fallbackText = EmptyString /\ (response = Returns EmptyString \/ exists e, response = Throws e)).
Proof.
  unfold structureFromResponse.
  destruct response as [text|e].
  - destruct (parse text) as [[parsed|e]|] eqn:P.
    + cbv zeta. cbn [structure completeText].
      destruct (parsed_completeText parsed) as [|c cs] eqn:C.
      * destruct fallbackText as [|f fs]; cbn.
        -- split; [discriminate|].
           intros H. split; [reflexivity|]. left.
           destruct (parsed_elements parsed) as [els|].
           ++ destruct (truthy (trim (join newline
                          (map (fun el => orElseS (content el) EmptyString) els)))) eqn:T.
              ** cbn in H. rewrite H in T. discriminate.
              ** cbn in H. now rewrite H.
           ++ cbn in H. now rewrite H.
        -- split; [|discriminate]. intros _. split; [reflexivity|now left].
      * cbn. split.
        -- intros _. split; [reflexivity|]. right. exists text, parsed.
           repeat split; [exact P|now rewrite C].
        -- discriminate.
    + cbv zeta. cbn [structure completeText]. split.
      * intros H. unfold orElseS. rewrite H. split; [exact H|now left].
      * intros H. apply orElseS_empty in H as [-> ->]. split; [reflexivity|now left].
    + cbv zeta. cbn [structure completeText]. split.
      * intros H. unfold orElseS. rewrite H. split; [exact H|now left].
      * intros H. apply orElseS_empty in H as [-> ->]. split; [reflexivity|now left].
  - cbv zeta. cbn [structure completeText]. split.
    + intros H. unfold orElseS. rewrite H. split; [exact H|now left].
    + intros H. apply orElseS_empty in H as [-> _]. split; [reflexivity|].
      right. now exists e.
Qed.

(** X23. [analyzeDocumentStructure] does not lose the text it is
    given: when the fallback text is not empty, the complete text of the
    result is not empty, and it is the fallback text unless the model
    answered an object, in which case it is the [completeText] of that
    object.  The complete text is empty only when the fallback text is
    empty and the request failed or answered nothing.  The list of
    elements is empty only when the model answered an object with an
    empty list of elements. *)
Theorem structure_analysis_keeps_the_text :
  forall (response : Outcome unit string)
         (parse : string -> option (Outcome unit ParsedStructure))
         (fallbackText : string),
    let s := structure (structureFromResponse response parse fallbackText) in
    (truthy fallbackText = true ->
     truthy (completeText s) = true /\
     (completeText s = fallbackText \/
      exists text parsed,
        response = Returns text /\ parse text = Some (Returns parsed) /\
        completeText s = parsed_completeText parsed)) /\
    (completeText s = EmptyString ->
     fallbackText = EmptyString /\ (response = Returns EmptyString \/ exists e, response = Throws e)) /\
    (elements s = [] ->
     exists text parsed,
       response = Returns text /\ parse text = Some (Returns parsed) /\
       parsed_elements parsed = Some []).
Proof.
  intros response parse fallbackText s.
  destruct (structureFromResponse_text response parse fallbackText) as [A B].
  split; [exact A|]. split; [exact B|].
  unfold s, structureFromResponse.
  destruct response as [text|e]; [|discriminate].
  destruct (parse text) as [[parsed|e]|] eqn:P; try discriminate.
  cbv zeta. cbn [structure elements].
  destruct (parsed_elements parsed) as [els|] eqn:E; [|discriminate].
  intros ->. now exists text, parsed.
Qed.

(** Witness of X23: the request fails and the extracted text is kept. *)
Lemma structure_analysis_keeps_the_text_witness :
  truthy (completeText (structure
            (structureFromResponse (Throws tt) (fun _ => None) "Total 13"%string))) = true.
Proof.
  exact (proj1 (proj1 (structure_analysis_keeps_the_text
                         (Throws tt) (fun _ => None) "Total 13"%string) eq_refl)).
Defined.

(** X24. [extractTextWithGemini] throws exactly when the request
    does.  Otherwise its text is the answer of the model or the [text]
    field of the object in it, and is empty only when the answer is
    empty; its confidence is never 0, and is 0.85 when the answer holds
    no object that can be parsed. *)
Theorem text_extraction_result :
  forall (response : Outcome unit string)
         (parse : string -> option (Outcome unit ParsedText)),
    ((exists e, textFromResponse response parse = Throws e) <->
     (exists e, response = Throws e)) /\
    (forall result,
       textFromResponse response parse = Returns result ->
       exists text,
         response = Returns text /\
         (gemini_text result = EmptyString -> text = EmptyString) /\
         ~ gemini_confidence result == 0 /\
         ((forall parsed, parse text <> Some (Returns parsed)) ->
          gemini_text result = text /\ gemini_confidence result = 0.85)).
Proof.
  intros response parse. unfold textFromResponse. split.
  - destruct response as [text|e].
    + split; intros [e H]; [|discriminate].
      destruct (parse text) as [[parsed|e']|]; discriminate.
    + split; intros _; now exists e.
  - intros result H. destruct response as [text|e]; [|discriminate].
    exists text. split; [reflexivity|].
    destruct (parse text) as [[parsed|e']|] eqn:P.
    + injection H as <-. cbn [gemini_text gemini_confidence].
      split; [|split].
      * intros E. now apply orElseS_empty in E.
      * unfold orElseQ.
        destruct (Qeq_bool (parsed_confidence parsed) 0) eqn:Q0.
        -- intros E. vm_compute in E. discriminate.
        -- intros E. apply Qeq_bool_iff in E. congruence.
      * intros N. now elim (N parsed).
    + injection H as <-. cbn [gemini_text gemini_confidence].
      split; [now auto|]. split; [|now auto].
      intros E. vm_compute in E. discriminate.
    + injection H as <-. cbn [gemini_text gemini_confidence].
      split; [now auto|]. split; [|now auto].
      intros E. vm_compute in E. discriminate.
Qed.

(** Witness of X24: an answer that holds no object. *)
Lemma text_extraction_result_witness :
  exists text,
    @Returns unit string "Invoice"%string = Returns text /\
    (gemini_text (mkGeminiResult "Invoice" 0.85) = EmptyString -> text = EmptyString).
Proof.
  destruct (proj2 (text_extraction_result (Returns "Invoice"%string) (fun _ => None))
              (mkGeminiResult "Invoice" 0.85) eq_refl)
    as (text & E & T & _).
  exists text. split; [exact E|exact T].
Defined.

(** X25. With the vision calls of the service, a page leaves the
    primary path for the OCR fallback only when the text request fails,
    and the error carries no status; a failure of the structure request
    never does that.  When the text request returns, the structure
    result already holds the complete text that the gap repair falls back
    to, and that text is empty only when the text answer is empty and the
    structure request failed or answered nothing. *)
Theorem service_failures_and_the_primary_path :
  forall (textResponse : Outcome unit string)
         (parseText : string -> option (Outcome unit ParsedText))
         (structureResponse : Outcome unit string)
         (parseStructure : string -> option (Outcome unit ParsedStructure))
         (recognize : nat -> OcrParams -> Outcome unit OcrData),
    let env := serviceEnv textResponse parseText structureResponse
                          parseStructure recognize in
    (forall status,
       visionCalls env = Throws status ->
       status = None /\ exists e, textResponse = Throws e) /\
    (forall text,
       textResponse = Returns text ->
       exists g s,
         visionCalls env = Returns (g, s) /\
         orElseS (completeText s) (gemini_text g) = completeText s /\
         (completeText s = EmptyString ->
          text = EmptyString /\
          (structureResponse = Returns EmptyString \/ exists e, structureResponse = Throws e))).
Proof.
  intros textResponse parseText structureResponse parseStructure recognize env.
  unfold env, visionCalls, serviceEnv.
  cbn [extractTextWithGemini analyzeDocumentStructure].
  split.
  - intros status H.
    destruct textResponse as [text|e]; cbn in H.
    + destruct (parseText text) as [[parsed|e']|]; cbn in H; discriminate.
    + injection H as <-. split; [reflexivity|now exists e].
  - intros text ->.
    assert (R : exists g, textFromResponse (Returns text) parseText = Returns g /\
                          (gemini_text g = EmptyString -> text = EmptyString)).
    { unfold textFromResponse.
      destruct (parseText text) as [[parsed|e']|]; eexists; (split; [reflexivity|]);
        cbn [gemini_text]; try now auto.
      intros E. now apply orElseS_empty in E. }
    destruct R as (g & -> & Hg). cbn [bind].
    exists g, (structure (structureFromResponse structureResponse parseStructure
                                                (gemini_text g))).
    split; [reflexivity|].
    destruct (structureFromResponse_text structureResponse parseStructure
                                         (gemini_text g)) as [A B].
    split.
    + unfold orElseS at 1.
      destruct (truthy (completeText _)) eqn:T; [reflexivity|].
      apply truthy_false in T. destruct (B T) as [E _]. now rewrite T, E.
    + intros E. destruct (B E) as [F S]. split; [now apply Hg|exact S].
Qed.

(** Witness of X25: the text request returns and the structure request
    fails. *)
Lemma service_failures_and_the_primary_path_witness :
  exists g s,
    visionCalls (serviceEnv (Returns "Invoice"%string) (fun _ => None)
                            (Throws tt) (fun _ => None)
                            (fun _ _ => Throws tt)) = Returns (g, s) /\
    orElseS (completeText s) (gemini_text g) = completeText s.
Proof.
  destruct (proj2 (service_failures_and_the_primary_path
                     (Returns "Invoice"%string) (fun _ => None) (Throws tt) (fun _ => None)
                     (fun _ _ => Throws tt)) "Invoice"%string eq_refl)
    as (g & s & V & O & _).
  exists g, s. split; [exact V|exact O].
Defined.

(** * Properties of the semantic regions *)

Section SortedByKey.
Context {A : Type} (key : A -> Q) (compareFn : A -> A -> Q).
Hypothesis compareFn_key : forall a b, compareFn a b == key a - key b.

Local Abbreviation ascending := (StronglySorted (fun u v => key u <= key v)).

Lemma insert_ascending (a : A) (l : list A) :
  ascending l -> ascending (insert compareFn a l).
Proof.
  induction l as [|b r IH]; intros H; simpl.
  - constructor; constructor.
  - inversion H as [|? ? Hr Hb]; subst.
    pose proof (compareFn_key a b) as K.
    destruct (Qle_bool (compareFn a b) 0) eqn:E.
    + apply Qle_bool_iff in E. constructor; [exact H|].
      constructor; [lra|].
      eapply Forall_impl; [|exact Hb]. cbv beta. intros v Hv. lra.
    + constructor; [now apply IH|].
      assert (Hab : key b <= key a).
      { destruct (Qlt_le_dec (key b) (key a)) as [L|L]; [lra|].
        assert (C : compareFn a b <= 0) by lra.
        apply Qle_bool_iff in C. congruence. }
      apply Forall_forall. intros v Hv.
      apply (Permutation_in _ (insert_perm compareFn a r)) in Hv.
      destruct Hv as [<-|Hv]; [exact Hab|].
      rewrite Forall_forall in Hb. now apply Hb.
Qed.

Lemma sort_by_key (l : list A) : ascending (sort compareFn l).
Proof.
  induction l as [|a r IH]; simpl; [constructor|].
  now apply insert_ascending.
Qed.

Lemma sorted_head_least (l : list A) (first : A) (rest : list A) :
  sort compareFn l = first :: rest ->
  forall a, In a l -> key first <= key a.
Proof.
  intros E a Ha.
  pose proof (sort_by_key l) as S. rewrite E in S.
  inversion S as [|? ? _ Hf]; subst.
  apply (Permutation_in _ (Permutation_sym (sort_perm compareFn l))) in Ha.
  rewrite E in Ha. destruct Ha as [<-|Ha]; [apply Qle_refl|].
  rewrite Forall_forall in Hf. now apply Hf.
Qed.

Lemma last_in (l : list A) (d : A) : l <> [] -> In (last l d) l.
Proof.
  induction l as [|a r IH]; intros H; [now elim H|].
  destruct r as [|b r]; [now left|].
  right. apply IH. discriminate.
Qed.

Lemma ascending_last_greatest (l : list A) (d : A) :
  ascending l -> forall a, In a l -> key a <= key (last l d).
Proof.
  induction l as [|b r IH]; intros S a Ha; [destruct Ha|].
  inversion S as [|? ? Sr Hb]; subst.
  destruct r as [|c r].
  - destruct Ha as [<-|[]]. apply Qle_refl.
  - change (last (b :: c :: r) d) with (last (c :: r) d).
    destruct Ha as [<-|Ha].
    + rewrite Forall_forall in Hb. apply Hb. apply last_in. discriminate.
    + now apply IH.
Qed.

Lemma sorted_last_greatest (l : list A) (d : A) :
  forall a, In a l -> key a <= key (last (sort compareFn l) d).
Proof.
  intros a Ha. apply ascending_last_greatest; [apply sort_by_key|].
  now apply (Permutation_in _ (Permutation_sym (sort_perm compareFn l))).
Qed.
End SortedByKey.

Lemma byTop_key (a b : Block) :
  byTop a b == (fun k => y (block_bbox k)) a - (fun k => y (block_bbox k)) b.
Proof. unfold byTop. cbv beta. reflexivity. Qed.

Lemma inMainBand_spec (b : Block) :
  inMainBand b = true <->
  0.2 < y (block_bbox b) /\ y (block_bbox b) + height (block_bbox b) < 0.8.
Proof.
  unfold inMainBand. rewrite andb_true_iff, !Qltb_lt. reflexivity.
Qed.

(** The three parts of the result, in the order they are pushed. *)
Lemma generateSemanticRegions_parts (blocks : list Block) (topBlock : Block)
    (rest : list Block) :
  sort byTop blocks = topBlock :: rest ->
  let bottomBlock := last (topBlock :: rest) topBlock in
  let mainBlocks := filter inMainBand (topBlock :: rest) in
  generateSemanticRegions blocks
  = (if Qltb (y (block_bbox topBlock)) 0.2
     then [mkRegion "semantic-header-0" header_region (block_bbox topBlock) 0.7
                    [block_id topBlock]]
     else [])
    ++ (if Qltb 0.8 (y (block_bbox bottomBlock) + height (block_bbox bottomBlock))
        then [mkRegion "semantic-footer-0" footer_region (block_bbox bottomBlock)
                       0.7 [block_id bottomBlock]]
        else [])
    ++ match mainBlocks with
       | [] => []
       | _ :: _ =>
           [mkRegion "semantic-main-0" main_content
                     (calculateBoundingBox (map block_bbox mainBlocks)) 0.8
                     (map block_id mainBlocks)]
       end.
Proof.
  intros E. cbv zeta. unfold generateSemanticRegions. rewrite E. cbv zeta.
  destruct (Qltb (y (block_bbox topBlock)) 0.2);
    destruct (Qltb 0.8 _);
    destruct (filter inMainBand (topBlock :: rest)); reflexivity.
Qed.

Lemma mainBlocks_box (mainBlocks : list Block) :
  mainBlocks <> [] ->
  Forall (fun b => inMainBand b = true) mainBlocks ->
  let box := calculateBoundingBox (map block_bbox mainBlocks) in
  0.2 < y box /\ y box + height box < 0.8.
Proof.
  intros Hne Hall. destruct mainBlocks as [|b bs]; [now elim Hne|].
  cbv zeta. simpl map. unfold calculateBoundingBox. cbn [y height].
  pose proof (Math_min_minimum (y (block_bbox b)) (map y (map block_bbox bs)))
    as [Hmin _].
  pose proof (Math_max_maximum
                (y (block_bbox b) + height (block_bbox b))
                (map (fun b => y b + height b) (map block_bbox bs)))
    as [Hmax _].
  rewrite Forall_forall in Hall.
  set (minY := Math_min _ _) in *. set (maxY := Math_max _ _) in *.
  assert (Lo : 0.2 < minY).
  { destruct Hmin as [E|Hmin].
    - rewrite <- E. apply inMainBand_spec. apply Hall. now left.
    - apply in_map_iff in Hmin as (box & E & Hbox).
      apply in_map_iff in Hbox as (k & <- & Hk).
      rewrite <- E. apply inMainBand_spec. apply Hall. now right. }
  assert (Hi : maxY < 0.8).
  { destruct Hmax as [E|Hmax].
    - rewrite <- E. apply inMainBand_spec. apply Hall. now left.
    - apply in_map_iff in Hmax as (box & E & Hbox).
      apply in_map_iff in Hbox as (k & <- & Hk).
      rewrite <- E. apply inMainBand_spec. apply Hall. now right. }
  split; [exact Lo|]. lra.
Qed.



(** X27. The header region exists exactly when some block starts
    above 0.2, and it is a block that starts highest.  The footer region
    is a block that starts lowest, and it exists exactly when that block
    ends below 0.8.  Neither lies inside the band of the main content,
    and there is at most one region of each type. *)
Theorem header_is_topmost_and_footer_starts_lowest :
  forall (blocks : list Block),
    let regions := generateSemanticRegions blocks in
    ((exists r, In r regions /\ region_type r = header_region) <->
     (exists b, In b blocks /\ y (block_bbox b) < 0.2)) /\
    (forall r, In r regions -> region_type r = header_region ->
       exists b, In b blocks /\ region_bbox r = block_bbox b /\
                 blockIds r = [block_id b] /\
                 forall k, In k blocks -> y (block_bbox b) <= y (block_bbox k)) /\
    (forall r, In r regions -> region_type r = footer_region ->
       exists b, In b blocks /\ region_bbox r = block_bbox b /\
                 blockIds r = [block_id b] /\
                 0.8 < y (block_bbox b) + height (block_bbox b) /\
                 forall k, In k blocks -> y (block_bbox k) <= y (block_bbox b)) /\
    (forall r, In r regions -> region_type r <> main_content ->
       ~ (0.2 < y (region_bbox r) /\
          y (region_bbox r) + height (region_bbox r) < 0.8)) /\
    NoDup (map region_type regions).
Proof.
  intros blocks regions. unfold regions. clear regions.
  destruct (sort byTop blocks) as [|topBlock rest] eqn:E.
  { apply sort_nil_inv in E. subst blocks. cbn.
    split; [split; intros (? & [] & _)|].
    split; [intros ? []|]. split; [intros ? []|]. split; [intros ? []|].
    constructor. }
  rewrite (generateSemanticRegions_parts blocks topBlock rest E). cbv zeta.
  assert (P : forall b, In b (topBlock :: rest) <-> In b blocks).
  { intros b. rewrite <- E. split; apply Permutation_in;
      [apply sort_perm|apply Permutation_sym, sort_perm]. }
  assert (Top : forall k, In k blocks ->
                          y (block_bbox topBlock) <= y (block_bbox k)).
  { exact (sorted_head_least (fun k => y (block_bbox k)) byTop byTop_key
                              blocks topBlock rest E). }
  set (bottomBlock := last (topBlock :: rest) topBlock).
  assert (Bottom : forall k, In k blocks ->
                             y (block_bbox k) <= y (block_bbox bottomBlock)).
  { unfold bottomBlock. rewrite <- E.
    exact (sorted_last_greatest (fun k => y (block_bbox k)) byTop byTop_key
                                 blocks topBlock). }
  assert (InTop : In topBlock blocks) by (apply P; now left).
  assert (InBottom : In bottomBlock blocks).
  { apply P. unfold bottomBlock. apply last_in. discriminate. }
  set (headerRegion := mkRegion "semantic-header-0" header_region
                          (block_bbox topBlock) 0.7 [block_id topBlock]).
  set (footerRegion := mkRegion "semantic-footer-0" footer_region
                          (block_bbox bottomBlock) 0.7 [block_id bottomBlock]).
  set (headerPart := if Qltb (y (block_bbox topBlock)) 0.2
                     then [headerRegion] else []).
  set (footerPart := if Qltb 0.8 (y (block_bbox bottomBlock)
                                  + height (block_bbox bottomBlock))
                     then [footerRegion] else []).
  set (mainPart := match filter inMainBand (topBlock :: rest) with
                   | [] => []
                   | _ :: _ => _
                   end).
  assert (Header : forall r, In r headerPart <->
                             y (block_bbox topBlock) < 0.2 /\ r = headerRegion).
  { intros r. unfold headerPart.
    destruct (Qltb (y (block_bbox topBlock)) 0.2) eqn:H.
    - apply Qltb_lt in H. split.
      + intros [<-|[]]. now split.
      + intros [_ ->]. now left.
    - apply Qltb_ge in H. split; [intros []|]. intros [L _]. lra. }
  assert (Footer : forall r, In r footerPart <->
                             0.8 < y (block_bbox bottomBlock)
                                   + height (block_bbox bottomBlock) /\
                             r = footerRegion).
  { intros r. unfold footerPart.
    destruct (Qltb 0.8 (y (block_bbox bottomBlock)
                        + height (block_bbox bottomBlock))) eqn:F.
    - apply Qltb_lt in F. split.
      + intros [<-|[]]. now split.
      + intros [_ ->]. now left.
    - apply Qltb_ge in F. split; [intros []|]. intros [L _]. lra. }
  assert (Main : forall r, In r mainPart -> region_type r = main_content).
  { intros r Hr. unfold mainPart in Hr.
    destruct (filter inMainBand (topBlock :: rest)); [destruct Hr|].
    destruct Hr as [<-|[]]. reflexivity. }
  assert (Cases : forall r, In r (headerPart ++ footerPart ++ mainPart) ->
                            (In r headerPart /\ region_type r = header_region) \/
                            (In r footerPart /\ region_type r = footer_region) \/
                            (In r mainPart /\ region_type r = main_content)).
  { intros r Hr. apply in_app_or in Hr as [Hr|Hr].
    - left. split; [exact Hr|]. apply Header in Hr as [_ ->]. reflexivity.
    - apply in_app_or in Hr as [Hr|Hr].
      + right. left. split; [exact Hr|]. apply Footer in Hr as [_ ->]. reflexivity.
      + right. right. split; [exact Hr|]. now apply Main. }
  split; [split|split; [|split; [|split]]].
  - intros (r & Hr & Ty). exists topBlock. split; [exact InTop|].
    destruct (Cases r Hr) as [[Hh _]|[[_ Tf]|[_ Tm]]]; try congruence.
    now apply Header in Hh.
  - intros (b & Hb & Hy). exists headerRegion. split; [|reflexivity].
    apply in_or_app. left. apply Header. split; [|reflexivity].
    pose proof (Top b Hb). lra.
  - intros r Hr Ty.
    destruct (Cases r Hr) as [[Hh _]|[[_ Tf]|[_ Tm]]]; try congruence.
    apply Header in Hh as [_ ->]. exists topBlock.
    split; [exact InTop|]. split; [reflexivity|]. split; [reflexivity|exact Top].
  - intros r Hr Ty.
    destruct (Cases r Hr) as [[_ Th]|[[Hf _]|[_ Tm]]]; try congruence.
    apply Footer in Hf as [F ->]. exists bottomBlock.
    split; [exact InBottom|]. split; [reflexivity|]. split; [reflexivity|].
    split; [exact F|exact Bottom].
  - intros r Hr Ty [Lo Hi].
    destruct (Cases r Hr) as [[Hh _]|[[Hf _]|[_ Tm]]]; try congruence.
    + apply Header in Hh as [H ->]. unfold headerRegion in Lo.
      cbn [region_bbox] in Lo. lra.
    + apply Footer in Hf as [F ->]. unfold footerRegion in Hi.
      cbn [region_bbox] in Hi. lra.
  - rewrite !map_app. unfold headerPart, footerPart, mainPart.
    destruct (Qltb (y (block_bbox topBlock)) 0.2);
      destruct (Qltb 0.8 _);
      destruct (filter inMainBand (topBlock :: rest)); cbn;
      repeat (constructor; [cbn; intuition discriminate|]); constructor.
Qed.

(** * Properties of the exported chunks *)

(** ** White space and [trim] *)

Lemma trimStart_blank (s : string) : blank s = true -> trimStart s = EmptyString.
Proof.
  induction s as [|c r IH]; simpl; [reflexivity|].
  intros H. apply andb_true_iff in H as [Hc Hr]. rewrite Hc. now apply IH.
Qed.

Lemma trimStart_not_blank (s : string) :
  blank s = false -> blank (trimStart s) = false.
Proof.
  induction s as [|c r IH]; simpl; [discriminate|].
  destruct (isSpace c) eqn:Hc; simpl.
  - exact IH.
  - intros _. now rewrite Hc.
Qed.

Lemma rev_string_blank (s acc : string) :
  blank (rev_string s acc) = (blank s && blank acc)%bool.
Proof.
  revert acc. induction s as [|c r IH]; intros acc; simpl; [reflexivity|].
  rewrite IH. simpl. destruct (isSpace c), (blank r), (blank acc); reflexivity.
Qed.

Lemma truthy_trim_blank (s : string) : truthy (trim s) = negb (blank s).
Proof.
  unfold trim, trimEnd. destruct (blank s) eqn:B.
  - now rewrite (trimStart_blank s B).
  - apply trimStart_not_blank in B.
    assert (R : blank (rev_string (trimStart s) EmptyString) = false).
    { rewrite rev_string_blank, B. reflexivity. }
    apply trimStart_not_blank in R.
    set (t := rev_string (trimStart (rev_string (trimStart s) EmptyString))
                         EmptyString).
    assert (N : blank t = false).
    { unfold t. rewrite rev_string_blank, R. reflexivity. }
    destruct t; [discriminate|reflexivity].
Qed.

Lemma blank_append (a b : string) :
  blank (String.append a b) = (blank a && blank b)%bool.
Proof.
  induction a as [|c r IH]; simpl; [reflexivity|].
  rewrite IH. now rewrite andb_assoc.
Qed.

Lemma blank_join {A : Type} (sep : string) (part : A -> string) (l : list A) :
  blank sep = true ->
  blank (join sep (map part l)) = forallb (fun a => blank (part a)) l.
Proof.
  intros Hsep. induction l as [|p rest IH]; [reflexivity|].
  destruct rest as [|q rest].
  - simpl. now rewrite andb_true_r.
  - change (join sep (map part (p :: q :: rest)))
      with (String.append (part p)
              (String.append sep (join sep (map part (q :: rest))))).
    rewrite !blank_append, Hsep, IH. reflexivity.
Qed.

Lemma forallb_false_nth {A : Type} (f : A -> bool) (l : list A) :
  forallb f l = false <-> exists k a, nth_error l k = Some a /\ f a = false.
Proof.
  induction l as [|b r IH]; simpl.
  - split; [discriminate|]. intros ([|k] & a & H & _); discriminate.
  - rewrite andb_false_iff, IH. split.
    + intros [H|(k & a & H & Ha)].
      * now exists 0%nat, b.
      * now exists (S k), a.
    + intros ([|k] & a & H & Ha).
      * left. simpl in H. congruence.
      * right. now exists k, a.
Qed.

Lemma blank_textOfBlock (block : Block) :
  blank (textOfBlock block)
  = forallb (fun line => forallb (fun word => blank (text word)) (words line))
            (lines block).
Proof.
  unfold textOfBlock. rewrite blank_join by reflexivity.
  induction (lines block) as [|line rest IH]; [reflexivity|].
  simpl. rewrite IH. now rewrite blank_join by reflexivity.
Qed.

(** A block has text exactly when one of its words has. *)
Lemma block_has_text (block : Block) :
  truthy (trim (textOfBlock block)) = true <->
  exists lineIndex wordIndex word, wordWithText block lineIndex wordIndex word.
Proof.
  rewrite truthy_trim_blank, negb_true_iff, blank_textOfBlock.
  rewrite forallb_false_nth. unfold wordWithText. split.
  - intros (lineIndex & line & Hl & Hw).
    apply forallb_false_nth in Hw as (wordIndex & word & Hw & Hb).
    now exists lineIndex, wordIndex, word, line.
  - intros (lineIndex & wordIndex & word & line & Hl & Hw & Hb).
    exists lineIndex, line. split; [exact Hl|].
    apply forallb_false_nth. now exists wordIndex, word.
Qed.

(** ** Loops that only append *)

Lemma fold_left_invariant_in {A St : Type} (P : St -> Prop)
    (f : St -> A -> St) (l : list A) :
  (forall s a, In a l -> P s -> P (f s a)) ->
  forall s, P s -> P (fold_left f l s).
Proof.
  induction l as [|a r IH]; intros Hf s Hs; simpl; [exact Hs|].
  apply IH.
  - intros s' a' Ha'. apply Hf. now right.
  - apply Hf; [now left|exact Hs].
Qed.

Lemma fold_left_adds {A B : Type} (f : list B -> A -> list B) (l : list A)
    (a : A) (b : B) :
  (forall s a', incl s (f s a')) ->
  In a l -> (forall s, In b (f s a)) ->
  forall s, In b (fold_left f l s).
Proof.
  intros Hgrow. induction l as [|a' r IH]; intros Ha Hb s; [destruct Ha|].
  simpl. destruct Ha as [->|Ha].
  - apply (fold_left_invariant (fun s => In b s)); [|apply Hb].
    intros s' a' Hs'. now apply Hgrow.
  - now apply IH.
Qed.

Lemma forEachFrom_adds {A B : Type} (f : list B -> A -> nat -> list B)
    (l : list A) (a : A) (b : B) :
  (forall s a' i, incl s (f s a' i)) ->
  forall k i, nth_error l k = Some a -> (forall s, In b (f s a (i + k)%nat)) ->
  forall s, In b (forEachFrom i f l s).
Proof.
  intros Hgrow. induction l as [|a' r IH]; intros k i Hk Hb s.
  - destruct k; discriminate.
  - simpl. destruct k as [|k].
    + injection Hk as ->. rewrite Nat.add_0_r in Hb.
      apply (forEachFrom_invariant (fun s => In b s)); [|apply Hb].
      intros s' a' j _ Hs'. now apply Hgrow.
    + apply (IH k (S i)); [exact Hk|].
      intros s'. replace (S i + k)%nat with (i + S k)%nat by lia. apply Hb.
Qed.

(** ** The export *)

Section TextChunkFacts.
Context {G : Type} (transform : LegacyInput -> Q -> Q -> G).

Lemma exportBlock_grows (page : IRPage) (chunks : list (TextChunk G))
    (block : Block) :
  incl chunks (exportBlock transform page chunks block).
Proof.
  unfold exportBlock.
  destruct (truthy (trim (textOfBlock block))); [|apply incl_refl].
  unfold forEach.
  apply (forEachFrom_invariant (fun s => incl chunks s)).
  - intros s line lineIndex _ Hs.
    apply (forEachFrom_invariant (fun s => incl chunks s)); [|exact Hs].
    intros s' word wordIndex _ Hs'.
    destruct (truthy (trim (text word))); [|exact Hs'].
    now apply incl_appl.
  - apply incl_appl, incl_refl.
Qed.

Lemma exportBlock_complete (page : IRPage) (chunks : list (TextChunk G))
    (block : Block) (lineIndex wordIndex : nat) (word : Word) :
  wordWithText block lineIndex wordIndex word ->
  In (blockChunk transform page block) (exportBlock transform page chunks block) /\
  In (wordChunk transform page block lineIndex wordIndex word)
     (exportBlock transform page chunks block).
Proof.
  intros W.
  assert (T : truthy (trim (textOfBlock block)) = true).
  { apply block_has_text. now exists lineIndex, wordIndex, word. }
  destruct W as (line & Hl & Hw & Hb).
  unfold exportBlock. rewrite T. unfold forEach.
  assert (Grow : forall li (s : list (TextChunk G)) (w : Word) (wi : nat),
             incl s (if truthy (trim (text w))
                     then s ++ [wordChunk transform page block li wi w] else s)).
  { intros li s w wi. destruct (truthy (trim (text w))); [|apply incl_refl].
    apply incl_appl, incl_refl. }
  assert (GrowLine : forall (s : list (TextChunk G)) (l : Line) (li : nat),
             incl s (forEachFrom 0
                       (fun chunks w wi =>
                          if truthy (trim (text w))
                          then chunks ++ [wordChunk transform page block li wi w]
                          else chunks)
                       (words l) s)).
  { intros s l li.
    apply (forEachFrom_invariant (fun s' => incl s s')); [|apply incl_refl].
    intros s' w wi _ Hs'. eapply incl_tran; [exact Hs'|apply Grow]. }
  split.
  - apply (forEachFrom_invariant (fun s => In (blockChunk transform page block) s)).
    + intros s l li _ Hs. now apply GrowLine.
    + apply in_or_app. right. now left.
  - apply (forEachFrom_adds _ _ line _ GrowLine lineIndex 0%nat Hl).
    intros s. cbn [Nat.add].
    apply (forEachFrom_adds _ _ word _ (Grow lineIndex) wordIndex 0%nat Hw).
    intros s'. cbn [Nat.add]. rewrite truthy_trim_blank, Hb. cbn [negb].
    apply in_or_app. right. now left.
Qed.

Lemma exportBlock_sound (page : IRPage) (chunks : list (TextChunk G))
    (block : Block) (c : TextChunk G) :
  In c (exportBlock transform page chunks block) ->
  In c chunks \/
  exists lineIndex wordIndex word,
    wordWithText block lineIndex wordIndex word /\
    (c = blockChunk transform page block \/
     c = wordChunk transform page block lineIndex wordIndex word).
Proof.
  unfold exportBlock.
  destruct (truthy (trim (textOfBlock block))) eqn:T; [|now left].
  apply block_has_text in T as (li0 & wi0 & w0 & W0).
  unfold forEach. revert c.
  apply (forEachFrom_indexed
           (fun s => forall c, In c s ->
              In c chunks \/
              exists lineIndex wordIndex word,
                wordWithText block lineIndex wordIndex word /\
                (c = blockChunk transform page block \/
                 c = wordChunk transform page block lineIndex wordIndex word))).
  - intros s line lineIndex Hl Hs. cbn [Nat.add].
    apply (forEachFrom_indexed
             (fun s => forall c, In c s ->
                In c chunks \/
                exists lineIndex wordIndex word,
                  wordWithText block lineIndex wordIndex word /\
                  (c = blockChunk transform page block \/
                   c = wordChunk transform page block lineIndex wordIndex word)));
      [|exact Hs].
    intros s' word wordIndex Hw Hs' c. cbn [Nat.add].
    destruct (truthy (trim (text word))) eqn:Tw; [|apply Hs'].
    intros Hc. apply in_app_or in Hc as [Hc|[<-|[]]]; [now apply Hs'|].
    right. exists lineIndex, wordIndex, word. split; [|now right].
    exists line. split; [exact Hl|]. split; [exact Hw|].
    rewrite truthy_trim_blank in Tw. now apply negb_true_iff in Tw.
  - intros c Hc. apply in_app_or in Hc as [Hc|[<-|[]]]; [now left|].
    right. exists li0, wi0, w0. split; [exact W0|now left].
Qed.

Lemma exportBlocks_grow (page : IRPage) (blocks : list Block)
    (chunks : list (TextChunk G)) :
  incl chunks (fold_left (exportBlock transform page) blocks chunks).
Proof.
  apply (fold_left_invariant (fun s => incl chunks s)); [|apply incl_refl].
  intros s block Hs. eapply incl_tran; [exact Hs|apply exportBlock_grows].
Qed.

Lemma generateTextChunks_complete (irPages : list IRPage) (page : IRPage)
    (block : Block) (lineIndex wordIndex : nat) (word : Word) :
  In page irPages -> In block (page_blocks page) ->
  wordWithText block lineIndex wordIndex word ->
  In (blockChunk transform page block) (generateTextChunks transform irPages) /\
  In (wordChunk transform page block lineIndex wordIndex word)
     (generateTextChunks transform irPages).
Proof.
  intros Hp Hb W. unfold generateTextChunks.
  split.
  - apply (fold_left_adds _ irPages page);
      [intros s p; apply exportBlocks_grow|exact Hp|].
    intros s.
    apply (fold_left_adds _ (page_blocks page) block);
      [intros s' b; apply exportBlock_grows|exact Hb|].
    intros s'.
    exact (proj1 (exportBlock_complete page s' block lineIndex wordIndex word W)).
  - apply (fold_left_adds _ irPages page);
      [intros s p; apply exportBlocks_grow|exact Hp|].
    intros s.
    apply (fold_left_adds _ (page_blocks page) block);
      [intros s' b; apply exportBlock_grows|exact Hb|].
    intros s'.
    exact (proj2 (exportBlock_complete page s' block lineIndex wordIndex word W)).
Qed.

Lemma generateTextChunks_sound (irPages : list IRPage) (c : TextChunk G) :
  In c (generateTextChunks transform irPages) ->
  exists page block lineIndex wordIndex word,
    In page irPages /\ In block (page_blocks page) /\
    wordWithText block lineIndex wordIndex word /\
    (c = blockChunk transform page block \/
     c = wordChunk transform page block lineIndex wordIndex word).
Proof.
  unfold generateTextChunks. revert c.
  apply (fold_left_invariant_in
           (fun s => forall c, In c s ->
              exists page block lineIndex wordIndex word,
                In page irPages /\ In block (page_blocks page) /\
                wordWithText block lineIndex wordIndex word /\
                (c = blockChunk transform page block \/
                 c = wordChunk transform page block lineIndex wordIndex word)));
    [|intros c []].
  intros s page Hp Hs.
  apply (fold_left_invariant_in
           (fun s => forall c, In c s ->
              exists page block lineIndex wordIndex word,
                In page irPages /\ In block (page_blocks page) /\
                wordWithText block lineIndex wordIndex word /\
                (c = blockChunk transform page block \/
                 c = wordChunk transform page block lineIndex wordIndex word)));
    [|exact Hs].
  intros s' block Hb Hs' c Hc.
  apply exportBlock_sound in Hc as [Hc|(li & wi & w & W & Hc)]; [now apply Hs'|].
  now exists page, block, li, wi, w.
Qed.
End TextChunkFacts.

Lemma block_types_are_exported (t : BlockType) :
  In (mapBlockTypeToChunkType (blockTypeName t)) exportedTypes.
Proof.
  destruct t; vm_compute; tauto.
Qed.

(** X28. The exported chunks are exactly the chunks of the blocks and
    words that have text: a chunk is exported if and only if it is the
    block-level chunk of a block with a word that is not blank, or the
    word-level chunk of such a word.  No word with text is left out, and
    a block or a word that is blank yields no chunk. *)
Theorem exported_chunks_are_the_blocks_and_words_with_text :
  forall (G : Type) (transformLegacyToGrounding : LegacyInput -> Q -> Q -> G)
         (irPages : list IRPage) (c : TextChunk G),
    In c (generateTextChunks transformLegacyToGrounding irPages) <->
    exists page block lineIndex wordIndex word,
      In page irPages /\ In block (page_blocks page) /\
      wordWithText block lineIndex wordIndex word /\
      (c = blockChunk transformLegacyToGrounding page block \/
       c = wordChunk transformLegacyToGrounding page block lineIndex wordIndex word).
Proof.
  intros G transform irPages c. split.
  - apply generateTextChunks_sound.
  - intros (page & block & li & wi & w & Hp & Hb & W & [->| ->]).
    + exact (proj1 (generateTextChunks_complete transform irPages page block
                                                 li wi w Hp Hb W)).
    + exact (proj2 (generateTextChunks_complete transform irPages page block
                                                 li wi w Hp Hb W)).
Qed.

(** X29. The chunk type of an exported chunk is one of text, title,
    list, table, footer and figure: header, caption and form_field are
    never exported, and no inherited property of the mapping object is.
    An element that the vision model labels title or header ends as a
    title chunk, and only such an element does. *)
Theorem exported_chunk_types :
  forall (G : Type) (transformLegacyToGrounding : LegacyInput -> Q -> Q -> G)
         (irPages : list IRPage),
    (forall c, In c (generateTextChunks transformLegacyToGrounding irPages) ->
               In (chunk_type c) exportedTypes) /\
    (forall elementType,
       let chunkType :=
         mapBlockTypeToChunkType
           (blockTypeName (mapElementTypeToBlockType elementType)) in
       In chunkType exportedTypes /\
       (chunkType = entry title_chunk <->
        toLowerCase elementType = "title"%string \/
        toLowerCase elementType = "header"%string)).
Proof.
  intros G transform irPages. split.
  - intros c Hc.
    apply generateTextChunks_sound in Hc
      as (page & block & li & wi & w & _ & _ & _ & [->| ->]).
    + cbn [blockChunk chunk_type]. apply block_types_are_exported.
    + cbn [wordChunk chunk_type]. now left.
  - intros elementType. cbv zeta. split; [apply block_types_are_exported|].
    unfold mapElementTypeToBlockType.
    destruct (String.eqb (toLowerCase elementType) "title") eqn:E1.
    { apply String.eqb_eq in E1. cbn. split; [now left|reflexivity]. }
    destruct (String.eqb (toLowerCase elementType) "header") eqn:E2.
    { apply String.eqb_eq in E2. cbn. split; [now right|reflexivity]. }
    apply String.eqb_neq in E1, E2. cbn [orb].
    destruct (String.eqb (toLowerCase elementType) "table");
      [split; [discriminate|intros [?|?]; contradiction]|].
    destruct (String.eqb (toLowerCase elementType) "list");
      [split; [discriminate|intros [?|?]; contradiction]|].
    destruct (String.eqb (toLowerCase elementType) "footer");
      [split; [discriminate|intros [?|?]; contradiction]|].
    destruct (String.eqb (toLowerCase elementType) "image");
      split; try discriminate; intros [?|?]; contradiction.
Qed.

(** * Confidences on the path without the vision model *)

Lemma sum_bounds {A : Type} (f : A -> Q) (l : list A) (lo hi : Q) :
  Forall (fun a => lo <= f a <= hi) l ->
  forall s0,
    s0 + ofNat (List.length l) * lo
    <= fold_left (fun s a => s + f a) l s0
    <= s0 + ofNat (List.length l) * hi.
Proof.
  induction l as [|a r IH]; intros H s0.
  - cbn [List.length fold_left]. change (ofNat 0) with 0. lra.
  - inversion H as [|? ? Ha Hr]; subst. simpl fold_left.
    specialize (IH Hr (s0 + f a)).
    replace (List.length (a :: r)) with (List.length r + 1)%nat by (simpl; lia).
    pose proof (ofNat_S (List.length r)) as E.
    set (n := ofNat (List.length r)) in *.
    set (n1 := ofNat (List.length r + 1)) in *.
    assert (E1 : n1 * lo == n * lo + lo) by (rewrite E; ring).
    assert (E2 : n1 * hi == n * hi + hi) by (rewrite E; ring).
    rewrite E1, E2. lra.
Qed.

Lemma mean_bounds {A : Type} (f : A -> Q) (l : list A) (lo hi : Q) :
  l <> [] -> Forall (fun a => lo <= f a <= hi) l ->
  lo <= fold_left (fun s a => s + f a) l 0 / ofNat (List.length l) <= hi.
Proof.
  intros Hne H.
  assert (Hn : 1 <= ofNat (List.length l)).
  { apply ofNat_pos. destruct l; [now elim Hne|simpl; lia]. }
  pose proof (sum_bounds f l lo hi H 0) as [L U].
  split.
  - apply Qle_shift_div_l; [lra|]. rewrite Qmult_comm. lra.
  - apply Qle_shift_div_r; [lra|]. rewrite Qmult_comm. lra.
Qed.

Lemma basicBlocksFrom_confidence (groups : list (list Line)) :
  forall i b,
    In b (basicBlocksFrom i groups) ->
    exists g, In g groups /\ g <> [] /\ lines b = g /\
              block_confidence b = meanLineConfidence g.
Proof.
  induction groups as [|g rest IH]; intros i b Hb; [destruct Hb|].
  simpl in Hb. destruct g as [|l ls].
  - destruct (IH _ _ Hb) as (g & Hg & R). exists g. split; [now right|exact R].
  - destruct Hb as [<-|Hb].
    + exists (l :: ls). split; [now left|]. split; [discriminate|now split].
    + destruct (IH _ _ Hb) as (g & Hg & R). exists g. split; [now right|exact R].
Qed.

Lemma buildLinesFrom_in (groups : list (list Word)) :
  forall i l, In l (buildLinesFrom i groups) -> In (words l) groups /\ words l <> [].
Proof.
  induction groups as [|g rest IH]; intros i l Hl; [destruct Hl|].
  simpl in Hl. destruct g as [|w ws].
  - destruct (IH _ _ Hl) as [H1 H2]. split; [now right|exact H2].
  - destruct Hl as [<-|Hl].
    + split; [now left|discriminate].
    + destruct (IH _ _ Hl) as [H1 H2]. split; [now right|exact H2].
Qed.

Lemma rawOcrWords_confidence (canvas : Canvas) (seed pn : nat) (data : OcrData)
    (lo hi : Q) :
  Forall (fun w => lo <= ow_confidence w <= hi) (wordsOfData data) ->
  Forall (fun w => lo / 100 <= confidence w <= hi / 100)
         (acc_words (rawOcrWords canvas seed pn data)).
Proof.
  intros H. unfold rawOcrWords. unfold wordsOfData in H.
  destruct (ocr_words data) as [ws|]; [|constructor].
  unfold forEach.
  apply (forEachFrom_invariant
           (fun acc => Forall (fun w => lo / 100 <= confidence w <= hi / 100)
                              (acc_words acc))); [|constructor].
  intros acc ocrWord i Hin Hacc. unfold rawOcrWordItem.
  destruct (ow_bbox ocrWord) as [b|]; [|exact Hacc].
  destruct (truthy (trim (ow_text ocrWord))); [|exact Hacc].
  cbn [pushChunk pushWord acc_words].
  apply Forall_app. split; [exact Hacc|].
  constructor; [|constructor]. cbn [confidence].
  rewrite Forall_forall in H. specialize (H ocrWord Hin).
  split; (apply Qmult_le_compat_r; [|now vm_compute]); apply H.
Qed.

(** X30. On the path without the vision model the confidences keep the
    range of the OCR engine: when the confidence of every OCR word lies
    between two bounds, such as 0 and 100, the confidence of every word
    of the page and of every block, a mean over its lines of the mean
    over their words, lies between the hundredths of these bounds. *)
Theorem basic_confidences_stay_in_range :
  forall (canvas : Canvas) (seed pn : nat) (data : OcrData) (lo hi : Q),
    Forall (fun w => lo <= ow_confidence w <= hi) (wordsOfData data) ->
    let page := irPage (basicPage canvas seed pn data) in
    Forall (fun w => lo / 100 <= confidence w <= hi / 100) (page_words page) /\
    Forall (fun b => lo / 100 <= block_confidence b <= hi / 100) (page_blocks page).
Proof.
  intros canvas seed pn data lo hi H page. unfold page, basicPage.
  cbn [irPage page_words page_blocks].
  pose proof (rawOcrWords_confidence canvas seed pn data lo hi H) as Hw.
  set (ws := acc_words (rawOcrWords canvas seed pn data)) in *.
  split; [exact Hw|].
  apply Forall_forall. intros b Hb.
  apply basicBlocksFrom_confidence in Hb as (g & Hg & Hne & _ & ->).
  destruct (groupLinesIntoBlocks_concat (buildLines (groupWordsIntoLines ws)))
    as [_ Hconcat].
  destruct (groupWordsIntoLines_sorted ws) as [_ Hwords].
  unfold meanLineConfidence. apply mean_bounds; [exact Hne|].
  apply Forall_forall. intros l Hl.
  assert (Hline : In l (buildLines (groupWordsIntoLines ws))).
  { rewrite <- Hconcat. apply in_concat. now exists g. }
  apply buildLinesFrom_in in Hline as [Hgroup Hwne].
  unfold meanWordConfidence. apply mean_bounds; [exact Hwne|].
  apply Forall_forall. intros w Hin.
  rewrite Forall_forall in Hw. apply Hw.
  apply (Permutation_in _ (sort_perm compareWords ws)).
  rewrite <- Hwords. apply in_concat. now exists (words l).
Qed.

(** Witness of X30: one OCR word of confidence 50. *)
Lemma basic_confidences_stay_in_range_witness :
  Forall (fun w => 0 <= ow_confidence w <= 100) (wordsOfData ocrOneWord) /\
  Forall (fun b => 0 / 100 <= block_confidence b <= 100 / 100)
         (page_blocks (irPage (basicPage raster 0 1 ocrOneWord))).
Proof.
  assert (H : Forall (fun w => 0 <= ow_confidence w <= 100)
                     (wordsOfData ocrOneWord)).
  { constructor; [|constructor]. simpl. lra. }
  split; [exact H|].
  exact (proj2 (basic_confidences_stay_in_range raster 0 1 ocrOneWord 0 100 H)).
Defined.
